(** * The setup step runner of hive-mcp-cli

    A shallow embedding of [internal/setup]'s [Runner] (the [Step]
    interface, [Result], [NewRunner], [Runner.RunAll],
    [Runner.RollbackFrom]) and of the [CloneDepsStep] collaborator, with
    the properties the specification states about them.

    Steps are effectful Go objects: every method takes the state of the
    outside world (file system, processes, console) and returns its value
    together with the new world.  The runner is a pointer receiver, so it
    lives in the machine state next to the world.  A ghost log records
    each [Check], [Run] and [Rollback] the runner performs, by position
    of the step in [Steps] and with the value the call returned; it is
    what the statements about "which methods were invoked" talk about.

    The second half embeds the nine steps the [setup] command runs
    ([CloneStep], [ShellStep], [PrerequisitesStep], [CloneDepsStep],
    [DoomSyncStep], [ChromaStep], [OllamaStep], [EmacsDaemonStep],
    [MCPStep]) and the command itself over a class [OS] of the calls they
    make outside the program, with further properties of the runner, of
    the steps and of the managed section of the shell files. *)

From Stdlib Require Import ZArith Lia Ascii.
From stdpp Require Import base option list strings.
From Equations Require Import Equations.

(** ** Go errors *)

(** An [error] value is either an opaque error carrying its message
    ([errors.New], [fmt.Errorf] without [%w], errors of [os/exec]), or
    the [*fmt.wrapError] that [fmt.Errorf] builds for a format with one
    [%w] verb: the formatted message and the wrapped error.  The nil
    error is [None : option error]. *)
Inductive error : Type :=
| errorString (s : string)
| wrapError (msg : string) (err : error).

(** [err.Error()] *)
Definition errmsg (e : error) : string :=
  match e with
  | errorString s => s
  | wrapError msg _ => msg
  end.

(** [errors.Unwrap(err)] *)
Definition Unwrap (e : error) : option error :=
  match e with
  | errorString _ => None
  | wrapError _ err => Some err
  end.

(** [fmt.Errorf(prefix + "%w", err)]: the message is the prefix followed
    by the message of [err], and [err] is kept for [Unwrap]. *)
Definition Errorf_w (prefix : string) (err : error) : error :=
  wrapError (prefix +:+ errmsg err) err.

(** The two formats of [RunAll] and the one of [RollbackFrom]. *)
Definition check_failed (name : string) (err : error) : error :=
  Errorf_w ("check failed for " +:+ name +:+ ": ") err.

Definition step_failed (name : string) (err : error) : error :=
  Errorf_w ("step " +:+ name +:+ " failed: ") err.

Definition rollback_failed (name : string) (err : error) : error :=
  Errorf_w ("rollback " +:+ name +:+ ": ") err.

(** ** Go's [int] *)

(** [int] is a 64-bit two's complement integer on the platforms the tool
    targets; arithmetic wraps around. *)
Definition int_min : Z := - 2 ^ 63.
Definition int_max : Z := 2 ^ 63 - 1.

Definition is_int (z : Z) : Prop := (int_min <= z <= int_max)%Z.

Definition to_int (z : Z) : Z := ((z + 2 ^ 63) mod 2 ^ 64 - 2 ^ 63)%Z.

(** [i--] *)
Definition int_dec (i : Z) : Z := to_int (i - 1).

(** The line feed of the [Printf] formats. *)
Definition LF : string := String (Ascii.ascii_of_nat 10) "".

(** ** Results, the call log, control *)

Record Result : Type := mkResult {
  StepName : string;
  Skipped : bool;
  Error : option error
}.

(** One entry of the ghost log: which method of the step at position [i]
    of [Steps] was invoked, and what it returned. *)
Inductive call : Type :=
| CheckCall (i : nat) (done : bool) (err : option error)
| RunCall (i : nat) (err : option error)
| RollbackCall (i : nat) (err : option error).

Definition call_index (c : call) : nat :=
  match c with
  | CheckCall i _ _ => i
  | RunCall i _ => i
  | RollbackCall i _ => i
  end.

Definition is_RollbackCall (c : call) : bool :=
  match c with
  | RollbackCall _ _ => true
  | _ => false
  end.

Definition call_error (c : call) : option error :=
  match c with
  | CheckCall _ _ err => err
  | RunCall _ err => err
  | RollbackCall _ err => err
  end.

(** How one pass through the loop body ends: falling through to the next
    step ([continue] or the end of the body), or [return err]. *)
Inductive control : Type :=
| Continue
| Return (err : option error).

(** A Go call either returns or panics ([r.Steps[i]] with [i] out of
    range is a run-time panic). *)
Inductive completion (A : Type) : Type :=
| Returned (a : A)
| Panicked.
Arguments Returned {A} a.
Arguments Panicked {A}.

Section Setup.

(** The state of everything outside the runner. *)
Context {W : Type}.

(** ** The [Step] interface, [Result] and [Runner] *)

Record Step : Type := mkStep {
  Name : string;
  Check : W -> (bool * option error) * W;
  Run : W -> option error * W;
  Rollback : W -> option error * W
}.

(** The observers are [nil]-able function fields; an observer returns
    nothing, all it can do is act on the world. *)
Record Runner : Type := mkRunner {
  Steps : list Step;
  Results : list Result;
  OnStart : option (Step -> W -> W);
  OnDone : option (Step -> bool -> option error -> W -> W)
}.

(** ** The machine *)

Record state : Type := mkState {
  self : Runner;
  world : W;
  calls : list call
}.

Definition init (r : Runner) (w : W) : state :=
  {| self := r; world := w; calls := [] |}.

Definition M (A : Type) : Type := state -> A * state.

#[global] Instance M_ret : MRet M := fun A a s => (a, s).

#[global] Instance M_bind : MBind M := fun A B f m s =>
  let '(a, s') := m s in f a s'.

(** [let* x := m in k] runs [m], then [k] on its value (the argument
    order lets the type of [x] be read off [m]). *)
Definition bind {A B : Type} (m : M A) (k : A -> M B) : M B := m ≫= k.

Notation "'let*' x ':=' m 'in' k" := (bind m (fun x => k))
  (at level 10, x pattern, m at level 100, k at level 200, only parsing).

(** Primitive actions. *)

Definition on_world (f : W -> W) : M unit := fun s =>
  (tt, {| self := self s; world := f (world s); calls := calls s |}).

Definition log (c : call) : M unit := fun s =>
  (tt, {| self := self s; world := world s; calls := calls s ++ [c] |}).

Definition invoke {A : Type} (f : W -> A * W) : M A := fun s =>
  let '(a, w') := f (world s) in
  (a, {| self := self s; world := w'; calls := calls s |}).

(** [done, err := step.Check()] *)
Definition callCheck (i : nat) (step : Step) : M (bool * option error) :=
  let* r := invoke (Check step) in
  log (CheckCall i r.1 r.2);;
  mret r.

(** [err = step.Run()] *)
Definition callRun (i : nat) (step : Step) : M (option error) :=
  let* err := invoke (Run step) in
  log (RunCall i err);;
  mret err.

(** [err := r.Steps[i].Rollback()] *)
Definition callRollback (i : nat) (step : Step) : M (option error) :=
  let* err := invoke (Rollback step) in
  log (RollbackCall i err);;
  mret err.

(** [r.Results = append(r.Results, result)] *)
Definition appendResult (result : Result) : M unit := fun s =>
  (tt, {| self := {| Steps := Steps (self s);
                     Results := Results (self s) ++ [result];
                     OnStart := OnStart (self s);
                     OnDone := OnDone (self s) |};
          world := world s; calls := calls s |}).

(** [if r.OnStart != nil { r.OnStart(step) }] *)
Definition onStart (step : Step) : M unit := fun s =>
  match OnStart (self s) with
  | Some f => on_world (f step) s
  | None => (tt, s)
  end.

(** [if r.OnDone != nil { r.OnDone(step, skipped, err) }] *)
Definition onDone (step : Step) (skipped : bool) (err : option error) : M unit := fun s =>
  match OnDone (self s) with
  | Some f => on_world (f step skipped err) s
  | None => (tt, s)
  end.

(** ** [Runner.RunAll] *)

(** The body of [for _, step := range r.Steps]; [i] is the position of
    [step], which the source does not name and only the log uses. *)
Definition iteration (i : nat) (step : Step) : M control :=
  onStart step;;
  let* (done, err) := callCheck i step in
  match err return M control with
  | Some err =>
      appendResult {| StepName := Name step; Skipped := false; Error := Some err |};;
      onDone step false (Some err);;
      mret (Return (Some (check_failed (Name step) err)))
  | None =>
      if done return M control then
        appendResult {| StepName := Name step; Skipped := true; Error := None |};;
        onDone step true None;;
        mret Continue
      else
        let* err := callRun i step in
        appendResult {| StepName := Name step; Skipped := false; Error := err |};;
        onDone step false err;;
        match err return M control with
        | Some e => mret (Return (Some (step_failed (Name step) e)))
        | None => mret Continue
        end
  end.

Fixpoint range_loop (i : nat) (steps : list Step) : M (option error) :=
  match steps with
  | [] => mret None
  | step :: rest =>
      let* c := iteration i step in
      match c return M (option error) with
      | Return err => mret err
      | Continue => range_loop (S i) rest
      end
  end.

(** [func (r *Runner) RunAll() error]; the slice [r.Steps] is read once,
    when the [range] starts. *)
Definition RunAll : M (option error) := fun s =>
  range_loop 0 (Steps (self s)) s.

(** *** The points of a run

    [at_loop_head s0 i s]: the run of [RunAll] started in [s0] stands at
    the head of its loop in state [s], about to take the step at position
    [i].  [at_return s0 err s]: that run leaves [RunAll] in state [s]
    returning [err], from inside the loop or after its last pass.  Inside
    one pass [Results] is assigned once, so the values it takes anywhere
    during the run are those at these points. *)
Inductive at_loop_head (s0 : state) : nat -> state -> Prop :=
| head_first : at_loop_head s0 0 s0
| head_next i step s s' :
    at_loop_head s0 i s ->
    Steps (self s0) !! i = Some step ->
    iteration i step s = (Continue, s') ->
    at_loop_head s0 (S i) s'.

Inductive at_return (s0 : state) : option error -> state -> Prop :=
| return_inside i step s err s' :
    at_loop_head s0 i s ->
    Steps (self s0) !! i = Some step ->
    iteration i step s = (Return err, s') ->
    at_return s0 err s'
| return_after s :
    at_loop_head s0 (length (Steps (self s0))) s ->
    at_return s0 None s.

Definition during (s0 s : state) : Prop :=
  (exists i, at_loop_head s0 i s) \/ (exists err, at_return s0 err s).

(** Results without error and steps that agree on names, position by
    position. *)
Definition named (rs : list Result) (steps : list Step) : Prop :=
  Forall2 (fun res step => StepName res = Name step /\ Error res = None) rs steps.

(** *** Steps that complete

    A step completes when its probe never fails and it either is always
    found done or its action never fails: whenever the runner takes it,
    it is skipped or succeeds. *)
Definition completes (step : Step) : Prop :=
  (forall w, (Check step w).1.2 = None)
  /\ ((forall w, (Check step w).1.1 = true) \/ (forall w, (Run step w).1 = None)).

(** *** Observers

    [R] relates worlds that the steps cannot tell apart: from related
    worlds a step returns the same values and leaves related worlds.  An
    observer is silent for [R] when the world it leaves is related to the
    one it found: what it does (printing, say) is invisible to the steps. *)
Definition step_respects (R : W -> W -> Prop) (step : Step) : Prop :=
  forall w1 w2, R w1 w2 ->
    (Check step w1).1 = (Check step w2).1
    /\ R (Check step w1).2 (Check step w2).2
    /\ (Run step w1).1 = (Run step w2).1
    /\ R (Run step w1).2 (Run step w2).2.

Definition silent (R : W -> W -> Prop) (r : Runner) : Prop :=
  (forall f step w, OnStart r = Some f -> R w (f step w))
  /\ (forall g step skipped err w, OnDone r = Some g -> R w (g step skipped err w)).

(** Two machine states that differ at most in the observers and in what
    the observers did. *)
Definition alike (R : W -> W -> Prop) (s1 s2 : state) : Prop :=
  Results (self s1) = Results (self s2)
  /\ calls s1 = calls s2
  /\ R (world s1) (world s2)
  /\ silent R (self s1)
  /\ silent R (self s2).

(** *** The shape of a run

    [pass i step res cs c]: one pass over [step] at position [i] that
    appends [res], performs the calls [cs] and ends in [c].  The worlds
    are those in which [Check] and [Run] were invoked. *)
Inductive pass (i : nat) (step : Step) : Result -> list call -> control -> Prop :=
| pass_check_failed w done e :
    (Check step w).1 = (done, Some e) ->
    pass i step {| StepName := Name step; Skipped := false; Error := Some e |}
      [CheckCall i done (Some e)]
      (Return (Some (check_failed (Name step) e)))
| pass_skipped w :
    (Check step w).1 = (true, None) ->
    pass i step {| StepName := Name step; Skipped := true; Error := None |}
      [CheckCall i true None]
      Continue
| pass_succeeded w w' :
    (Check step w).1 = (false, None) ->
    (Run step w').1 = None ->
    pass i step {| StepName := Name step; Skipped := false; Error := None |}
      [CheckCall i false None; RunCall i None]
      Continue
| pass_run_failed w w' e :
    (Check step w).1 = (false, None) ->
    (Run step w').1 = Some e ->
    pass i step {| StepName := Name step; Skipped := false; Error := Some e |}
      [CheckCall i false None; RunCall i (Some e)]
      (Return (Some (step_failed (Name step) e))).

(** [passes i steps rs cs err]: a run over [steps], the first of them at
    position [i], that appends the results [rs], performs the calls [cs]
    and returns [err]. *)
Inductive passes : nat -> list Step -> list Result -> list call -> option error -> Prop :=
| passes_end i : passes i [] [] [] None
| passes_return i step rest res cs err :
    pass i step res cs (Return err) ->
    passes i (step :: rest) [res] cs err
| passes_continue i step rest res cs rs cs' err :
    pass i step res cs Continue ->
    passes (S i) rest rs cs' err ->
    passes i (step :: rest) (res :: rs) (cs ++ cs') err.

(** ** [Runner.RollbackFrom] *)

(** [r.Steps[i]] for [i : int]: [None] is the index-out-of-range panic. *)
Definition at_index (steps : list Step) (i : Z) : option Step :=
  if (i <? 0)%Z then None else steps !! Z.to_nat i.

(** The body of the loop of [RollbackFrom]; the slice is indexed twice
    with the same [i], for [Rollback()] and for [Name()]. *)
Definition rollback_body (i : Z) (errors : list error) : M (completion (list error)) := fun s =>
  if (i <? Z.of_nat (length (Steps (self s))))%Z then
    match at_index (Steps (self s)) i with
    | None => (Panicked, s)
    | Some step =>
        (let* err := callRollback (Z.to_nat i) step in
         match err return M (completion (list error)) with
         | Some e => mret (Returned (errors ++ [rollback_failed (Name step) e]))
         | None => mret (Returned errors)
         end) s
    end
  else (Returned errors, s).

(** [for i := index; i >= 0; i-- { ... }], with [errors] the slice
    collected so far.  The loop is not structural; it terminates because
    [i--] on a non-negative [i] yields a smaller [int]. *)
Equations? rollback_loop (i : Z) (errors : list error) (s : state)
  : completion (list error) * state by wf (Z.to_nat (i + 1)) lt :=
  rollback_loop i errors s with Z_le_dec 0 i := {
    | left Hge with rollback_body i errors s := {
        | (Returned errors', s') := rollback_loop (int_dec i) errors' s';
        | (Panicked, s') := (Panicked, s') };
    | right _ := (Returned errors, s) }.
Proof.
  assert (int_dec i < i)%Z; [| lia].
  unfold int_dec, to_int.
  destruct (Z_lt_dec (i - 1) (2 ^ 63)) as [Hs | Hb].
  - rewrite Z.mod_small by lia. lia.
  - pose proof (Z.mod_pos_bound (i - 1 + 2 ^ 63) (2 ^ 64) ltac:(lia)). lia.
Qed.

(** [func (r *Runner) RollbackFrom(index int) []error] *)
Definition RollbackFrom (index : Z) : M (completion (list error)) :=
  rollback_loop index [].

(** The error [RollbackFrom] collects for a logged call: the error of a
    failed [Rollback()], wrapped under the name of the step at that
    position. *)
Definition rollback_error (steps : list Step) (c : call) : option error :=
  match c with
  | RollbackCall i (Some e) =>
      match steps !! i with
      | Some step => Some (rollback_failed (Name step) e)
      | None => None
      end
  | _ => None
  end.

(** ** The console and [NewRunner] *)

Section Console.

(** [fmt.Printf]: writes a line to standard output, which is part of the
    world. *)
Context (Printf : string -> W -> W).

(** The two closures [NewRunner] installs. *)
Definition defaultOnStart (step : Step) : W -> W :=
  Printf ("→ " +:+ Name step +:+ "..." +:+ LF).

Definition defaultOnDone (step : Step) (skipped : bool) (err : option error) : W -> W :=
  match err with
  | Some e => Printf ("  ✗ " +:+ Name step +:+ ": " +:+ errmsg e +:+ LF)
  | None =>
      if skipped then Printf ("  ✓ " +:+ Name step +:+ " (already done)" +:+ LF)
      else Printf ("  ✓ " +:+ Name step +:+ LF)
  end.

(** [func NewRunner(steps []Step) *Runner] *)
Definition NewRunner (steps : list Step) : Runner :=
  {| Steps := steps;
     Results := [];
     OnStart := Some defaultOnStart;
     OnDone := Some defaultOnDone |}.

(** [func RunAll(steps []Step) error], the convenience function: the
    runner is created, run and dropped; what remains is the error and the
    world. *)
Definition RunAll_steps (steps : list Step) (w : W) : option error * W :=
  let '(err, s) := RunAll (init (NewRunner steps) w) in (err, world s).

End Console.

(** ** The dependency-download step *)

Section CloneDeps.

(** The operating system, as far as this step uses it: [os.UserHomeDir]
    (reads the environment), [filepath.Join], and running a command in a
    directory with [exec.Cmd.Run]. *)
Context (UserHomeDir : W -> string * option error).
Context (Join : string -> string -> string).
Context (exec_Run : string -> list string -> string -> W -> option error * W).

(** [util.ExpandPath]: a leading [~] is replaced by the home directory,
    unless that cannot be determined. *)
Definition ExpandPath (path : string) (w : W) : string :=
  match path with
  | String c rest =>
      if Ascii.eqb c "~"%char then
        match UserHomeDir w with
        | (home, None) => home +:+ rest
        | (_, Some _) => path
        end
      else path
  | EmptyString => path
  end.

Definition expandPath (path : string) (w : W) : string := ExpandPath path w.

(** [home, _ := os.UserHomeDir(); return filepath.Join(home, "hive-mcp")] *)
Definition DefaultHiveMCPDir (w : W) : string :=
  Join (UserHomeDir w).1 "hive-mcp".

Record CloneDepsStep : Type := mkCloneDepsStep { HiveMCPDir : string }.

Definition CloneDepsStep_Name (s : CloneDepsStep) : string :=
  "Download Clojure dependencies".

Definition CloneDepsStep_targetDir (s : CloneDepsStep) (w : W) : string :=
  if negb (String.eqb (HiveMCPDir s) "") then expandPath (HiveMCPDir s) w
  else DefaultHiveMCPDir w.

Definition CloneDepsStep_Check (s : CloneDepsStep) (w : W) : (bool * option error) * W :=
  ((false, None), w).

Definition CloneDepsStep_Run (s : CloneDepsStep) (w : W) : option error * W :=
  let dir := CloneDepsStep_targetDir s w in
  match exec_Run "clojure" ["-P"] dir w with
  | (Some err, w') => (Some (Errorf_w "clojure -P failed: " err), w')
  | (None, w') => (None, w')
  end.

Definition CloneDepsStep_Rollback (s : CloneDepsStep) (w : W) : option error * W :=
  (None, w).

(** [*CloneDepsStep] as a value of the interface type [Step]. *)
Definition CloneDepsStep_as_Step (s : CloneDepsStep) : Step :=
  {| Name := CloneDepsStep_Name s;
     Check := CloneDepsStep_Check s;
     Run := CloneDepsStep_Run s;
     Rollback := CloneDepsStep_Rollback s |}.

End CloneDeps.

End Setup.

Arguments Step : clear implicits.
Arguments Runner : clear implicits.
Arguments state : clear implicits.
Arguments M : clear implicits.

(** ** A small world to run the model in

    The world is a journal of the components installed so far and the
    console.  An [installer] probes the journal, installs by adding its
    name and rolls back by removing it; the other steps fail in their
    probe, in their action or in their rollback. *)
Module Example.

Record World : Type := mkWorld {
  installed : list string;
  console : list string
}.

Definition print (line : string) (w : World) : World :=
  {| installed := installed w; console := console w ++ [line] |}.

Definition install (name : string) (w : World) : World :=
  {| installed := installed w ++ [name]; console := console w |}.

Definition uninstall (name : string) (w : World) : World :=
  {| installed := filter (fun n => n ≠ name) (installed w); console := console w |}.

Definition installer (name : string) : Step World :=
  {| Name := name;
     Check := fun w => ((bool_decide (name ∈ installed w), None), w);
     Run := fun w => (None, install name w);
     Rollback := fun w => (None, uninstall name w) |}.

(** Installs, but cannot be undone. *)
Definition stubborn (name : string) : Step World :=
  {| Name := name;
     Check := fun w => ((bool_decide (name ∈ installed w), None), w);
     Run := fun w => (None, install name w);
     Rollback := fun w => (Some (errorString "cannot undo"), w) |}.

(** Its action fails. *)
Definition failing (name msg : string) : Step World :=
  {| Name := name;
     Check := fun w => ((false, None), w);
     Run := fun w => (Some (errorString msg), w);
     Rollback := fun w => (None, w) |}.

(** Its probe fails; its action would install. *)
Definition unprobeable (name msg : string) : Step World :=
  {| Name := name;
     Check := fun w => ((false, Some (errorString msg)), w);
     Run := fun w => (None, install name w);
     Rollback := fun w => (None, w) |}.


(** Reports "already done"; its action would fail if it were invoked. *)
Definition satisfied (name : string) : Step World :=
  {| Name := name;
     Check := fun w => ((true, None), w);
     Run := fun w => (Some (errorString "must not run"), w);
     Rollback := fun w => (None, w) |}.

Definition empty : World := {| installed := []; console := [] |}.

(** The scenario of the specification: A is already there, B installs,
    C fails with "disk full"; D is never reached. *)
Definition with_A : World := {| installed := ["A"]; console := [] |}.

Definition scenario : list (Step World) :=
  [installer "A"; stubborn "B"; failing "C" "disk full"; installer "D"].

(** A runner without observers. *)
Definition quiet (steps : list (Step World)) : Runner World :=
  {| Steps := steps; Results := []; OnStart := None; OnDone := None |}.

(** Steps cannot tell apart two worlds with the same journal. *)
Definition same_journal (w1 w2 : World) : Prop := installed w1 = installed w2.

(** The home directory is fixed, commands succeed and are noted in the
    journal. *)
Definition home (w : World) : string * option error := ("/home/hive", None).

Definition join (a b : string) : string := a +:+ "/" +:+ b.

Definition exec (name : string) (args : list string) (dir : string) (w : World)
  : option error * World :=
  (None, install (name +:+ " in " +:+ dir) w).

Definition deps : Step World :=
  CloneDepsStep_as_Step home join exec {| HiveMCPDir := "" |}.

(** The runners and runs the properties are tried on. *)
Definition r0 : Runner World := quiet scenario.

Definition run0 : option error * state World := RunAll (init r0 with_A).

Definition loud : Runner World := NewRunner print scenario.

Definition probing : Runner World :=
  quiet [installer "A"; unprobeable "P" "no network"; installer "D"].

Definition run_probing : option error * state World := RunAll (init probing empty).

Definition with_deps : Runner World := quiet [installer "A"; deps].

Definition run_deps : option error * state World := RunAll (init with_deps empty).


Definition disk_full : error := errorString "disk full".

Definition no_network : error := errorString "no network".

End Example.

(** ** More vocabulary for the runner *)

Definition is_CheckCall (c : call) : bool :=
  match c with
  | CheckCall _ _ _ => true
  | _ => false
  end.

(** The runner [r] with another slice in [r.Steps]. *)
Definition with_Steps {W : Type} (r : Runner W) (steps : list (Step W)) : Runner W :=
  {| Steps := steps;
     Results := Results r;
     OnStart := OnStart r;
     OnDone := OnDone r |}.

(** A runner without observers, with results so far. *)
Definition bare {W : Type} (steps : list (Step W)) : Runner W :=
  {| Steps := steps; Results := []; OnStart := None; OnDone := None |}.

(** *** The log as a record of what was done

    The log alone says which calls were noted.  The two relations below
    say that the noted calls were made: each entry holds what the method
    of that step returned in the world the run had reached, and the run
    went on in the world the call left.

    [after_OnStart] and [after_OnDone] are the world after the observer,
    when one is set ([if r.OnStart != nil { ... }]). *)
Definition after_OnStart {W : Type} (r : Runner W) (step : Step W) (w : W) : W :=
  match OnStart r with
  | Some f => f step w
  | None => w
  end.

Definition after_OnDone {W : Type} (r : Runner W) (step : Step W)
    (skipped : bool) (err : option error) (w : W) : W :=
  match OnDone r with
  | Some g => g step skipped err w
  | None => w
  end.

(** [performed r w cs w']: from the world [w], passes of the loop of
    [RunAll] made the calls [cs] and left the world [w'].  In a pass
    [OnStart] acts first, [Check()] is invoked in the world it left,
    [Run()] (when [Check()] answered [(false, nil)]) in the world
    [Check()] left, and [OnDone] acts last, on the world the last call
    left. *)
Inductive performed {W : Type} (r : Runner W) : W -> list call -> W -> Prop :=
| performed_nothing w : performed r w [] w
| performed_check_failed w i step done e w1 cs w' :
    Steps r !! i = Some step ->
    Check step (after_OnStart r step w) = ((done, Some e), w1) ->
    performed r (after_OnDone r step false (Some e) w1) cs w' ->
    performed r w (CheckCall i done (Some e) :: cs) w'
| performed_skip w i step w1 cs w' :
    Steps r !! i = Some step ->
    Check step (after_OnStart r step w) = ((true, None), w1) ->
    performed r (after_OnDone r step true None w1) cs w' ->
    performed r w (CheckCall i true None :: cs) w'
| performed_run w i step w1 cs w' :
    Steps r !! i = Some step ->
    Check step (after_OnStart r step w) = ((false, None), w1) ->
    performed r (after_OnDone r step false (Run step w1).1 (Run step w1).2) cs w' ->
    performed r w (CheckCall i false None :: RunCall i (Run step w1).1 :: cs) w'.

(** [rolled_back steps w cs w']: from the world [w], the calls [cs] are
    [Rollback()]s of steps of the slice, each invoked in the world the
    one before it left, and [w'] is the world the last one left. *)
Inductive rolled_back {W : Type} (steps : list (Step W)) : W -> list call -> W -> Prop :=
| rolled_back_nothing w : rolled_back steps w [] w
| rolled_back_step w i step cs w' :
    steps !! i = Some step ->
    rolled_back steps (Rollback step w).2 cs w' ->
    rolled_back steps w (RollbackCall i (Rollback step w).1 :: cs) w'.

(** ** Strings *)

(** [strings.Contains(s, substr)] *)
Fixpoint strings_Contains (s substr : string) : bool :=
  String.prefix substr s
  || match s with
     | EmptyString => false
     | String _ s' => strings_Contains s' substr
     end.

(** [strings.Join(elems, sep)] *)
Fixpoint strings_Join (elems : list string) (sep : string) : string :=
  match elems with
  | [] => ""
  | [x] => x
  | x :: rest => x +:+ sep +:+ strings_Join rest sep
  end.

(** The double quote of the [Sprintf] format of [ShellStep.Run]. *)
Definition QUOTE : string := String (Ascii.ascii_of_nat 34) "".

(** ** The operating system

    What the steps of the [setup] package call outside the program.  A
    command is the [exec.Cmd] built by [exec.Command]: the program, its
    arguments, the working directory ([""] when [cmd.Dir] is not set) and
    whether standard output and error are those of the process
    ([cmd.Stdout = os.Stdout; cmd.Stderr = os.Stderr]). *)
Record Cmd : Type := mkCmd {
  Path : string;
  Args : list string;
  Dir : string;
  Stdio : bool
}.

(** [exec.Command(name, arg...)] *)
Definition exec_Command (name : string) (args : list string) : Cmd :=
  {| Path := name; Args := args; Dir := ""; Stdio := false |}.

Definition with_Dir (c : Cmd) (dir : string) : Cmd :=
  {| Path := Path c; Args := Args c; Dir := dir; Stdio := Stdio c |}.

Definition with_Stdio (c : Cmd) : Cmd :=
  {| Path := Path c; Args := Args c; Dir := Dir c; Stdio := true |}.

(** Calls that only read the world return no new world.  Durations are in
    nanoseconds, permissions and flags are the numbers of the source.  A
    file handle is a number.  [Scanner_lines] is a [bufio.Scanner] on a
    file run to its end: the lines [Scan()] and [Text()] deliver, and
    [Err()].  [map_range_swapped] is the choice of Go's runtime when it
    ranges over the two-key map of [ShellStep.envVars]: the order of a
    [range] over a map is not specified. *)
Class OS (W : Type) : Type := {
  os_UserHomeDir : W -> string * option error;
  os_Stat : string -> W -> option error;
  os_MkdirAll : string -> Z -> W -> option error * W;
  os_RemoveAll : string -> W -> option error * W;
  os_ReadFile : string -> W -> string * option error;
  os_WriteFile : string -> string -> Z -> W -> option error * W;
  os_Open : string -> W -> (Z + error) * W;
  os_OpenFile : string -> Z -> Z -> W -> (Z + error) * W;
  File_WriteString : Z -> string -> W -> option error * W;
  File_Close : Z -> W -> W;
  Scanner_lines : Z -> W -> (list string * option error) * W;
  filepath_Join : string -> string -> string;
  filepath_Dir : string -> string;
  exec_LookPath : string -> W -> option error;
  Cmd_Run : Cmd -> W -> option error * W;
  Cmd_Output : Cmd -> W -> (string * option error) * W;
  http_Get : Z -> string -> W -> (Z + error) * W;
  time_Sleep : Z -> W -> W;
  fmt_Print : string -> W -> W;
  map_range_swapped : W -> bool
}.

Definition time_Second : Z := 1000000000.

(** [os.O_WRONLY] and [os.O_APPEND] (Linux). *)
Definition O_WRONLY : Z := 1.
Definition O_APPEND : Z := 1024.

Section Steps.

Context {W : Type} {os : OS W}.

(** [cmd.Run()] of a command with standard output and error attached and
    a working directory: the form [CloneDepsStep.Run] uses. *)
Definition run_in (name : string) (args : list string) (dir : string) : W -> option error * W :=
  Cmd_Run (with_Stdio (with_Dir (exec_Command name args) dir)).

(** [expandPath] and [DefaultHiveMCPDir] of the package, on this
    operating system. *)
Definition setup_expandPath : string -> W -> string := expandPath os_UserHomeDir.

Definition setup_DefaultHiveMCPDir : W -> string :=
  DefaultHiveMCPDir os_UserHomeDir filepath_Join.

(** *** [CloneStep] *)

Record CloneStep : Type := mkCloneStep { CloneStep_HiveMCPDir : string }.

Definition CloneStep_Name (s : CloneStep) : string := "Clone hive-mcp repository".

Definition CloneStep_targetDir (s : CloneStep) (w : W) : string :=
  if negb (String.eqb (CloneStep_HiveMCPDir s) "")
  then setup_expandPath (CloneStep_HiveMCPDir s) w
  else setup_DefaultHiveMCPDir w.

Definition CloneStep_Check (s : CloneStep) (w : W) : (bool * option error) * W :=
  let dir := CloneStep_targetDir s w in
  let gitDir := filepath_Join dir ".git" in
  match os_Stat gitDir w with
  | None => ((true, None), w)
  | Some _ => ((false, None), w)
  end.

Definition CloneStep_Run (s : CloneStep) (w : W) : option error * W :=
  let dir := CloneStep_targetDir s w in
  let parent := filepath_Dir dir in
  match os_MkdirAll parent 493 w with
  | (Some err, w1) => (Some (Errorf_w "failed to create parent directory: " err), w1)
  | (None, w1) =>
      let cmd := with_Stdio (exec_Command "git"
                   ["clone"; "--recursive"; "https://github.com/BuddhiLW/hive-mcp.git"; dir]) in
      match Cmd_Run cmd w1 with
      | (Some err, w2) => (Some (Errorf_w "git clone failed: " err), w2)
      | (None, w2) => (None, w2)
      end
  end.

Definition CloneStep_Rollback (s : CloneStep) (w : W) : option error * W :=
  let dir := CloneStep_targetDir s w in
  match os_Stat dir w with
  | None => os_RemoveAll dir w
  | Some _ => (None, w)
  end.

Definition CloneStep_as_Step (s : CloneStep) : Step W :=
  {| Name := CloneStep_Name s;
     Check := CloneStep_Check s;
     Run := CloneStep_Run s;
     Rollback := CloneStep_Rollback s |}.

(** [*CloneDepsStep] on this operating system. *)
Definition CloneDeps_as_Step (s : CloneDepsStep) : Step W :=
  CloneDepsStep_as_Step os_UserHomeDir filepath_Join run_in s.

(** *** [ShellStep] *)

Record ShellStep : Type := mkShellStep { ShellStep_HiveMCPDir : string }.

Definition ShellStep_Name (s : ShellStep) : string := "Configure shell environment".

Definition ShellStep_hiveMCPDir (s : ShellStep) (w : W) : string :=
  if negb (String.eqb (ShellStep_HiveMCPDir s) "")
  then setup_expandPath (ShellStep_HiveMCPDir s) w
  else setup_DefaultHiveMCPDir w.

(** The map literal of [envVars], as the list of its entries. *)
Definition ShellStep_envVars (s : ShellStep) (w : W) : list (string * string) :=
  let hiveMCP := ShellStep_hiveMCPDir s w in
  [("HIVE_MCP_DIR", hiveMCP); ("BB_MCP_DIR", hiveMCP)].

(** [for key, value := range vars]: the entries in the order the runtime
    picks. *)
Definition map_range (vars : list (string * string)) (w : W) : list (string * string) :=
  if map_range_swapped w then rev vars else vars.

Definition shellConfigFiles (w : W) : list string :=
  let home := (os_UserHomeDir w).1 in
  let candidates := [filepath_Join home ".bashrc"; filepath_Join home ".zshrc"] in
  filter (fun f => os_Stat f w = None) candidates.

Definition shellMarker : string := "# hive-mcp-cli managed".

(** The loop of [ShellStep.Check] over the files. *)
Fixpoint anyMarked (files : list string) (w : W) : bool :=
  match files with
  | [] => false
  | f :: rest =>
      match os_ReadFile f w with
      | (_, Some _) => anyMarked rest w
      | (content, None) =>
          if strings_Contains content shellMarker then true else anyMarked rest w
      end
  end.

Definition ShellStep_Check (s : ShellStep) (w : W) : (bool * option error) * W :=
  let files := shellConfigFiles w in
  if Nat.eqb (length files) 0 then ((false, None), w)
  else ((anyMarked files w, None), w).

(** The block [ShellStep.Run] appends, for the entries in range order. *)
Definition exportLine (kv : string * string) : string :=
  "export " +:+ kv.1 +:+ "=" +:+ QUOTE +:+ kv.2 +:+ QUOTE.

Definition shellBlock (ranged : list (string * string)) : string :=
  strings_Join
    (["" ; shellMarker +:+ " - START"] ++ map exportLine ranged
       ++ [shellMarker +:+ " - END"; ""])
    LF.

(** The loop of [ShellStep.Run] over the files; [opened] are the files
    whose [Close] is deferred, the last opened first. *)
Fixpoint appendBlock (block : string) (files : list string) (opened : list Z) (w : W)
  : option error * list Z * W :=
  match files with
  | [] => (None, opened, w)
  | f :: rest =>
      match os_OpenFile f (Z.lor O_APPEND O_WRONLY) 420 w with
      | (inr err, w1) =>
          (Some (Errorf_w ("failed to open " +:+ f +:+ ": ") err), opened, w1)
      | (inl file, w1) =>
          match File_WriteString file block w1 with
          | (Some err, w2) =>
              (Some (Errorf_w ("failed to write to " +:+ f +:+ ": ") err), file :: opened, w2)
          | (None, w2) => appendBlock block rest (file :: opened) w2
          end
      end
  end.

(** The deferred calls, run when the function returns. *)
Definition run_deferred (opened : list Z) (w : W) : W :=
  fold_left (fun w0 file => File_Close file w0) opened w.

Definition ShellStep_Run (s : ShellStep) (w : W) : option error * W :=
  let files := shellConfigFiles w in
  if Nat.eqb (length files) 0
  then (Some (errorString "no shell config found (.bashrc or .zshrc)"), w)
  else
    let vars := ShellStep_envVars s w in
    let block := shellBlock (map_range vars w) in
    let '(err, opened, w1) := appendBlock block files [] w in
    (err, run_deferred opened w1).

(** The scanning loop of [removeMarkedSection]: [lines] collected so far
    and the flag [inSection], over the lines the scanner delivers. *)
Fixpoint keepOutside (inSection : bool) (lines scanned : list string) : list string :=
  match scanned with
  | [] => lines
  | line :: rest =>
      if strings_Contains line (shellMarker +:+ " - START") then keepOutside true lines rest
      else if strings_Contains line (shellMarker +:+ " - END") then keepOutside false lines rest
      else if negb inSection then keepOutside inSection (lines ++ [line]) rest
      else keepOutside inSection lines rest
  end.

(** [for len(lines) > 0 && lines[len(lines)-1] == "" { lines = lines[:len(lines)-1] }];
    the loop runs at most [len(lines)] times. *)
Fixpoint dropTrailingEmpty (fuel : nat) (lines : list string) : list string :=
  match fuel with
  | O => lines
  | S fuel' =>
      match last lines with
      | Some l => if String.eqb l "" then dropTrailingEmpty fuel' (removelast lines) else lines
      | None => lines
      end
  end.

(** What [removeMarkedSection] writes back for the scanned lines. *)
Definition cleanedLines (scanned : list string) : list string :=
  let lines := keepOutside false [] scanned in
  dropTrailingEmpty (length lines) lines.

Definition removeMarkedSection (path : string) (w : W) : option error * W :=
  match os_Open path w with
  | (inr err, w1) => (Some err, w1)
  | (inl file, w1) =>
      match Scanner_lines file w1 with
      | ((_, Some err), w2) => (Some err, File_Close file w2)
      | ((scanned, None), w2) =>
          let lines := cleanedLines scanned in
          let '(err, w3) := os_WriteFile path (strings_Join lines LF +:+ LF) 420 w2 in
          (err, File_Close file w3)
      end
  end.

(** The loop of [ShellStep.Rollback]. *)
Fixpoint removeSections (files : list string) (w : W) : option error * W :=
  match files with
  | [] => (None, w)
  | f :: rest =>
      match removeMarkedSection f w with
      | (Some err, w1) => (Some (Errorf_w ("failed to rollback " +:+ f +:+ ": ") err), w1)
      | (None, w1) => removeSections rest w1
      end
  end.

Definition ShellStep_Rollback (s : ShellStep) (w : W) : option error * W :=
  removeSections (shellConfigFiles w) w.

Definition ShellStep_as_Step (s : ShellStep) : Step W :=
  {| Name := ShellStep_Name s;
     Check := ShellStep_Check s;
     Run := ShellStep_Run s;
     Rollback := ShellStep_Rollback s |}.

(** *** [PrerequisitesStep] *)

Record PrerequisitesStep : Type := mkPrerequisitesStep { Platform : string }.

Definition PrerequisitesStep_Name (s : PrerequisitesStep) : string :=
  "Install system prerequisites".

(** The loop of [Check]: [false] at the first binary [exec.LookPath] does
    not find. *)
Fixpoint allOnPath (bins : list string) (w : W) : bool :=
  match bins with
  | [] => true
  | bin :: rest =>
      match exec_LookPath bin w with
      | Some _ => false
      | None => allOnPath rest w
      end
  end.

Definition PrerequisitesStep_Check (s : PrerequisitesStep) (w : W)
  : (bool * option error) * W :=
  let required := ["git"; "java"; "clojure"; "bb"; "docker"; "emacs"] in
  ((allOnPath required w, None), w).

(** The loop of [installDarwin]: the error of [cmd.Run()] is dropped. *)
Fixpoint brewInstall (packages : list string) (w : W) : W :=
  match packages with
  | [] => w
  | pkg :: rest =>
      let cmd := with_Stdio (exec_Command "brew" ["install"; pkg]) in
      brewInstall rest (Cmd_Run cmd w).2
  end.

Definition PrerequisitesStep_installDarwin (s : PrerequisitesStep) (w : W)
  : option error * W :=
  match exec_LookPath "brew" w with
  | Some _ =>
      (Some (errorString "Homebrew not found - please install from https://brew.sh"), w)
  | None =>
      let packages :=
        ["git"; "openjdk@17"; "clojure/tools/clojure"; "borkdude/brew/babashka";
         "docker"; "emacs-plus@29"] in
      (None, brewInstall packages w)
  end.

Definition clojureInstallScript : string :=
  LF +:+ "curl -L -O https://github.com/clojure/brew-install/releases/latest/download/linux-install.sh"
  +:+ LF +:+ "chmod +x linux-install.sh"
  +:+ LF +:+ "sudo ./linux-install.sh"
  +:+ LF +:+ "rm linux-install.sh" +:+ LF.

Definition PrerequisitesStep_installClojureLinux (s : PrerequisitesStep) (w : W)
  : option error * W :=
  match exec_LookPath "clojure" w with
  | None => (None, w)
  | Some _ => Cmd_Run (with_Stdio (exec_Command "bash" ["-c"; clojureInstallScript])) w
  end.

Definition babashkaInstallScript : string :=
  "curl -sLO https://raw.githubusercontent.com/babashka/babashka/master/install && chmod +x install && sudo ./install && rm install".

Definition PrerequisitesStep_installBabashkaLinux (s : PrerequisitesStep) (w : W)
  : option error * W :=
  match exec_LookPath "bb" w with
  | None => (None, w)
  | Some _ => Cmd_Run (with_Stdio (exec_Command "bash" ["-c"; babashkaInstallScript])) w
  end.

Definition PrerequisitesStep_installLinux (s : PrerequisitesStep) (w : W)
  : option error * W :=
  match exec_LookPath "apt" w with
  | Some _ => (Some (errorString "apt not found - this step requires Debian/Ubuntu"), w)
  | None =>
      let aptPkgs := ["git"; "openjdk-17-jdk"; "docker.io"; "emacs"] in
      let cmd := with_Stdio (exec_Command "sudo" (["apt"; "install"; "-y"] ++ aptPkgs)) in
      match Cmd_Run cmd w with
      | (Some err, w1) => (Some (Errorf_w "apt install failed: " err), w1)
      | (None, w1) =>
          match PrerequisitesStep_installClojureLinux s w1 with
          | (Some err, w2) => (Some err, w2)
          | (None, w2) =>
              match PrerequisitesStep_installBabashkaLinux s w2 with
              | (Some err, w3) => (Some err, w3)
              | (None, w3) => (None, w3)
              end
          end
      end
  end.

Definition PrerequisitesStep_Run (s : PrerequisitesStep) (w : W) : option error * W :=
  if String.eqb (Platform s) "darwin" then PrerequisitesStep_installDarwin s w
  else if String.eqb (Platform s) "linux" then PrerequisitesStep_installLinux s w
  else (Some (errorString ("unsupported platform: " +:+ Platform s)), w).

Definition PrerequisitesStep_Rollback (s : PrerequisitesStep) (w : W) : option error * W :=
  (None, w).

Definition PrerequisitesStep_as_Step (s : PrerequisitesStep) : Step W :=
  {| Name := PrerequisitesStep_Name s;
     Check := PrerequisitesStep_Check s;
     Run := PrerequisitesStep_Run s;
     Rollback := PrerequisitesStep_Rollback s |}.

(** *** [DoomSyncStep] *)

Definition DoomSyncStep_Name : string := "Sync Doom Emacs packages".

Definition DoomSyncStep_Check (w : W) : (bool * option error) * W := ((false, None), w).

(** The loop over [doomPaths]: the first path that exists, [""] when
    none does. *)
Fixpoint firstExisting (paths : list string) (w : W) : string :=
  match paths with
  | [] => ""
  | p :: rest =>
      match os_Stat p w with
      | None => p
      | Some _ => firstExisting rest w
      end
  end.

Definition DoomSyncStep_Run (w : W) : option error * W :=
  let home := (os_UserHomeDir w).1 in
  let doomPaths := [home +:+ "/.emacs.d/bin/doom"; home +:+ "/.config/emacs/bin/doom"] in
  let doomCmd := firstExisting doomPaths w in
  if String.eqb doomCmd ""
  then (Some (errorString "doom command not found - is Doom Emacs installed?"), w)
  else
    match Cmd_Run (with_Stdio (exec_Command doomCmd ["sync"])) w with
    | (Some err, w1) => (Some (Errorf_w "doom sync failed: " err), w1)
    | (None, w1) => (None, w1)
    end.

Definition DoomSyncStep_Rollback (w : W) : option error * W := (None, w).

Definition DoomSyncStep_as_Step : Step W :=
  {| Name := DoomSyncStep_Name;
     Check := DoomSyncStep_Check;
     Run := DoomSyncStep_Run;
     Rollback := DoomSyncStep_Rollback |}.

(** *** [ChromaStep] *)

Record ChromaStep : Type := mkChromaStep { ChromaStep_HiveMCPDir : string }.

Definition ChromaStep_Name (s : ChromaStep) : string := "Start Docker services (Chroma)".

Definition ChromaStep_hiveMCPDir (s : ChromaStep) (w : W) : string :=
  if negb (String.eqb (ChromaStep_HiveMCPDir s) "")
  then setup_expandPath (ChromaStep_HiveMCPDir s) w
  else setup_DefaultHiveMCPDir w.

Definition chromaHeartbeat : string := "http://localhost:8000/api/v2/heartbeat".

Definition ChromaStep_Check (s : ChromaStep) (w : W) : (bool * option error) * W :=
  match http_Get (2 * time_Second) chromaHeartbeat w with
  | (inl status, w1) => ((Z.eqb status 200, None), w1)
  | (inr _, w1) => ((false, None), w1)
  end.

(** [for i := 0; i < 15; i++ { ... }]: [n] is the number of passes left. *)
Fixpoint awaitChroma (n : nat) (w : W) : option error * W :=
  match n with
  | O => (Some (errorString "Chroma failed to start within 30 seconds"), w)
  | S n' =>
      match http_Get (2 * time_Second) chromaHeartbeat w with
      | (inl status, w1) =>
          if Z.eqb status 200 then (None, w1)
          else awaitChroma n' (time_Sleep (2 * time_Second) w1)
      | (inr _, w1) => awaitChroma n' (time_Sleep (2 * time_Second) w1)
      end
  end.

Definition ChromaStep_Run (s : ChromaStep) (w : W) : option error * W :=
  match Cmd_Run (exec_Command "docker" ["info"]) w with
  | (Some err, w1) => (Some (Errorf_w "docker is not running: " err), w1)
  | (None, w1) =>
      let dir := ChromaStep_hiveMCPDir s w1 in
      let cmd := with_Stdio (with_Dir (exec_Command "docker" ["compose"; "up"; "-d"; "chroma"]) dir) in
      match Cmd_Run cmd w1 with
      | (Some err, w2) => (Some (Errorf_w "failed to start Chroma: " err), w2)
      | (None, w2) => awaitChroma 15 w2
      end
  end.

Definition ChromaStep_Rollback (s : ChromaStep) (w : W) : option error * W :=
  let dir := ChromaStep_hiveMCPDir s w in
  Cmd_Run (with_Dir (exec_Command "docker" ["compose"; "down"]) dir) w.

Definition ChromaStep_as_Step (s : ChromaStep) : Step W :=
  {| Name := ChromaStep_Name s;
     Check := ChromaStep_Check s;
     Run := ChromaStep_Run s;
     Rollback := ChromaStep_Rollback s |}.

(** *** [OllamaStep] *)

Definition OllamaStep_Name : string := "Setup Ollama with nomic-embed-text model".

Definition OllamaStep_Check (w : W) : (bool * option error) * W :=
  match http_Get (2 * time_Second) "http://localhost:11434/api/tags" w with
  | (inr _, w1) => ((false, None), w1)
  | (inl status, w1) => ((Z.eqb status 200, None), w1)
  end.

Definition OllamaStep_Run (w : W) : option error * W :=
  match exec_LookPath "ollama" w with
  | Some _ =>
      (Some (errorString "ollama not installed - please install from https://ollama.ai"), w)
  | None =>
      match Cmd_Run (with_Stdio (exec_Command "ollama" ["pull"; "nomic-embed-text"])) w with
      | (Some err, w1) => (Some (Errorf_w "failed to pull nomic-embed-text: " err), w1)
      | (None, w1) => (None, w1)
      end
  end.

Definition OllamaStep_Rollback (w : W) : option error * W := (None, w).

Definition OllamaStep_as_Step : Step W :=
  {| Name := OllamaStep_Name;
     Check := OllamaStep_Check;
     Run := OllamaStep_Run;
     Rollback := OllamaStep_Rollback |}.

(** *** [EmacsDaemonStep] *)

Definition EmacsDaemonStep_Name : string := "Start Emacs daemon".

Definition EmacsDaemonStep_Check (w : W) : (bool * option error) * W :=
  match Cmd_Run (exec_Command "emacsclient" ["-e"; "(emacs-pid)"]) w with
  | (None, w1) => ((true, None), w1)
  | (Some _, w1) => ((false, None), w1)
  end.

Definition EmacsDaemonStep_Run (w : W) : option error * W :=
  match Cmd_Run (with_Stdio (exec_Command "emacs" ["--daemon"])) w with
  | (Some err, w1) => (Some (Errorf_w "failed to start Emacs daemon: " err), w1)
  | (None, w1) =>
      let w2 := time_Sleep (2 * time_Second) w1 in
      let '((done, _), w3) := EmacsDaemonStep_Check w2 in
      if negb done
      then (Some (errorString "Emacs daemon started but not responding"), w3)
      else (None, w3)
  end.

Definition EmacsDaemonStep_Rollback (w : W) : option error * W :=
  (None, (Cmd_Run (exec_Command "emacsclient" ["-e"; "(kill-emacs)"]) w).2).

Definition EmacsDaemonStep_as_Step : Step W :=
  {| Name := EmacsDaemonStep_Name;
     Check := EmacsDaemonStep_Check;
     Run := EmacsDaemonStep_Run;
     Rollback := EmacsDaemonStep_Rollback |}.

(** *** [MCPStep] *)

Record MCPStep : Type := mkMCPStep { MCPStep_HiveMCPDir : string }.

Definition MCPStep_Name (s : MCPStep) : string := "Register MCP server with Claude CLI".

Definition MCPStep_hiveMCPDir (s : MCPStep) (w : W) : string :=
  if negb (String.eqb (MCPStep_HiveMCPDir s) "")
  then setup_expandPath (MCPStep_HiveMCPDir s) w
  else setup_DefaultHiveMCPDir w.

Definition MCPStep_Check (s : MCPStep) (w : W) : (bool * option error) * W :=
  match Cmd_Output (exec_Command "claude" ["mcp"; "list"]) w with
  | ((_, Some _), w1) => ((false, None), w1)
  | ((output, None), w1) => ((strings_Contains output "emacs", None), w1)
  end.

Definition MCPStep_Run (s : MCPStep) (w : W) : option error * W :=
  match exec_LookPath "claude" w with
  | Some _ =>
      (Some (errorString
         "claude CLI not found - please install from https://github.com/anthropics/claude-code"), w)
  | None =>
      let hiveMCP := MCPStep_hiveMCPDir s w in
      let cmd := with_Stdio (exec_Command "claude"
                   ["mcp"; "add"; "emacs"; "--"; "bb"; "--prn";
                    "-cp"; hiveMCP +:+ "/bb.edn"; "-m"; "bb.hive-mcp.server/-main"]) in
      match Cmd_Run cmd w with
      | (Some err, w1) => (Some (Errorf_w "failed to register MCP server: " err), w1)
      | (None, w1) => (None, w1)
      end
  end.

Definition MCPStep_Rollback (s : MCPStep) (w : W) : option error * W :=
  Cmd_Run (exec_Command "claude" ["mcp"; "remove"; "emacs"]) w.

Definition MCPStep_as_Step (s : MCPStep) : Step W :=
  {| Name := MCPStep_Name s;
     Check := MCPStep_Check s;
     Run := MCPStep_Run s;
     Rollback := MCPStep_Rollback s |}.

(** *** The [setup] command *)

(** The step list the command builds; [platform] is [runtime.GOOS]. *)
Definition setupSteps (platform : string) : list (Step W) :=
  [ CloneStep_as_Step {| CloneStep_HiveMCPDir := "" |};
    ShellStep_as_Step {| ShellStep_HiveMCPDir := "" |};
    PrerequisitesStep_as_Step {| Platform := platform |};
    CloneDeps_as_Step {| HiveMCPDir := "" |};
    DoomSyncStep_as_Step;
    ChromaStep_as_Step {| ChromaStep_HiveMCPDir := "" |};
    OllamaStep_as_Step;
    EmacsDaemonStep_as_Step;
    MCPStep_as_Step {| MCPStep_HiveMCPDir := "" |} ].



End Steps.

(** The two lines that delimit the managed section, and the lines that
    are neither. *)
Definition startMarker : string := shellMarker +:+ " - START".
Definition endMarker : string := shellMarker +:+ " - END".

Definition plain (line : string) : Prop :=
  strings_Contains line startMarker = false /\ strings_Contains line endMarker = false.

(** ** A machine to run the steps on

    A file system (paths with their content; a directory is a path with
    empty content), the files that were opened, the commands that were
    run, the console and the time slept.  What the machine cannot compute
    from its state is fixed by a configuration: the binaries on the path,
    the commands that fail, what commands print, the URLs that answer
    200, and the order of a range over the variables of [ShellStep]. *)
Module Machine.

Record World : Type := mkWorld {
  files : list (string * string);
  handles : list string;
  ran : list Cmd;
  console : list string;
  slept : Z
}.

Record Config : Type := mkConfig {
  on_path : list string;
  failing : Cmd -> bool;
  printed : Cmd -> string;
  answering : list string;
  swapped : bool
}.

Definition with_files (w : World) (fs : list (string * string)) : World :=
  {| files := fs; handles := handles w; ran := ran w; console := console w; slept := slept w |}.

Fixpoint lookup_file (p : string) (fs : list (string * string)) : option string :=
  match fs with
  | [] => None
  | (q, c) :: rest => if String.eqb p q then Some c else lookup_file p rest
  end.

Fixpoint store_file (p c : string) (fs : list (string * string)) : list (string * string) :=
  match fs with
  | [] => [(p, c)]
  | (q, d) :: rest =>
      if String.eqb p q then (p, c) :: rest else (q, d) :: store_file p c rest
  end.

(** The path itself and everything below it. *)
Definition remove_tree (p : string) (fs : list (string * string)) : list (string * string) :=
  filter (fun kv => negb (String.eqb kv.1 p || String.prefix (p +:+ "/") kv.1) = true) fs.

Definition enoent : error := errorString "no such file or directory".

(** The [*fs.PathError] of a failed [op] on [p]. *)
Definition path_error (op p : string) : error :=
  wrapError (op +:+ " " +:+ p +:+ ": " +:+ errmsg enoent) enoent.

(** A carriage return at the end of a line is not part of the line. *)
Fixpoint drop_cr (s : string) : string :=
  match s with
  | EmptyString => EmptyString
  | String c rest =>
      match rest with
      | EmptyString => if Ascii.eqb c (Ascii.ascii_of_nat 13) then EmptyString else s
      | _ => String c (drop_cr rest)
      end
  end.

(** The lines a scanner delivers: the text between line feeds, and what
    follows the last one unless nothing does. *)
Fixpoint split_lines (s cur : string) : list string :=
  match s with
  | EmptyString => if String.eqb cur "" then [] else [drop_cr cur]
  | String c rest =>
      if Ascii.eqb c (Ascii.ascii_of_nat 10) then drop_cr cur :: split_lines rest ""
      else split_lines rest (cur +:+ String c "")
  end.

(** [filepath.Join] of two elements, for elements that are clean: an
    empty element is dropped. *)
Definition join (a b : string) : string :=
  if String.eqb a "" then b
  else if String.eqb b "" then a
  else a +:+ "/" +:+ b.

(** What precedes the last slash. *)
Fixpoint before_last_slash (s : string) : option string :=
  match s with
  | EmptyString => None
  | String c rest =>
      match before_last_slash rest with
      | Some d => Some (String c d)
      | None => if Ascii.eqb c "/"%char then Some "" else None
      end
  end.

Definition dir_of (p : string) : string :=
  match before_last_slash p with
  | Some EmptyString => "/"
  | Some d => d
  | None => "."
  end.

Definition open (p : string) (w : World) : (Z + error) * World :=
  match lookup_file p (files w) with
  | None => (inr (path_error "open" p), w)
  | Some _ =>
      (inl (Z.of_nat (length (handles w))),
       {| files := files w; handles := handles w ++ [p]; ran := ran w;
          console := console w; slept := slept w |})
  end.

Definition append_to (file : Z) (text : string) (w : World) : option error * World :=
  match handles w !! Z.to_nat file with
  | None => (Some (errorString "bad file descriptor"), w)
  | Some p =>
      match lookup_file p (files w) with
      | None => (Some enoent, w)
      | Some c => (None, with_files w (store_file p (c +:+ text) (files w)))
      end
  end.

Definition scan (file : Z) (w : World) : (list string * option error) * World :=
  match handles w !! Z.to_nat file with
  | None => (([], Some (errorString "bad file descriptor")), w)
  | Some p =>
      match lookup_file p (files w) with
      | None => (([], Some enoent), w)
      | Some c => ((split_lines c "", None), w)
      end
  end.

Definition run (cfg : Config) (cmd : Cmd) (w : World) : option error * World :=
  (if failing cfg cmd then Some (errorString "exit status 1") else None,
   {| files := files w; handles := handles w; ran := ran w ++ [cmd];
      console := console w; slept := slept w |}).

Definition os (cfg : Config) : OS World :=
  {| os_UserHomeDir := fun _ => ("/home/hive", None);
     os_Stat := fun p w =>
       match lookup_file p (files w) with
       | Some _ => None
       | None => Some (path_error "stat" p)
       end;
     os_MkdirAll := fun p _ w =>
       match lookup_file p (files w) with
       | Some _ => (None, w)
       | None => (None, with_files w (store_file p "" (files w)))
       end;
     os_RemoveAll := fun p w => (None, with_files w (remove_tree p (files w)));
     os_ReadFile := fun p w =>
       match lookup_file p (files w) with
       | Some c => (c, None)
       | None => ("", Some (path_error "open" p))
       end;
     os_WriteFile := fun p c _ w => (None, with_files w (store_file p c (files w)));
     os_Open := open;
     os_OpenFile := fun p _ _ w => open p w;
     File_WriteString := append_to;
     File_Close := fun _ w => w;
     Scanner_lines := scan;
     filepath_Join := join;
     filepath_Dir := dir_of;
     exec_LookPath := fun bin _ =>
       if bool_decide (bin ∈ on_path cfg) then None
       else Some (errorString "executable file not found in $PATH");
     Cmd_Run := run cfg;
     Cmd_Output := fun cmd w =>
       let '(err, w1) := run cfg cmd w in ((printed cfg cmd, err), w1);
     http_Get := fun _ url w =>
       if bool_decide (url ∈ answering cfg) then (inl 200%Z, w)
       else (inr (errorString "connection refused"), w);
     time_Sleep := fun d w =>
       {| files := files w; handles := handles w; ran := ran w;
          console := console w; slept := (slept w + d)%Z |};
     fmt_Print := fun line w =>
       {| files := files w; handles := handles w; ran := ran w;
          console := console w ++ [line]; slept := slept w |};
     map_range_swapped := fun _ => swapped cfg |}.

(** Two workstations where every command succeeds and nothing answers
    on the network: one with git and Homebrew, one with git only. *)
Definition mac : Config :=
  {| on_path := ["git"; "brew"];
     failing := fun _ => false;
     printed := fun _ => "";
     answering := [];
     swapped := false |}.

Definition bsd : Config :=
  {| on_path := ["git"];
     failing := fun _ => false;
     printed := fun _ => "";
     answering := [];
     swapped := true |}.

Definition mac_os : OS World := os mac.

Definition bsd_os : OS World := os bsd.

(** A home directory with a [.bashrc]. *)
Definition fresh : World :=
  {| files := [("/home/hive", ""); ("/home/hive/.bashrc", "export EDITOR=vi" +:+ LF)];
     handles := []; ran := []; console := []; slept := 0 |}.

(** The same, with the repository cloned. *)
Definition cloned : World :=
  {| files := [("/home/hive", ""); ("/home/hive/.bashrc", "export EDITOR=vi" +:+ LF);
               ("/home/hive/hive-mcp", ""); ("/home/hive/hive-mcp/.git", "");
               ("/home/hive/hive-mcp/bb.edn", "{}")];
     handles := []; ran := []; console := []; slept := 0 |}.

(** The step list of the command on the two, without observers. *)
Definition darwin_setup : Runner World := bare (@setupSteps World mac_os "darwin").

Definition freebsd_setup : Runner World := bare (@setupSteps World bsd_os "freebsd").

Definition shell : Step World := @ShellStep_as_Step World mac_os {| ShellStep_HiveMCPDir := "" |}.

Definition doom : Step World := @DoomSyncStep_as_Step World mac_os.

Definition clone : CloneStep := {| CloneStep_HiveMCPDir := "" |}.


(** A shell file with a managed section in its middle. *)
Definition bashrc : list string :=
  ["export EDITOR=vi"; ""; startMarker;
   exportLine ("HIVE_MCP_DIR", "/home/hive/hive-mcp");
   exportLine ("BB_MCP_DIR", "/home/hive/hive-mcp");
   endMarker; "alias l=ls"; ""].

End Machine.

(** * Properties *)

Section Properties.

Context {W : Type}.
Implicit Types (r : Runner W) (s : state W) (step : Step W) (w : W).
Implicit Types (steps rest : list (Step W)) (rs : list Result) (cs : list call).

(** ** Messages *)

Lemma append_assoc (a b c : string) : (a +:+ b) +:+ c = a +:+ (b +:+ c).
Proof.
  induction a as [| ch a IH]; [reflexivity |].
  change (String ch ((a +:+ b) +:+ c) = String ch (a +:+ (b +:+ c))).
  rewrite IH. reflexivity.
Qed.

Lemma Unwrap_Errorf_w prefix e : Unwrap (Errorf_w prefix e) = Some e.
Proof. reflexivity. Qed.

Lemma errmsg_step_failed name e :
  errmsg (step_failed name e) = "step " +:+ name +:+ " failed: " +:+ errmsg e.
Proof. unfold step_failed, Errorf_w, errmsg. rewrite !append_assoc. reflexivity. Qed.

Lemma errmsg_check_failed name e :
  errmsg (check_failed name e) = "check failed for " +:+ name +:+ ": " +:+ errmsg e.
Proof. unfold check_failed, Errorf_w, errmsg. rewrite !append_assoc. reflexivity. Qed.

Lemma errmsg_rollback_failed name e :
  errmsg (rollback_failed name e) = "rollback " +:+ name +:+ ": " +:+ errmsg e.
Proof. unfold rollback_failed, Errorf_w, errmsg. rewrite !append_assoc. reflexivity. Qed.

(** ** One pass of the loop *)

(** Unfolds the monadic plumbing down to the state transformers. *)
Ltac unfold_M :=
  unfold iteration, callCheck, callRun, callRollback, onStart, onDone,
    appendResult, on_world, log, invoke, bind, mbind, mret, M_bind, M_ret in *.

(** What a pass leaves unchanged in the runner, and what it adds. *)
Lemma iteration_pass i step s c s' :
  iteration i step s = (c, s') ->
  exists res cs,
    pass i step res cs c
    /\ Steps (self s') = Steps (self s)
    /\ OnStart (self s') = OnStart (self s)
    /\ OnDone (self s') = OnDone (self s)
    /\ Results (self s') = Results (self s) ++ [res]
    /\ calls s' = calls s ++ cs.
Proof.
  unfold_M. intros H.
  destruct (OnStart (self s)) as [f |] eqn:Hos; simpl in H.
  all: match type of H with context [Check ?st ?w0] =>
         destruct (Check st w0) as [[done [e |]] w1] eqn:Hc end; simpl in H.
  all: try (destruct done; simpl in H).
  all: try (match type of H with context [Run ?st ?w0] =>
         destruct (Run st w0) as [[e |] w2] eqn:Hr end; simpl in H).
  all: destruct (OnDone (self s)) as [g |] eqn:Hod; simpl in H.
  all: inversion H; subst; clear H; simpl; rewrite ?Hos, ?Hod.
  all: eexists _, _; (split; [| rewrite <- ?app_assoc; simpl; auto 10]).
  all: first
    [ eapply pass_check_failed; rewrite Hc; reflexivity
    | eapply pass_skipped; rewrite Hc; reflexivity
    | eapply pass_succeeded; [rewrite Hc | rewrite Hr]; reflexivity
    | eapply pass_run_failed; [rewrite Hc | rewrite Hr]; reflexivity ].
Qed.

(** ** The loop *)

Lemma range_loop_passes steps : forall i s err s',
  range_loop i steps s = (err, s') ->
  exists rs cs,
    passes i steps rs cs err
    /\ Steps (self s') = Steps (self s)
    /\ OnStart (self s') = OnStart (self s)
    /\ OnDone (self s') = OnDone (self s)
    /\ Results (self s') = Results (self s) ++ rs
    /\ calls s' = calls s ++ cs.
Proof.
  induction steps as [| step rest IH]; intros i s err s' H; simpl in H.
  - inversion H; subst. exists [], []. rewrite !app_nil_r.
    repeat split; constructor.
  - unfold bind, mbind, M_bind in H.
    destruct (iteration i step s) as [c s1] eqn:Hit.
    apply iteration_pass in Hit as (res & cs & Hp & HS & Hs & Hd & HR & Hc).
    destruct c as [| e].
    + apply IH in H as (rs & cs' & Hps & HS' & Hs' & Hd' & HR' & Hc').
      exists (res :: rs), (cs ++ cs'). split; [econstructor; eauto |].
      rewrite HS', Hs', Hd', HR', Hc', HS, Hs, Hd, HR, Hc, <- !app_assoc. auto.
    + inversion H; subst. exists [res], cs. split; [constructor; auto |]. auto.
Qed.

Lemma RunAll_passes s err s' :
  RunAll s = (err, s') ->
  exists rs cs,
    passes 0 (Steps (self s)) rs cs err
    /\ Steps (self s') = Steps (self s)
    /\ Results (self s') = Results (self s) ++ rs
    /\ calls s' = calls s ++ cs.
Proof.
  intros H. apply range_loop_passes in H as (rs & cs & ? & ? & ? & ? & ? & ?).
  eauto 10.
Qed.

(** ** The log is a true record *)

(** One pass: its calls were made as [performed] says, whatever the run
    does afterwards. *)
Lemma iteration_performed r i step s c s' :
  iteration i step s = (c, s') ->
  Steps r !! i = Some step ->
  OnStart (self s) = OnStart r ->
  OnDone (self s) = OnDone r ->
  exists cs0,
    calls s' = calls s ++ cs0
    /\ forall cs w', performed r (world s') cs w' -> performed r (world s) (cs0 ++ cs) w'.
Proof.
  intros H Hst Hos Hod.
  assert (world (onStart step s).2 = after_OnStart r step (world s)) as Hstart.
  { unfold onStart, after_OnStart, on_world. rewrite <- Hos.
    destruct (OnStart (self s)); reflexivity. }
  assert (forall skipped err t,
            OnDone (self t) = OnDone r ->
            world (onDone step skipped err t).2 = after_OnDone r step skipped err (world t))
    as Hdone.
  { intros skipped err t Ht. unfold onDone, after_OnDone, on_world. rewrite <- Ht.
    destruct (OnDone (self t)); reflexivity. }
  unfold iteration, bind, mbind, M_bind in H.
  destruct (onStart step s) as [[] s0] eqn:H0. simpl in Hstart.
  assert (OnDone (self s0) = OnDone r /\ calls s0 = calls s) as [Hod0 Hc0].
  { unfold onStart, on_world in H0. destruct (OnStart (self s)); inversion H0; subst; auto. }
  unfold callCheck, invoke, log, bind, mbind, mret, M_bind, M_ret in H.
  rewrite Hstart in H.
  destruct (Check step (after_OnStart r step (world s))) as [[done [e |]] w1] eqn:Hck;
    simpl in H.
  - unfold appendResult in H. simpl in H.
    match type of H with context [onDone step false (Some e) ?t] =>
      pose proof (Hdone false (Some e) t Hod0) as Hw;
      destruct (onDone step false (Some e) t) as [[] s2] eqn:H2;
      assert (calls s2 = calls t) as Hc2
        by (unfold onDone, on_world in H2; destruct (OnDone (self t)); inversion H2; subst; auto)
    end.
    simpl in H, Hw, Hc2. inversion H; subst. exists [CheckCall i done (Some e)].
    split; [rewrite Hc2, Hc0; reflexivity |].
    intros cs w' Hp. simpl. rewrite Hw in Hp. eapply performed_check_failed; eauto.
  - destruct done; simpl in H.
    + unfold appendResult in H. simpl in H.
      match type of H with context [onDone step true None ?t] =>
        pose proof (Hdone true None t Hod0) as Hw;
        destruct (onDone step true None t) as [[] s2] eqn:H2;
        assert (calls s2 = calls t) as Hc2
          by (unfold onDone, on_world in H2; destruct (OnDone (self t)); inversion H2; subst; auto)
      end.
      simpl in H, Hw, Hc2. inversion H; subst. exists [CheckCall i true None].
      split; [rewrite Hc2, Hc0; reflexivity |].
      intros cs w' Hp. simpl. rewrite Hw in Hp. eapply performed_skip; eauto.
    + unfold callRun, invoke, log, appendResult, bind, mbind, mret, M_bind, M_ret in H.
      simpl in H.
      destruct (Run step w1) as [err w2] eqn:Hr. simpl in H.
      match type of H with context [onDone step false err ?t] =>
        pose proof (Hdone false err t Hod0) as Hw;
        destruct (onDone step false err t) as [[] s2] eqn:H2;
        assert (calls s2 = calls t) as Hc2
          by (unfold onDone, on_world in H2; destruct (OnDone (self t)); inversion H2; subst; auto)
      end.
      simpl in H, Hw, Hc2.
      assert (s' = s2) as -> by (destruct err; inversion H; reflexivity).
      exists [CheckCall i false None; RunCall i err].
      split; [rewrite Hc2, Hc0, <- app_assoc; reflexivity |].
      intros cs w' Hp. simpl. rewrite Hw in Hp.
      replace err with (Run step w1).1 by (rewrite Hr; reflexivity).
      eapply performed_run; eauto. rewrite Hr. exact Hp.
Qed.

Lemma range_loop_performed r steps : forall i s err s',
  range_loop i steps s = (err, s') ->
  (forall j step, steps !! j = Some step -> Steps r !! (i + j) = Some step) ->
  OnStart (self s) = OnStart r ->
  OnDone (self s) = OnDone r ->
  exists cs, calls s' = calls s ++ cs /\ performed r (world s) cs (world s').
Proof.
  induction steps as [| step rest IH]; intros i s err s' H Hsteps Hos Hod; simpl in H.
  - inversion H; subst. exists []. rewrite app_nil_r. split; [reflexivity | constructor].
  - unfold bind, mbind, M_bind in H.
    destruct (iteration i step s) as [c s1] eqn:Hit.
    assert (Steps r !! i = Some step) as Hst.
    { rewrite <- (Nat.add_0_r i). apply Hsteps. reflexivity. }
    destruct (iteration_performed r i step s c s1 Hit Hst Hos Hod) as (cs0 & Hc0 & Hp0).
    apply iteration_pass in Hit as (_ & _ & _ & _ & Hos1 & Hod1 & _ & _).
    destruct c as [| e].
    + apply IH in H as (cs & Hc & Hp); [| | congruence | congruence].
      * exists (cs0 ++ cs). split; [rewrite Hc, Hc0, app_assoc; reflexivity | auto].
      * intros j st Hj. replace (S i + j) with (i + S j) by lia. apply Hsteps. exact Hj.
    + inversion H; subst. exists cs0. split; [assumption |].
      rewrite <- (app_nil_r cs0). apply Hp0. constructor.
Qed.

(** The log of a run of [RunAll] is a true record of it. *)
Lemma RunAll_performed r w :
  performed r w (calls (RunAll (init r w)).2) (world (RunAll (init r w)).2).
Proof.
  destruct (RunAll (init r w)) as [err s'] eqn:Hrun. unfold RunAll in Hrun.
  apply (range_loop_performed r) in Hrun as (cs & Hc & Hp); try reflexivity.
  - simpl in *. subst cs. exact Hp.
  - intros j step Hj. exact Hj.
Qed.

(** The pass over a step whose probe always answers "not done" and
    leaves the world alone: where it stands in a true record. *)
Lemma performed_never_done r w cs w' k step done e :
  performed r w cs w' ->
  Steps r !! k = Some step ->
  (forall w0, Check step w0 = ((false, None), w0)) ->
  CheckCall k done e ∈ cs ->
  done = false /\ e = None
  /\ exists before after wk,
       cs = before ++ CheckCall k false None
                   :: RunCall k (Run step (after_OnStart r step wk)).1 :: after
       /\ performed r w before wk
       /\ performed r
            (after_OnDone r step false (Run step (after_OnStart r step wk)).1
               (Run step (after_OnStart r step wk)).2)
            after w'.
Proof.
  intros Hp Hk Hnever.
  induction Hp as [w | w i st d e0 w1 cs w' Hst Hck Hp IH | w i st w1 cs w' Hst Hck Hp IH
                  | w i st w1 cs w' Hst Hck Hp IH]; intros Hin.
  - inversion Hin.
  - apply elem_of_cons in Hin as [Heq | Hin].
    + inversion Heq; subst. rewrite Hk in Hst. inversion Hst; subst st.
      rewrite Hnever in Hck. discriminate.
    + destruct (IH Hin) as (-> & -> & before & after & wk & -> & Hb & Ha).
      split; [reflexivity |]. split; [reflexivity |].
      exists (CheckCall i d (Some e0) :: before), after, wk.
      split; [reflexivity |]. split; [| exact Ha]. eapply performed_check_failed; eauto.
  - apply elem_of_cons in Hin as [Heq | Hin].
    + inversion Heq; subst. rewrite Hk in Hst. inversion Hst; subst st.
      rewrite Hnever in Hck. discriminate.
    + destruct (IH Hin) as (-> & -> & before & after & wk & -> & Hb & Ha).
      split; [reflexivity |]. split; [reflexivity |].
      exists (CheckCall i true None :: before), after, wk.
      split; [reflexivity |]. split; [| exact Ha]. eapply performed_skip; eauto.
  - apply elem_of_cons in Hin as [Heq | Hin].
    + inversion Heq; subst. rewrite Hk in Hst. inversion Hst; subst st.
      rewrite Hnever in Hck. inversion Hck; subst w1.
      split; [reflexivity |]. split; [reflexivity |].
      exists [], cs, w. split; [reflexivity |]. split; [constructor | exact Hp].
    + apply elem_of_cons in Hin as [Heq | Hin]; [discriminate Heq |].
      destruct (IH Hin) as (-> & -> & before & after & wk & -> & Hb & Ha).
      split; [reflexivity |]. split; [reflexivity |].
      exists (CheckCall i false None :: RunCall i (Run st w1).1 :: before), after, wk.
      split; [reflexivity |]. split; [| exact Ha]. eapply performed_run; eauto.
Qed.

(** ** Runs, as shapes *)

Lemma pass_calls_index i step res cs c x :
  pass i step res cs c -> x ∈ cs -> call_index x = i.
Proof.
  destruct 1; intros Hx; repeat (apply elem_of_cons in Hx as [-> | Hx]; [reflexivity |]);
    inversion Hx.
Qed.

Lemma pass_name i step res cs c : pass i step res cs c -> StepName res = Name step.
Proof. destruct 1; reflexivity. Qed.

Lemma pass_continue_no_error i step res cs :
  pass i step res cs Continue ->
  Error res = None /\ forall x, x ∈ cs -> call_error x = None.
Proof.
  inversion 1; subst; (split; [reflexivity |]); intros x Hx;
    repeat (apply elem_of_cons in Hx as [-> | Hx]; [reflexivity |]); inversion Hx.
Qed.

Lemma pass_return_error i step res cs err :
  pass i step res cs (Return err) ->
  exists e, Error res = Some e
    /\ (err = Some (check_failed (Name step) e) \/ err = Some (step_failed (Name step) e)).
Proof. inversion 1; subst; eauto. Qed.

Lemma passes_length i steps rs cs err :
  passes i steps rs cs err -> length rs <= length steps.
Proof. induction 1; simpl; lia. Qed.

Lemma passes_calls_index i steps rs cs err x :
  passes i steps rs cs err -> x ∈ cs -> i <= call_index x < i + length rs.
Proof.
  induction 1 as [| i step rest res cs err Hp | i step rest res cs rs cs' err Hp Hps IH];
    intros Hx; simpl.
  - inversion Hx.
  - rewrite (pass_calls_index _ _ _ _ _ _ Hp Hx). lia.
  - apply elem_of_app in Hx as [Hx | Hx].
    + rewrite (pass_calls_index _ _ _ _ _ _ Hp Hx). lia.
    + apply IH in Hx. lia.
Qed.

(** The pass that produced the result at position [j] of a run: it is
    the pass over the step at position [j], all calls of the run on that
    position are its calls, and it is the last pass of the run exactly
    when it ends in a return. *)
Lemma passes_at i steps rs cs err : passes i steps rs cs err ->
  forall j res, rs !! j = Some res ->
  exists step cs0 c,
    steps !! j = Some step
    /\ pass (i + j) step res cs0 c
    /\ (forall x, x ∈ cs -> call_index x = i + j -> x ∈ cs0)
    /\ (forall x, x ∈ cs0 -> x ∈ cs)
    /\ match c with
       | Return e => e = err /\ S j = length rs
       | Continue => S j < length rs \/ (S j = length rs /\ err = None /\ length rs = length steps)
       end.
Proof.
  induction 1 as [| i step rest res0 cs err Hp | i step rest res0 cs rs cs' err Hp Hps IH];
    intros j res Hj.
  - inversion Hj.
  - destruct j as [| j]; [| inversion Hj]. inversion Hj; subst.
    exists step, cs, (Return err). rewrite Nat.add_0_r. auto 10.
  - destruct j as [| j]; simpl in Hj.
    + inversion Hj; subst. exists step, cs, Continue. rewrite Nat.add_0_r.
      split; [reflexivity |]. split; [assumption |]. split; [| split].
      * intros x Hx Hi. apply elem_of_app in Hx as [Hx | Hx]; [assumption |].
        apply (passes_calls_index _ _ _ _ _ _ Hps) in Hx. lia.
      * intros x Hx. apply elem_of_app. auto.
      * inversion Hps; subst; simpl; [right | left | left]; auto; lia.
    + destruct (IH _ _ Hj) as (st & cs0 & c & Hst & Hpass & Hin & Hsub & Hc).
      exists st, cs0, c. rewrite <- Nat.add_succ_comm.
      split; [assumption |]. split; [assumption |]. split; [| split].
      * intros x Hx Hi. apply elem_of_app in Hx as [Hx | Hx]; [| auto].
        rewrite (pass_calls_index _ _ _ _ _ _ Hp Hx) in Hi. lia.
      * intros x Hx. apply elem_of_app. auto.
      * destruct c; simpl; [| intuition lia].
        destruct Hc as [Hc | (Hc & ? & ?)]; [left; lia | right; intuition lia].
Qed.

(** Every call of a run belongs to the pass of some result. *)
Lemma passes_call_result i steps rs cs err x :
  passes i steps rs cs err -> x ∈ cs ->
  exists j res, call_index x = i + j /\ rs !! j = Some res.
Proof.
  intros Hps Hx. pose proof (passes_calls_index _ _ _ _ _ _ Hps Hx) as Hb.
  destruct (lookup_lt_is_Some_2 rs (call_index x - i)) as [res Hres]; [lia |].
  exists (call_index x - i), res. split; [lia | assumption].
Qed.

(** A run that returns no error took every step, and nothing failed. *)
Lemma passes_ok i steps rs cs :
  passes i steps rs cs None ->
  length rs = length steps
  /\ (forall res, res ∈ rs -> Error res = None)
  /\ (forall x, x ∈ cs -> call_error x = None).
Proof.
  remember None as err eqn:Herr. 
  induction 1 as [| i step rest res0 cs err Hp | i step rest res0 cs rs cs' err Hp Hps IH];
    subst.
  - repeat split; intros ? Hin; inversion Hin.
  - apply pass_return_error in Hp as (e & _ & [? | ?]); discriminate.
  - destruct (IH eq_refl) as (Hlen & Hrs & Hcs).
    apply pass_continue_no_error in Hp as [Hres Hcalls].
    split; [simpl; lia |]. split.
    + intros res Hin. apply elem_of_cons in Hin as [-> | Hin]; auto.
    + intros x Hin. apply elem_of_app in Hin as [Hin | Hin]; auto.
Qed.

(** A run that returns an error stopped at its last result, which
    carries the cause. *)
Lemma passes_failed i steps rs cs err :
  passes i steps rs cs (Some err) ->
  exists j res, rs !! j = Some res /\ S j = length rs /\ Error res <> None.
Proof.
  remember (Some err) as ret eqn:Hret.
  induction 1 as [| i step rest res0 cs ret Hp | i step rest res0 cs rs cs' ret Hp Hps IH];
    subst.
  - discriminate.
  - exists 0, res0. apply pass_return_error in Hp as (e & He & _).
    rewrite He. repeat split; discriminate.
  - destruct (IH eq_refl) as (j & res & Hj & Hlen & He).
    exists (S j), res. simpl. auto.
Qed.

(** The results before the last one of a run carry no error. *)
Lemma passes_before_last i steps rs cs err j res :
  passes i steps rs cs err -> rs !! j = Some res -> S j < length rs ->
  Error res = None.
Proof.
  intros Hps Hj Hlt.
  destruct (passes_at _ _ _ _ _ Hps _ _ Hj) as (st & cs0 & c & _ & Hp & _ & _ & Hc).
  destruct c as [| e]; [| lia].
  apply pass_continue_no_error in Hp as [? _]. assumption.
Qed.

(** The pass to which a logged call belongs. *)
Lemma passes_call_pass i steps rs cs err x :
  passes i steps rs cs err -> x ∈ cs ->
  exists j step res cs0 c,
    call_index x = i + j
    /\ steps !! j = Some step
    /\ rs !! j = Some res
    /\ pass (i + j) step res cs0 c
    /\ x ∈ cs0
    /\ (forall y, y ∈ cs -> call_index y = i + j -> y ∈ cs0)
    /\ match c with
       | Return e => e = err /\ S j = length rs
       | Continue => S j < length rs \/ (S j = length rs /\ err = None /\ length rs = length steps)
       end.
Proof.
  intros Hps Hx.
  destruct (passes_call_result _ _ _ _ _ _ Hps Hx) as (j & res & Hi & Hj).
  destruct (passes_at _ _ _ _ _ Hps _ _ Hj) as (st & cs0 & c & Hst & Hp & Hin & _ & Hc).
  exists j, st, res, cs0, c. auto 10.
Qed.

(** Membership in the short call lists of a pass. *)
Ltac in_calls H :=
  simpl in H;
  repeat (apply elem_of_cons in H as [H | H]; [inversion H; subst |]);
  try solve [inversion H].

(** ** Reaching a step *)

Lemma pass_completes i step res cs c :
  completes step -> pass i step res cs c -> c = Continue.
Proof.
  intros [Hprobe Hact].
  inversion 1 as [w0 d e Hc | w0 Hc | w0 w1 Hc Hr | w0 w1 e Hc Hr]; subst;
    try reflexivity; exfalso.
  - specialize (Hprobe w0). rewrite Hc in Hprobe. discriminate.
  - destruct Hact as [Hdone | Hrun].
    + specialize (Hdone w0). rewrite Hc in Hdone. discriminate.
    + specialize (Hrun w1). rewrite Hr in Hrun. discriminate.
Qed.

(** A run takes the step at position [k] when all steps before it
    complete. *)
Lemma passes_reaches i steps rs cs err : passes i steps rs cs err ->
  forall k, k < length steps ->
  (forall j stepj, j < k -> steps !! j = Some stepj -> completes stepj) ->
  k < length rs.
Proof.
  induction 1 as [| i step rest res0 cs err Hp | i step rest res0 cs rs cs' err Hp Hps IH];
    intros k Hk Hbefore; simpl in *.
  - lia.
  - destruct k as [| k]; [lia |].
    pose proof (pass_completes _ _ _ _ _ (Hbefore 0 step ltac:(lia) eq_refl) Hp).
    discriminate.
  - destruct k as [| k]; [lia |].
    apply -> Nat.succ_lt_mono. apply IH; [lia |].
    intros j stepj Hj Hst. apply (Hbefore (S j)); [lia | exact Hst].
Qed.

(** The pass over a step taken by a run. *)
Lemma passes_reached_pass i steps rs cs err k step :
  passes i steps rs cs err ->
  steps !! k = Some step ->
  (forall j stepj, j < k -> steps !! j = Some stepj -> completes stepj) ->
  exists res cs0 c,
    rs !! k = Some res /\ pass (i + k) step res cs0 c /\ forall x, x ∈ cs0 -> x ∈ cs.
Proof.
  intros Hps Hst Hbefore.
  pose proof (passes_reaches _ _ _ _ _ Hps k (lookup_lt_Some _ _ _ Hst) Hbefore) as Hlt.
  destruct (lookup_lt_is_Some_2 rs k Hlt) as [res Hres].
  destruct (passes_at _ _ _ _ _ Hps _ _ Hres) as (st & cs0 & c & Hst' & Hp & _ & Hsub & _).
  rewrite Hst in Hst'. inversion Hst'; subst st. exists res, cs0, c. auto.
Qed.

(** ** Failure of [Run] *)

(** C1: take a run of [RunAll] on a fresh runner.  When all steps before
    position [k] (counted from 0) complete and the step at [k] is not
    done and its [Run()] returns the error [e], that [Run()] is invoked.
    And when the [Run()] of the step at position [k] returned [e], the
    run stops there: [Results] has exactly [k + 1] entries, the last one
    is the failed result of that step with [e], the earlier ones carry no
    error, no [Check()] or [Run()] of a later step is in the log, and
    [RunAll] returns [e] wrapped as "step NAME failed: ...". *)
Theorem C1_run_error_aborts r w k e err s' :
  Results r = [] ->
  RunAll (init r w) = (err, s') ->
  (forall step,
     Steps r !! k = Some step ->
     (forall j stepj, j < k -> Steps r !! j = Some stepj -> completes stepj) ->
     (forall w0, (Check step w0).1 = (false, None)) ->
     (forall w0, (Run step w0).1 = Some e) ->
     RunCall k (Some e) ∈ calls s')
  /\ (RunCall k (Some e) ∈ calls s' ->
      exists step,
        Steps r !! k = Some step
        /\ length (Results (self s')) = S k
        /\ Results (self s') !! k
           = Some {| StepName := Name step; Skipped := false; Error := Some e |}
        /\ (forall j res, j < k -> Results (self s') !! j = Some res -> Error res = None)
        /\ (forall c, c ∈ calls s' -> call_index c <= k)
        /\ err = Some (step_failed (Name step) e)
        /\ Unwrap (step_failed (Name step) e) = Some e
        /\ errmsg (step_failed (Name step) e)
           = "step " +:+ Name step +:+ " failed: " +:+ errmsg e).
Proof.
  intros Hfresh Hrun.
  apply RunAll_passes in Hrun as (rs & cs & Hps & _ & HR & HC).
  simpl in HR, HC, Hps. rewrite Hfresh in HR. simpl in HR. subst cs. rewrite HR. clear HR.
  split.
  - intros step Hst Hbefore Hcheck Hfails.
    destruct (passes_reached_pass _ _ _ _ _ _ _ Hps Hst Hbefore)
      as (res & cs0 & c & _ & Hp & Hsub).
    apply Hsub. simpl in Hp.
    inversion Hp as [w0 d e0 Hc | w0 Hc | w0 w1 Hc Hr | w0 w1 e0 Hc Hr]; subst;
      rewrite ?Hcheck in Hc; try discriminate Hc; rewrite Hfails in Hr; inversion Hr; subst.
    apply list_elem_of_further, list_elem_of_here.
  - intros Hcall.
    destruct (passes_call_pass _ _ _ _ _ _ Hps Hcall)
      as (j & step & res & cs0 & c & Hi & Hst & Hj & Hp & Hin & _ & Hc).
    simpl in Hi. subst j. exists step.
    inversion Hp; subst; in_calls Hin.
    destruct Hc as [<- Hlen].
    split; [assumption |]. split; [lia |]. split; [assumption |].
    split; [| split; [| auto using errmsg_step_failed]].
    + intros j res Hlt Hres. eapply passes_before_last; eauto. lia.
    + intros x Hx. apply (passes_calls_index _ _ _ _ _ _ Hps) in Hx. lia.
Qed.

(** ** Failure of [Check] *)

(** C3: take a run of [RunAll] on a fresh runner.  When all steps before
    position [k] complete and the [Check()] of the step at [k] returns
    the error [e], that [Check()] is invoked.  And when the [Check()] of
    the step at position [k] returned [e], no [Run()] of that step and no
    call on a later step is in the log, the failed result with [e] (not
    skipped) is the last of [Results], and [RunAll] returns [e] wrapped
    as "check failed for NAME: ...". *)
Theorem C3_check_error_aborts r w k done e err s' :
  Results r = [] ->
  RunAll (init r w) = (err, s') ->
  (forall step,
     Steps r !! k = Some step ->
     (forall j stepj, j < k -> Steps r !! j = Some stepj -> completes stepj) ->
     (forall w0, (Check step w0).1 = (done, Some e)) ->
     CheckCall k done (Some e) ∈ calls s')
  /\ (CheckCall k done (Some e) ∈ calls s' ->
      exists step,
        Steps r !! k = Some step
        /\ (forall e', RunCall k e' ∉ calls s')
        /\ (forall c, c ∈ calls s' -> call_index c <= k)
        /\ length (Results (self s')) = S k
        /\ Results (self s') !! k
           = Some {| StepName := Name step; Skipped := false; Error := Some e |}
        /\ err = Some (check_failed (Name step) e)
        /\ Unwrap (check_failed (Name step) e) = Some e
        /\ errmsg (check_failed (Name step) e)
           = "check failed for " +:+ Name step +:+ ": " +:+ errmsg e).
Proof.
  intros Hfresh Hrun.
  apply RunAll_passes in Hrun as (rs & cs & Hps & _ & HR & HC).
  simpl in HR, HC, Hps. rewrite Hfresh in HR. simpl in HR. subst cs. rewrite HR. clear HR.
  split.
  - intros step Hst Hbefore Hcheck.
    destruct (passes_reached_pass _ _ _ _ _ _ _ Hps Hst Hbefore)
      as (res & cs0 & c & _ & Hp & Hsub).
    apply Hsub. simpl in Hp.
    inversion Hp as [w0 d e0 Hc | w0 Hc | w0 w1 Hc Hr | w0 w1 e0 Hc Hr]; subst;
      rewrite Hcheck in Hc; inversion Hc; subst.
    apply list_elem_of_here.
  - intros Hcall.
    destruct (passes_call_pass _ _ _ _ _ _ Hps Hcall)
      as (j & step & res & cs0 & c & Hi & Hst & Hj & Hp & Hin & Hall & Hc).
    simpl in Hi. subst j. exists step.
    inversion Hp; subst; in_calls Hin.
    destruct Hc as [<- Hlen].
    split; [assumption |].
    split; [| split; [| split; [lia | auto using errmsg_check_failed]]].
    + intros e' Hr. apply Hall in Hr; [| reflexivity]. in_calls Hr.
    + intros x Hx. apply (passes_calls_index _ _ _ _ _ _ Hps) in Hx. lia.
Qed.

(** ** Skipping *)

Lemma pass_has_check i step res cs c :
  pass i step res cs c -> exists done e, CheckCall i done e ∈ cs.
Proof. destruct 1; eexists _, _; apply list_elem_of_here. Qed.

(** A pass over a step whose probe always answers "already done" is a
    skip. *)
Lemma pass_always_done i step res cs c :
  (forall w, (Check step w).1 = (true, None)) ->
  pass i step res cs c ->
  cs = [CheckCall i true None] /\ c = Continue.
Proof.
  intros Hdone Hp.
  inversion Hp as [w0 d e Hc | w0 Hc | w0 w1 Hc Hr | w0 w1 e Hc Hr]; subst;
    rewrite Hdone in Hc; inversion Hc; auto.
Qed.

(** In no run is the [Run()] of such a step invoked. *)
Lemma passes_always_done_not_run i steps rs cs err j step e :
  passes i steps rs cs err ->
  steps !! j = Some step ->
  (forall w, (Check step w).1 = (true, None)) ->
  RunCall (i + j) e ∉ cs.
Proof.
  intros Hps Hst Hdone Hin.
  destruct (passes_call_pass _ _ _ _ _ _ Hps Hin)
    as (j' & step' & res & cs0 & c & Hi & Hst' & _ & Hp & Hin0 & _).
  simpl in Hi. assert (j' = j) as -> by lia.
  rewrite Hst in Hst'. inversion Hst'; subst step'.
  apply (pass_always_done _ _ _ _ _ Hdone) in Hp as [-> _]. in_calls Hin0.
Qed.

(** A call [CheckCall k true None] in the log of a run: nothing else was
    called on position [k], the result is the skip, and the run went on. *)
Lemma passes_skipped_at i steps rs cs err j :
  passes i steps rs cs err ->
  CheckCall (i + j) true None ∈ cs ->
  (forall e, RunCall (i + j) e ∉ cs)
  /\ (exists step, steps !! j = Some step
       /\ rs !! j = Some {| StepName := Name step; Skipped := true; Error := None |})
  /\ (forall step', steps !! S j = Some step' ->
       exists done e, CheckCall (i + S j) done e ∈ cs).
Proof.
  intros Hps Hin.
  destruct (passes_call_pass _ _ _ _ _ _ Hps Hin)
    as (j' & step & res & cs0 & c & Hi & Hst & Hj & Hp & Hin0 & Hall & Hc).
  simpl in Hi. assert (j' = j) as -> by lia.
  inversion Hp; subst; in_calls Hin0.
  split; [| split].
  - intros e Hr. apply Hall in Hr; [| reflexivity]. in_calls Hr.
  - eauto.
  - intros step' Hst'. apply lookup_lt_Some in Hst'.
    pose proof (passes_length _ _ _ _ _ Hps) as Hlen.
    destruct Hc as [Hlt | (? & _ & ?)]; [| lia].
    destruct (lookup_lt_is_Some_2 rs (S j) Hlt) as [res' Hres'].
    destruct (passes_at _ _ _ _ _ Hps _ _ Hres') as (st & cs1 & c1 & _ & Hp1 & _ & Hsub & _).
    apply pass_has_check in Hp1 as (d & e & Hd). exists d, e. auto.
Qed.

(** C2: a step whose [Check()] returns [(true, nil)] in a run of [RunAll]
    is not run, gets the result [{name, Skipped: true}] and the run goes
    on with the next step; when every step's probe answers "already
    done", [RunAll] returns nil and no [Run()] is invoked; and on invoking
    [RunAll] again on the same runner, in the world the first run left,
    again no step whose probe answers "already done" is run. *)
Theorem C2_already_done_is_skipped r w err s' :
  RunAll (init r w) = (err, s') ->
  (forall k, CheckCall k true None ∈ calls s' ->
     (forall e, RunCall k e ∉ calls s')
     /\ (exists step, Steps r !! k = Some step
          /\ Results (self s') !! (length (Results r) + k)
             = Some {| StepName := Name step; Skipped := true; Error := None |})
     /\ (forall step', Steps r !! S k = Some step' ->
          exists done e, CheckCall (S k) done e ∈ calls s'))
  /\ ((forall step, step ∈ Steps r -> forall w0, (Check step w0).1 = (true, None)) ->
      err = None /\ forall k e, RunCall k e ∉ calls s')
  /\ (forall err2 s2, RunAll (init (self s') (world s')) = (err2, s2) ->
      forall k,
        (CheckCall k true None ∈ calls s2 -> forall e, RunCall k e ∉ calls s2)
        /\ (forall step, Steps r !! k = Some step ->
            (forall w0, (Check step w0).1 = (true, None)) ->
            forall e, (RunCall k e ∉ calls s') /\ (RunCall k e ∉ calls s2))).
Proof.
  intros Hrun.
  apply RunAll_passes in Hrun as (rs & cs & Hps & HS & HR & HC).
  simpl in HR, HC, Hps. subst cs. split; [| split].
  - intros k Hin.
    destruct (passes_skipped_at 0 _ _ _ _ k Hps Hin) as (Hnr & (step & Hst & Hres) & Hnext).
    split; [exact Hnr |]. split; [| exact Hnext].
    exists step. split; [assumption |].
    rewrite HR, lookup_app_r by lia.
    replace (length (Results r) + k - length (Results r)) with k by lia. assumption.
  - intros Hall.
    assert (forall k e, RunCall k e ∉ calls s') as Hnr.
    { intros k e Hin.
      destruct (passes_call_pass _ _ _ _ _ _ Hps Hin)
        as (j & step & res & cs0 & c & Hi & Hst & _ & Hp & Hin0 & _).
      apply list_elem_of_lookup_2 in Hst.
      apply (pass_always_done _ _ _ _ _ (Hall _ Hst)) in Hp as [-> _]. in_calls Hin0. }
    split; [| exact Hnr].
    destruct err as [e |]; [| reflexivity].
    destruct (passes_failed _ _ _ _ _ Hps) as (j & res & Hj & _ & He).
    destruct (passes_at _ _ _ _ _ Hps _ _ Hj) as (st & cs0 & c & Hst & Hp & _ & _ & _).
    apply list_elem_of_lookup_2 in Hst.
    destruct (pass_always_done _ _ _ _ _ (Hall _ Hst) Hp) as [-> ->].
    apply pass_continue_no_error in Hp as [Hnone _]. contradiction.
  - intros err2 s2 Hrun2.
    apply RunAll_passes in Hrun2 as (rs2 & cs2 & Hps2 & _ & _ & HC2).
    simpl in HC2, Hps2. subst cs2. rewrite HS in Hps2. simpl in Hps2.
    intros k. split.
    + intros Hin. apply (passes_skipped_at 0 _ _ _ _ k Hps2 Hin).
    + intros step Hst Hdone e. split.
      * apply (passes_always_done_not_run 0 _ _ _ _ k _ e Hps Hst Hdone).
      * apply (passes_always_done_not_run 0 _ _ _ _ k _ e Hps2 Hst Hdone).
Qed.

(** ** The returned error *)



(** C9: after a run of [RunAll] on a fresh runner, a result that carries
    an error is the last one, so at most one does; and [RunAll] returns
    an error exactly when [Results] is not empty and its last entry
    carries one. *)
Theorem C9_error_only_in_last_result r w err s' :
  Results r = [] ->
  RunAll (init r w) = (err, s') ->
  (forall j res, Results (self s') !! j = Some res -> Error res <> None ->
     S j = length (Results (self s')))
  /\ (forall j1 j2 res1 res2,
       Results (self s') !! j1 = Some res1 -> Error res1 <> None ->
       Results (self s') !! j2 = Some res2 -> Error res2 <> None ->
       j1 = j2)
  /\ (err <> None <->
     exists res, last (Results (self s')) = Some res /\ Error res <> None).
Proof.
  intros Hfresh Hrun.
  apply RunAll_passes in Hrun as (rs & cs & Hps & _ & HR & HC).
  simpl in HR, HC, Hps. rewrite Hfresh in HR. simpl in HR. subst cs. rewrite HR. clear HR.
  assert (forall j res, rs !! j = Some res -> Error res <> None -> S j = length rs) as Hlast.
  { intros j res Hj He. pose proof (lookup_lt_Some _ _ _ Hj) as Hlt.
    destruct (decide (S j = length rs)) as [| Hne]; [assumption |].
    exfalso. apply He. eapply passes_before_last; eauto. lia. }
  split; [exact Hlast |]. split.
  - intros j1 j2 res1 res2 H1 He1 H2 He2.
    apply Hlast in H1; [| assumption]. apply Hlast in H2; [| assumption]. lia.
  - split.
    + intros Herr. destruct err as [e |]; [| contradiction].
      destruct (passes_failed _ _ _ _ _ Hps) as (j & res & Hj & Hlen & He).
      exists res. split; [| assumption].
      rewrite last_lookup, <- Hlen. exact Hj.
    + intros (res & Hl & He) ->. apply He.
      destruct (passes_ok _ _ _ _ Hps) as (_ & Hall & _). apply Hall.
      rewrite last_lookup in Hl. eapply list_elem_of_lookup_2; eauto.
Qed.

(** ** The points of a run *)

Lemma named_prefix rs steps k m extra :
  named rs (take k steps) ->
  Forall2 (fun res step => StepName res = Name step) extra (take m (drop k steps)) ->
  map StepName (rs ++ extra) `prefix_of` map Name steps.
Proof.
  intros Hrs Hextra.
  assert (map StepName (rs ++ extra) = map Name (take k steps ++ take m (drop k steps))) as ->.
  { rewrite !map_app. f_equal.
    - induction Hrs as [| ? ? ? ? [? _]]; simpl; congruence.
    - induction Hextra; simpl; congruence. }
  exists (map Name (drop m (drop k steps))).
  rewrite <- !map_app, <- app_assoc, !take_drop. reflexivity.
Qed.

Lemma at_loop_head_inv s0 i s :
  at_loop_head s0 i s ->
  Steps (self s) = Steps (self s0)
  /\ i <= length (Steps (self s0))
  /\ exists rs, Results (self s) = Results (self s0) ++ rs
       /\ named rs (take i (Steps (self s0))).
Proof.
  induction 1 as [| i step s s' Hhead (HS & Hi & rs & HR & Hn) Hst Hit].
  - split; [reflexivity |]. split; [lia |]. exists []. rewrite app_nil_r.
    split; [reflexivity |]. rewrite take_0. constructor.
  - apply iteration_pass in Hit as (res & cs & Hp & HS' & _ & _ & HR' & _).
    split; [congruence |]. split; [apply lookup_lt_Some in Hst; lia |].
    exists (rs ++ [res]). split; [rewrite HR', HR, app_assoc; reflexivity |].
    rewrite (take_S_r _ _ _ Hst). apply Forall2_app; [assumption |].
    constructor; [| constructor]. split; [eapply pass_name; eauto |].
    apply pass_continue_no_error in Hp as [? _]. assumption.
Qed.

(** The run of the loop reaches a return. *)
Lemma range_loop_at_return s0 steps : forall i s err s',
  at_loop_head s0 i s ->
  drop i (Steps (self s0)) = steps ->
  range_loop i steps s = (err, s') ->
  at_return s0 err s'.
Proof.
  induction steps as [| step rest IH]; intros i s err s' Hhead Hdrop Hrun; simpl in Hrun.
  - inversion Hrun; subst. apply return_after.
    destruct (at_loop_head_inv _ _ _ Hhead) as (_ & Hi & _).
    apply (f_equal length) in Hdrop. rewrite length_drop in Hdrop. simpl in Hdrop.
    replace (length (Steps (self s0))) with i by lia. assumption.
  - assert (Steps (self s0) !! i = Some step) as Hst.
    { rewrite <- (Nat.add_0_r i), <- lookup_drop, Hdrop. reflexivity. }
    unfold bind, mbind, M_bind in Hrun.
    destruct (iteration i step s) as [c s1] eqn:Hit. destruct c as [| e].
    + apply (IH (S i) s1); [econstructor; eauto | | assumption].
      rewrite (drop_S _ _ _ Hst) in Hdrop. inversion Hdrop; reflexivity.
    + inversion Hrun; subst. eapply return_inside; eauto.
Qed.

(** C5: at every point of a run of [RunAll] on a fresh runner, from the
    first loop head to the return, the names in [Results] are a prefix of
    the names of [Steps], in order; a result that carries an error is the
    last one and the run has returned with it, so nothing is appended
    after a failure; at the head of the pass over position [i] there are
    exactly [i] results, and that pass appends exactly one result, named
    after the step at position [i]; the state in which [RunAll] returns
    is such a point; and inside a pass the observers and the calls of
    [Check()] and [Run()] leave [Results] as it is. *)
Theorem C5_results_prefix_of_steps r w :
  Results r = [] ->
  (forall s, during (init r w) s ->
     map StepName (Results (self s)) `prefix_of` map Name (Steps r)
     /\ forall j res, Results (self s) !! j = Some res -> Error res <> None ->
          S j = length (Results (self s))
          /\ exists err, at_return (init r w) (Some err) s)
  /\ (forall i s, at_loop_head (init r w) i s -> length (Results (self s)) = i)
  /\ (forall i step s c s',
       at_loop_head (init r w) i s -> Steps r !! i = Some step ->
       iteration i step s = (c, s') ->
       exists res, Results (self s') = Results (self s) ++ [res]
         /\ StepName res = Name step)
  /\ (forall err s', RunAll (init r w) = (err, s') -> at_return (init r w) err s')
  /\ (forall i step skipped err s,
       Results (self (onStart step s).2) = Results (self s)
       /\ Results (self (callCheck i step s).2) = Results (self s)
       /\ Results (self (callRun i step s).2) = Results (self s)
       /\ Results (self (onDone step skipped err s).2) = Results (self s)).
Proof.
  intros Hfresh.
  assert (forall i s, at_loop_head (init r w) i s ->
    i <= length (Steps r) /\ length (Results (self s)) = i
    /\ named (Results (self s)) (take i (Steps r))) as Hhead.
  { intros i s Hh. destruct (at_loop_head_inv _ _ _ Hh) as (_ & Hi & rs & HR & Hn).
    simpl in *. rewrite Hfresh in HR. simpl in HR. subst rs.
    split; [assumption |]. split; [| assumption].
    apply Forall2_length in Hn. rewrite length_take in Hn. lia. }
  assert (forall s, named (Results (self s)) (take (length (Results (self s))) (Steps r)) ->
    map StepName (Results (self s)) `prefix_of` map Name (Steps r)
    /\ forall j res, Results (self s) !! j = Some res -> Error res = None) as Hok.
  { intros s Hn. split.
    - rewrite <- (app_nil_r (Results (self s))).
      apply (named_prefix _ _ _ 0 [] Hn). rewrite take_0. constructor.
    - intros j res Hj.
      destruct (Forall2_lookup_l _ _ _ _ _ Hn Hj) as (st & _ & _ & He). exact He. }
  split; [| split; [| split; [| split]]].
  - intros s [[i Hh] | [err Hret]].
    + destruct (Hhead _ _ Hh) as (_ & Hlen & Hn). rewrite <- Hlen in Hn.
      destruct (Hok _ Hn) as [Hpre Hnone]. split; [assumption |].
      intros j res Hj He. apply Hnone in Hj. contradiction.
    + inversion Hret as [i step s1 err' s2 Hh Hst Hit | s1 Hh]; subst.
      * destruct (Hhead _ _ Hh) as (_ & Hlen & Hn).
        pose proof Hit as Hit'.
        apply iteration_pass in Hit' as (res & cs & Hp & _ & _ & _ & HR & _).
        simpl in Hst. rewrite HR. split.
        -- apply (named_prefix _ _ _ 1 [res] Hn).
           rewrite (drop_S _ _ _ Hst). simpl. rewrite take_0.
           constructor; [eapply pass_name; eauto | constructor].
        -- intros j res' Hj He. rewrite length_app. simpl.
           destruct (decide (j < length (Results (self s1)))) as [Hlt | Hge].
           ++ rewrite lookup_app_l in Hj by assumption.
              destruct (Forall2_lookup_l _ _ _ _ _ Hn Hj) as (st & _ & _ & Hnone).
              contradiction.
           ++ apply lookup_lt_Some in Hj. rewrite length_app in Hj. simpl in Hj.
              split; [lia |].
              apply pass_return_error in Hp as (e & _ & [-> | ->]); eauto.
      * destruct (Hhead _ _ Hh) as (_ & Hlen & Hn). simpl in Hlen, Hn.
        rewrite <- Hlen in Hn.
        destruct (Hok _ Hn) as [Hpre Hnone]. split; [assumption |].
        intros j res Hj He. apply Hnone in Hj. contradiction.
  - intros i s Hh. apply Hhead in Hh. tauto.
  - intros i step s c s' _ _ Hit.
    apply iteration_pass in Hit as (res & cs & Hp & _ & _ & _ & HR & _).
    exists res. split; [assumption | eapply pass_name; eauto].
  - intros err s' Hrun. eapply (range_loop_at_return _ _ 0); [constructor | | exact Hrun].
    reflexivity.
  - intros i step skipped err s. unfold_M. repeat split.
    + destruct (OnStart (self s)); reflexivity.
    + destruct (Check step (world s)); reflexivity.
    + destruct (Run step (world s)); reflexivity.
    + destruct (OnDone (self s)); reflexivity.
Qed.

(** ** Observers *)

Section Observers.

Context (R : W -> W -> Prop) `{!Equivalence R}.

Lemma onStart_alike step s1 s2 :
  alike R s1 s2 -> alike R (onStart step s1).2 (onStart step s2).2.
Proof.
  intros (HR & HC & HW & Hq1 & Hq2). unfold onStart, on_world, alike.
  pose proof Hq1 as [Hs1 _]. pose proof Hq2 as [Hs2 _].
  destruct (OnStart (self s1)) as [f1 |] eqn:E1;
    destruct (OnStart (self s2)) as [f2 |] eqn:E2; simpl;
    (split; [assumption |]); (split; [assumption |]); (split; [| split; assumption]).
  - rewrite <- (Hs1 f1 step (world s1) eq_refl), <- (Hs2 f2 step (world s2) eq_refl).
    assumption.
  - rewrite <- (Hs1 f1 step (world s1) eq_refl). assumption.
  - rewrite <- (Hs2 f2 step (world s2) eq_refl). assumption.
  - assumption.
Qed.

Lemma onDone_alike step skipped err s1 s2 :
  alike R s1 s2 ->
  alike R (onDone step skipped err s1).2 (onDone step skipped err s2).2.
Proof.
  intros (HR & HC & HW & Hq1 & Hq2). unfold onDone, on_world, alike.
  pose proof Hq1 as [_ Hd1]. pose proof Hq2 as [_ Hd2].
  destruct (OnDone (self s1)) as [g1 |] eqn:E1;
    destruct (OnDone (self s2)) as [g2 |] eqn:E2; simpl;
    (split; [assumption |]); (split; [assumption |]); (split; [| split; assumption]).
  - rewrite <- (Hd1 g1 step skipped err (world s1) eq_refl),
      <- (Hd2 g2 step skipped err (world s2) eq_refl).
    assumption.
  - rewrite <- (Hd1 g1 step skipped err (world s1) eq_refl). assumption.
  - rewrite <- (Hd2 g2 step skipped err (world s2) eq_refl). assumption.
  - assumption.
Qed.

Lemma appendResult_alike res s1 s2 :
  alike R s1 s2 -> alike R (appendResult res s1).2 (appendResult res s2).2.
Proof.
  intros (HR & HC & HW & Hq1 & Hq2). unfold appendResult, alike. simpl.
  rewrite HR. auto.
Qed.

Lemma callCheck_alike i step s1 s2 :
  step_respects R step -> alike R s1 s2 ->
  (callCheck i step s1).1 = (callCheck i step s2).1
  /\ alike R (callCheck i step s1).2 (callCheck i step s2).2.
Proof.
  intros Hstep (HR & HC & HW & Hq1 & Hq2).
  destruct (Hstep _ _ HW) as (Hv & Hw & _).
  unfold callCheck, log, invoke, bind, mbind, mret, M_bind, M_ret, alike.
  destruct (Check step (world s1)) as [v1 w1]. destruct (Check step (world s2)) as [v2 w2].
  simpl in *. subst v2. rewrite HC. auto 10.
Qed.

Lemma callRun_alike i step s1 s2 :
  step_respects R step -> alike R s1 s2 ->
  (callRun i step s1).1 = (callRun i step s2).1
  /\ alike R (callRun i step s1).2 (callRun i step s2).2.
Proof.
  intros Hstep (HR & HC & HW & Hq1 & Hq2).
  destruct (Hstep _ _ HW) as (_ & _ & Hv & Hw).
  unfold callRun, log, invoke, bind, mbind, mret, M_bind, M_ret, alike.
  destruct (Run step (world s1)) as [v1 w1]. destruct (Run step (world s2)) as [v2 w2].
  simpl in *. subst v2. rewrite HC. auto 10.
Qed.

Lemma iteration_alike i step s1 s2 :
  step_respects R step -> alike R s1 s2 ->
  (iteration i step s1).1 = (iteration i step s2).1
  /\ alike R (iteration i step s1).2 (iteration i step s2).2.
Proof.
  intros Hstep Ha. unfold iteration, bind, mbind, mret, M_bind, M_ret.
  pose proof (onStart_alike step _ _ Ha) as Ha1.
  destruct (onStart step s1) as [[] a1]. destruct (onStart step s2) as [[] a2].
  simpl in Ha1.
  destruct (callCheck_alike i step _ _ Hstep Ha1) as [Hv Ha2].
  destruct (callCheck i step a1) as [[d1 e1] b1].
  destruct (callCheck i step a2) as [[d2 e2] b2].
  simpl in Hv, Ha2. inversion Hv; subst d2 e2; clear Hv.
  destruct e1 as [e |]; [| destruct d1].
  - pose proof (appendResult_alike
      {| StepName := Name step; Skipped := false; Error := Some e |} _ _ Ha2) as Ha3.
    destruct (appendResult _ b1) as [[] c1]. destruct (appendResult _ b2) as [[] c2].
    simpl in Ha3. pose proof (onDone_alike step false (Some e) _ _ Ha3) as Ha4.
    destruct (onDone step false (Some e) c1) as [[] d1'].
    destruct (onDone step false (Some e) c2) as [[] d2'].
    simpl in *. auto.
  - pose proof (appendResult_alike
      {| StepName := Name step; Skipped := true; Error := None |} _ _ Ha2) as Ha3.
    destruct (appendResult _ b1) as [[] c1]. destruct (appendResult _ b2) as [[] c2].
    simpl in Ha3. pose proof (onDone_alike step true None _ _ Ha3) as Ha4.
    destruct (onDone step true None c1) as [[] d1'].
    destruct (onDone step true None c2) as [[] d2'].
    simpl in *. auto.
  - destruct (callRun_alike i step _ _ Hstep Ha2) as [Hv Ha3].
    destruct (callRun i step b1) as [r1 c1]. destruct (callRun i step b2) as [r2 c2].
    simpl in Hv, Ha3. subst r2.
    pose proof (appendResult_alike
      {| StepName := Name step; Skipped := false; Error := r1 |} _ _ Ha3) as Ha4.
    destruct (appendResult _ c1) as [[] d1']. destruct (appendResult _ c2) as [[] d2'].
    simpl in Ha4. pose proof (onDone_alike step false r1 _ _ Ha4) as Ha5.
    destruct (onDone step false r1 d1') as [[] f1].
    destruct (onDone step false r1 d2') as [[] f2].
    simpl in *. destruct r1; simpl; auto.
Qed.

Lemma range_loop_alike steps : forall i s1 s2,
  (forall step, step ∈ steps -> step_respects R step) ->
  alike R s1 s2 ->
  (range_loop i steps s1).1 = (range_loop i steps s2).1
  /\ alike R (range_loop i steps s1).2 (range_loop i steps s2).2.
Proof.
  induction steps as [| step rest IH]; intros i s1 s2 Hsteps Ha; simpl.
  - auto.
  - unfold bind, mbind, M_bind.
    destruct (iteration_alike i step _ _ (Hsteps _ (list_elem_of_here _ _)) Ha) as [Hc Ha'].
    destruct (iteration i step s1) as [c1 t1]. destruct (iteration i step s2) as [c2 t2].
    simpl in Hc, Ha'. subst c2. destruct c1 as [| e]; [| auto].
    apply IH; [| assumption]. intros st Hst. apply Hsteps, list_elem_of_further, Hst.
Qed.

End Observers.

(** The same, from the start of [RunAll]. *)
Lemma RunAll_alike (R : W -> W -> Prop) r1 r2 w :
  Equivalence R ->
  Steps r1 = Steps r2 ->
  Results r1 = Results r2 ->
  (forall step, step ∈ Steps r1 -> step_respects R step) ->
  silent R r1 ->
  silent R r2 ->
  (RunAll (init r1 w)).1 = (RunAll (init r2 w)).1
  /\ Results (self (RunAll (init r1 w)).2) = Results (self (RunAll (init r2 w)).2)
  /\ calls (RunAll (init r1 w)).2 = calls (RunAll (init r2 w)).2
  /\ R (world (RunAll (init r1 w)).2) (world (RunAll (init r2 w)).2).
Proof.
  intros HE HS HR Hsteps Hq1 Hq2. unfold RunAll. simpl. rewrite <- HS.
  destruct (range_loop_alike R (Steps r1) 0 (init r1 w) (init r2 w) Hsteps)
    as (Hv & Hres & Hcalls & Hw & _).
  { unfold alike. simpl. repeat split; try assumption; try reflexivity; apply Hq1 || apply Hq2. }
  auto.
Qed.


(** ** The dependency-download step *)

(** The result of the step whose [Run()] is in the log holds what that
    call returned. *)
Lemma passes_run_result i steps rs cs err k e' :
  passes i steps rs cs err ->
  RunCall (i + k) e' ∈ cs ->
  exists step,
    steps !! k = Some step
    /\ rs !! k = Some {| StepName := Name step; Skipped := false; Error := e' |}.
Proof.
  intros Hps Hin.
  destruct (passes_call_pass _ _ _ _ _ _ Hps Hin)
    as (j & step & res & cs0 & c & Hi & Hst & Hj & Hp & Hin0 & _ & _).
  simpl in Hi. assert (j = k) as -> by lia. exists step. split; [assumption |].
  inversion Hp; subst; in_calls Hin0; assumption.
Qed.

(** A step whose probe always answers "not done" and leaves the world
    alone, in a run of [RunAll]: whenever it is probed, its [Run()] is
    invoked next, in the world [OnStart] left, and what that call
    returned is in the log and in the result of the step; the calls
    before it and after it were made as the log says, the ones after it
    from the world [Run()] left, passed through [OnDone]. *)
Lemma never_done_is_run r w k step err s' :
  Steps r !! k = Some step ->
  (forall w0, Check step w0 = ((false, None), w0)) ->
  RunAll (init r w) = (err, s') ->
  forall done e, CheckCall k done e ∈ calls s' ->
    done = false /\ e = None
    /\ exists before after wk,
         calls s' = before ++ CheckCall k false None
                            :: RunCall k (Run step (after_OnStart r step wk)).1 :: after
         /\ performed r w before wk
         /\ performed r
              (after_OnDone r step false (Run step (after_OnStart r step wk)).1
                 (Run step (after_OnStart r step wk)).2)
              after (world s')
         /\ Results (self s') !! (length (Results r) + k)
            = Some {| StepName := Name step; Skipped := false;
                      Error := (Run step (after_OnStart r step wk)).1 |}.
Proof.
  intros Hk Hnever Hrun done e Hin.
  pose proof (RunAll_performed r w) as Hperf. rewrite Hrun in Hperf. simpl in Hperf.
  destruct (performed_never_done _ _ _ _ _ _ _ _ Hperf Hk Hnever Hin)
    as (-> & -> & before & after & wk & Hcalls & Hb & Ha).
  split; [reflexivity |]. split; [reflexivity |].
  exists before, after, wk. split; [exact Hcalls |]. split; [exact Hb |]. split; [exact Ha |].
  apply RunAll_passes in Hrun as (rs & cs & Hps & _ & HR & HC).
  simpl in HR, HC, Hps. subst cs.
  destruct (passes_run_result 0 _ _ _ _ k (Run step (after_OnStart r step wk)).1 Hps)
    as (st & Hst & Hres).
  { rewrite Hcalls. apply elem_of_app. right.
    apply list_elem_of_further, list_elem_of_here. }
  rewrite Hk in Hst. inversion Hst; subst st.
  rewrite HR, lookup_app_r by lia.
  replace (length (Results r) + k - length (Results r)) with k by lia. exact Hres.
Qed.

(** C8: [CloneDepsStep.Check] returns [(false, nil)] in every world and
    leaves the world as it is; so whenever a run of [RunAll] probes a
    [CloneDepsStep], at whatever position of whatever list, its [Run()]
    is invoked: right after the probe in the log comes the [Run()] of
    that step, invoked in the world the run had reached (after [OnStart],
    when set), with the error that call returned, which is also the error
    of the step's result, never a skip; the calls before were made as the
    log says, and the run goes on from the world [Run()] left.  And the
    run does probe the step when the steps before it complete. *)
Theorem C8_deps_check_never_done
    (home : W -> string * option error) (join : string -> string -> string)
    (exec : string -> list string -> string -> W -> option error * W) :
  (forall dep w, CloneDepsStep_Check dep w = ((false, None), w))
  /\ (forall r w k dep err s',
       Steps r !! k = Some (CloneDepsStep_as_Step home join exec dep) ->
       RunAll (init r w) = (err, s') ->
       (forall done e, CheckCall k done e ∈ calls s' ->
          done = false /\ e = None
          /\ exists before after wk,
               calls s'
               = before ++ CheckCall k false None
                   :: RunCall k
                        (CloneDepsStep_Run home join exec dep
                           (after_OnStart r (CloneDepsStep_as_Step home join exec dep) wk)).1
                   :: after
               /\ performed r w before wk
               /\ performed r
                    (after_OnDone r (CloneDepsStep_as_Step home join exec dep) false
                       (CloneDepsStep_Run home join exec dep
                          (after_OnStart r (CloneDepsStep_as_Step home join exec dep) wk)).1
                       (CloneDepsStep_Run home join exec dep
                          (after_OnStart r (CloneDepsStep_as_Step home join exec dep) wk)).2)
                    after (world s')
               /\ Results (self s') !! (length (Results r) + k)
                  = Some {| StepName := "Download Clojure dependencies";
                            Skipped := false;
                            Error := (CloneDepsStep_Run home join exec dep
                                        (after_OnStart r
                                           (CloneDepsStep_as_Step home join exec dep) wk)).1 |})
       /\ ((forall j stepj, j < k -> Steps r !! j = Some stepj -> completes stepj) ->
           CheckCall k false None ∈ calls s')).
Proof.
  split; [reflexivity |].
  intros r w k dep err s' Hk Hrun. split.
  - apply (never_done_is_run r w k (CloneDepsStep_as_Step home join exec dep) err s' Hk);
      [reflexivity | exact Hrun].
  - apply RunAll_passes in Hrun as (rs & cs & Hps & _ & HR & HC).
    simpl in HR, HC, Hps. subst cs.
    intros Hbefore.
    destruct (passes_reached_pass _ _ _ _ _ _ _ Hps Hk Hbefore)
      as (res & cs0 & c & _ & Hp & Hsub).
    apply Hsub. simpl in Hp.
    inversion Hp as [w0 d e0 Hc | w0 Hc | w0 w1 Hc Hr | w0 w1 e0 Hc Hr]; subst;
      simpl in Hc; try discriminate Hc; apply list_elem_of_here.
Qed.

(** ** Rollback *)

Lemma int_dec_nonneg (i : Z) : (0 <= i <= int_max)%Z -> int_dec i = (i - 1)%Z.
Proof.
  unfold int_dec, to_int, int_max. intros Hi. rewrite Z.mod_small; lia.
Qed.

Lemma int_dec_lt (i : Z) : (0 <= i)%Z -> (int_dec i < i)%Z.
Proof.
  intros Hi. unfold int_dec, to_int.
  destruct (Z_lt_dec (i - 1) (2 ^ 63)) as [Hs | Hb].
  - rewrite Z.mod_small by lia. lia.
  - pose proof (Z.mod_pos_bound (i - 1 + 2 ^ 63) (2 ^ 64) ltac:(lia)). lia.
Qed.

(** The loop, unfolded once. *)
Lemma rollback_loop_once (i : Z) (errors : list error) s :
  rollback_loop i errors s =
  if decide (0 <= i)%Z then
    match rollback_body i errors s with
    | (Returned errors', s') => rollback_loop (int_dec i) errors' s'
    | (Panicked, s') => (Panicked, s')
    end
  else (Returned errors, s).
Proof.
  rewrite rollback_loop_equation_1.
  destruct (Z_le_dec 0 i) as [Hge | Hlt]; destruct (decide (0 <= i)%Z); try lia; simpl.
  - destruct (rollback_body i errors s) as [[errors' |] s']; reflexivity.
  - reflexivity.
Qed.

(** One pass over a position inside the slice. *)
Lemma rollback_body_inside (n : nat) (errors : list error) s step :
  Steps (self s) !! n = Some step ->
  exists err s',
    rollback_body (Z.of_nat n) errors s
      = (Returned (errors ++ omap (rollback_error (Steps (self s))) [RollbackCall n err]), s')
    /\ self s' = self s
    /\ calls s' = calls s ++ [RollbackCall n err].
Proof.
  intros Hst. pose proof (lookup_lt_Some _ _ _ Hst) as Hlt.
  unfold rollback_body, at_index.
  destruct (Z.ltb_spec (Z.of_nat n) (Z.of_nat (length (Steps (self s))))); [| lia].
  destruct (Z.ltb_spec (Z.of_nat n) 0); [lia |].
  rewrite Nat2Z.id, Hst.
  unfold callRollback, invoke, log, bind, mbind, mret, M_bind, M_ret.
  destruct (Rollback step (world s)) as [[e |] w']; [exists (Some e) | exists None];
    eexists; simpl; rewrite ?Hst; simpl; rewrite ?app_nil_r;
    (split; [reflexivity |]); simpl; auto.
Qed.

(** One pass over a position beyond the slice. *)
Lemma rollback_body_outside (i : Z) (errors : list error) s :
  (Z.of_nat (length (Steps (self s))) <= i)%Z ->
  rollback_body i errors s = (Returned errors, s).
Proof.
  intros Hge. unfold rollback_body.
  destruct (Z.ltb_spec i (Z.of_nat (length (Steps (self s))))); [lia | reflexivity].
Qed.

(** The loop started inside the slice, at position [n - 1]. *)
Lemma rollback_loop_inside (n : nat) : forall (errors : list error) s,
  n <= length (Steps (self s)) ->
  (Z.of_nat n - 1 <= int_max)%Z ->
  exists cs s',
    rollback_loop (Z.of_nat n - 1) errors s
      = (Returned (errors ++ omap (rollback_error (Steps (self s))) cs), s')
    /\ self s' = self s
    /\ calls s' = calls s ++ cs
    /\ map call_index cs = rev (seq 0 n)
    /\ Forall (fun c => is_RollbackCall c = true) cs.
Proof.
  induction n as [| n IH]; intros errors s Hn Hmax; rewrite rollback_loop_once.
  - destruct (decide (0 <= Z.of_nat 0 - 1)%Z); [lia |].
    exists [], s. simpl. rewrite !app_nil_r. auto.
  - destruct (decide (0 <= Z.of_nat (S n) - 1)%Z); [| lia].
    replace (Z.of_nat (S n) - 1)%Z with (Z.of_nat n) by lia.
    destruct (lookup_lt_is_Some_2 (Steps (self s)) n) as [step Hst]; [lia |].
    destruct (rollback_body_inside n errors s step Hst) as (err & s1 & -> & Hself & Hcalls).
    rewrite int_dec_nonneg by lia.
    destruct (IH (errors ++ omap (rollback_error (Steps (self s))) [RollbackCall n err]) s1)
      as (cs & s' & -> & Hself' & Hcalls' & Hidx & Hall); [rewrite Hself; lia | lia |].
    exists (RollbackCall n err :: cs), s'. rewrite Hself in *.
    split; [| split; [congruence | split; [| split]]].
    + rewrite <- app_assoc. f_equal. f_equal.
      change (RollbackCall n err :: cs) with ([RollbackCall n err] ++ cs).
      rewrite omap_app. reflexivity.
    + rewrite Hcalls', Hcalls, <- app_assoc. reflexivity.
    + change (map call_index (RollbackCall n err :: cs)) with (n :: map call_index cs).
      rewrite Hidx, seq_S, rev_app_distr. reflexivity.
    + constructor; [reflexivity | assumption].
Qed.

(** The loop started beyond the slice walks down to its last position
    without touching it. *)
Lemma rollback_loop_outside (d : nat) : forall (errors : list error) s,
  (Z.of_nat (length (Steps (self s))) - 1 + Z.of_nat d <= int_max)%Z ->
  rollback_loop (Z.of_nat (length (Steps (self s))) - 1 + Z.of_nat d) errors s
  = rollback_loop (Z.of_nat (length (Steps (self s))) - 1) errors s.
Proof.
  induction d as [| d IH]; intros errors s Hmax.
  - rewrite Z.add_0_r. reflexivity.
  - rewrite rollback_loop_once.
    destruct (decide (0 <= Z.of_nat (length (Steps (self s))) - 1 + Z.of_nat (S d))%Z); [| lia].
    rewrite rollback_body_outside by lia. rewrite int_dec_nonneg by lia.
    replace (Z.of_nat (length (Steps (self s))) - 1 + Z.of_nat (S d) - 1)%Z
      with (Z.of_nat (length (Steps (self s))) - 1 + Z.of_nat d)%Z by lia.
    apply IH. lia.
Qed.

(** The log of the loop is a true record: every [Rollback()] it notes
    was invoked, in the world the one before it left, and holds what the
    call returned; the world the loop leaves is the one the last call
    left. *)
Lemma rollback_loop_rolled (n : nat) : forall (i : Z) (errors : list error) s,
  Z.to_nat (i + 1) <= n ->
  exists cs,
    calls (rollback_loop i errors s).2 = calls s ++ cs
    /\ Steps (self (rollback_loop i errors s).2) = Steps (self s)
    /\ rolled_back (Steps (self s)) (world s) cs (world (rollback_loop i errors s).2).
Proof.
  induction n as [| n IH]; intros i errors s Hn; rewrite rollback_loop_once.
  - destruct (decide (0 <= i)%Z); [lia |]. exists []. simpl. rewrite app_nil_r.
    split; [reflexivity |]. split; [reflexivity | constructor].
  - destruct (decide (0 <= i)%Z) as [Hge |].
    2: { exists []. simpl. rewrite app_nil_r.
         split; [reflexivity |]. split; [reflexivity | constructor]. }
    pose proof (int_dec_lt i Hge) as Hdec.
    unfold rollback_body, at_index.
    destruct (Z.ltb_spec i (Z.of_nat (length (Steps (self s))))) as [Hlt | Hout].
    + destruct (Z.ltb_spec i 0); [lia |].
      destruct (lookup_lt_is_Some_2 (Steps (self s)) (Z.to_nat i)) as [step Hst]; [lia |].
      rewrite Hst.
      unfold callRollback, invoke, log, bind, mbind, mret, M_bind, M_ret.
      destruct (Rollback step (world s)) as [err w1] eqn:Hrb.
      destruct err as [e |]; simpl.
      all: match goal with |- context [rollback_loop _ ?errs ?st] =>
             destruct (IH (int_dec i) errs st) as (cs & Hcs & HS & Hrolled); [lia |] end.
      all: simpl in Hcs, HS, Hrolled.
      all: eexists (RollbackCall (Z.to_nat i) _ :: cs).
      all: split; [rewrite Hcs, <- app_assoc; reflexivity |].
      all: split; [assumption |].
      all: match type of Hrolled with rolled_back _ _ _ ?wf =>
             pose proof (rolled_back_step (Steps (self s)) (world s) (Z.to_nat i) step cs wf Hst)
               as Hstep end.
      all: rewrite Hrb in Hstep; simpl in Hstep; apply Hstep; exact Hrolled.
    + destruct (IH (int_dec i) errors s) as (cs & Hcs & HS & Hrolled); [lia |].
      exists cs. auto.
Qed.

(** C4: for an index inside the slice, [RollbackFrom(index)] returns,
    and its log is one [Rollback()] on each of the positions [index],
    [index - 1], ..., [0], in that order, whatever those calls return;
    the errors it returns are those of the failed calls, each wrapped as
    "rollback NAME: ..." with the name of its step, in the order of the
    calls.  The runner itself is left as it was.  The log is a true
    record: each of these [Rollback()]s was invoked, the first in the
    world [RollbackFrom] was called in, the next in the world the one
    before it left; each entry holds what the call returned, and the
    world [RollbackFrom] leaves is the one the last call left. *)
Theorem C4_rollback_descending r w (index : Z) :
  (0 <= index < Z.of_nat (length (Steps r)))%Z ->
  is_int index ->
  exists errs s',
    RollbackFrom index (init r w) = (Returned errs, s')
    /\ map call_index (calls s') = rev (seq 0 (S (Z.to_nat index)))
    /\ Forall (fun c => is_RollbackCall c = true) (calls s')
    /\ errs = omap (rollback_error (Steps r)) (calls s')
    /\ self s' = r
    /\ rolled_back (Steps r) w (calls s') (world s').
Proof.
  intros Hidx [_ Hmax]. unfold RollbackFrom.
  destruct (rollback_loop_inside (S (Z.to_nat index)) [] (init r w))
    as (cs & s' & Heq & Hself & Hcalls & Hmap & Hall); [simpl; lia | lia |].
  replace (Z.of_nat (S (Z.to_nat index)) - 1)%Z with index in Heq by lia.
  simpl in Heq, Hcalls, Hself. subst cs.
  destruct (rollback_loop_rolled (Z.to_nat (index + 1)) index [] (init r w) (le_n _))
    as (cs & Hcs & _ & Hrolled).
  rewrite Heq in Hcs, Hrolled. simpl in Hcs, Hrolled. subst cs.
  exists (omap (rollback_error (Steps r)) (calls s')), s'. auto 10.
Qed.

(** C10: for every [int] index [RollbackFrom] returns without an
    index-out-of-range panic, and every [Rollback()] it logs is on a
    position inside the slice; a negative index does nothing and yields
    no error; an index at or beyond the length of the slice gives exactly
    what the index of the last position gives. *)
Theorem C10_rollback_total_in_bounds r w (index : Z) :
  is_int index ->
  (exists errs s',
     RollbackFrom index (init r w) = (Returned errs, s')
     /\ forall c, c ∈ calls s' -> call_index c < length (Steps r))
  /\ ((index < 0)%Z -> RollbackFrom index (init r w) = (Returned [], init r w))
  /\ ((Z.of_nat (length (Steps r)) <= index)%Z ->
      RollbackFrom index (init r w)
      = RollbackFrom (Z.of_nat (length (Steps r)) - 1) (init r w)).
Proof.
  intros [Hmin Hmax]. unfold RollbackFrom.
  assert ((Z.of_nat (length (Steps r)) <= index)%Z ->
    rollback_loop index [] (init r w)
    = rollback_loop (Z.of_nat (length (Steps r)) - 1) [] (init r w)) as Hout.
  { intros Hge.
    pose proof (rollback_loop_outside (Z.to_nat (index - (Z.of_nat (length (Steps r)) - 1)))
      [] (init r w)) as H. simpl in H.
    replace (Z.of_nat (length (Steps r)) - 1
             + Z.of_nat (Z.to_nat (index - (Z.of_nat (length (Steps r)) - 1))))%Z
      with index in H by lia.
    apply H. lia. }
  assert ((index < 0)%Z -> rollback_loop index [] (init r w) = (Returned [], init r w)) as Hneg.
  { intros Hlt. rewrite rollback_loop_once.
    destruct (decide (0 <= index)%Z); [lia | reflexivity]. }
  split; [| split; assumption].
  assert (forall n, n <= length (Steps r) -> (Z.of_nat n - 1 <= int_max)%Z -> exists errs s',
    rollback_loop (Z.of_nat n - 1) [] (init r w) = (Returned errs, s')
    /\ forall c, c ∈ calls s' -> call_index c < length (Steps r)) as Hin.
  { intros n Hn Hn'.
    destruct (rollback_loop_inside n [] (init r w))
      as (cs & s' & Heq & _ & Hcalls & Hmap & _); [exact Hn | exact Hn' |].
    simpl in Heq, Hcalls. subst cs. eexists _, s'. split; [exact Heq |].
    intros c Hc.
    assert (In (call_index c) (map call_index (calls s'))) as Hi
      by (apply in_map, list_elem_of_In, Hc).
    rewrite Hmap, <- in_rev, in_seq in Hi. lia. }
  destruct (Z_lt_dec index 0) as [Hlt | Hge].
  - rewrite Hneg by assumption. exists [], (init r w). split; [reflexivity |].
    intros c Hc. inversion Hc.
  - destruct (Z_lt_dec index (Z.of_nat (length (Steps r)))) as [Hlt | Hge'].
    + specialize (Hin (S (Z.to_nat index)) ltac:(lia) ltac:(lia)).
      replace (Z.of_nat (S (Z.to_nat index)) - 1)%Z with index in Hin by lia. exact Hin.
    + rewrite Hout by lia. apply Hin; lia.
Qed.

End Properties.

(** * The properties at work

    The scenario of the specification and a few variations, run in the
    example world. *)

Lemma same_journal_equivalence : Equivalence Example.same_journal.
Proof.
  unfold Example.same_journal. split.
  - intros w. reflexivity.
  - intros w1 w2 H. symmetry. exact H.
  - intros w1 w2 w3 H1 H2. rewrite H1. exact H2.
Qed.

Lemma scenario_respects_journal step :
  step ∈ Example.scenario -> step_respects Example.same_journal step.
Proof.
  unfold Example.scenario. intros Hin w1 w2 Hw. unfold Example.same_journal in *.
  repeat (apply elem_of_cons in Hin as [-> | Hin]); [| | | | inversion Hin];
    simpl; rewrite ?Hw; auto.
Qed.



(** The scenario of the specification, run from a world where A is
    installed: A is skipped, B installs, C fails, D is not reached. *)
Example scenario_run :
  Example.run0.1 = Some (wrapError "step C failed: disk full" Example.disk_full)
  /\ Results (self Example.run0.2)
     = [ {| StepName := "A"; Skipped := true; Error := None |};
         {| StepName := "B"; Skipped := false; Error := None |};
         {| StepName := "C"; Skipped := false; Error := Some Example.disk_full |} ]
  /\ calls Example.run0.2
     = [ CheckCall 0 true None;
         CheckCall 1 false None; RunCall 1 None;
         CheckCall 2 false None; RunCall 2 (Some Example.disk_full) ]
  /\ Example.installed (world Example.run0.2) = ["A"; "B"].
Proof. repeat split. Qed.

(** What the default observers print during that run. *)
Example scenario_console :
  Example.console (world (RunAll (init Example.loud Example.with_A)).2)
  = [ "→ A..." +:+ LF; "  ✓ A (already done)" +:+ LF;
      "→ B..." +:+ LF; "  ✓ B" +:+ LF;
      "→ C..." +:+ LF; "  ✗ C: disk full" +:+ LF ].
Proof. reflexivity. Qed.

(** Run again in the world the first run left: B is now skipped too. *)
Example scenario_again :
  calls (RunAll (init Example.r0 (world Example.run0.2))).2
  = [ CheckCall 0 true None; CheckCall 1 true None;
      CheckCall 2 false None; RunCall 2 (Some Example.disk_full) ].
Proof. reflexivity. Qed.

(** Rolling back from C: C, then B (which cannot be undone), then A. *)
Example scenario_rollback :
  (RollbackFrom 2 (init Example.r0 (world Example.run0.2))).1
  = Returned [wrapError "rollback B: cannot undo" (errorString "cannot undo")]
  /\ calls (RollbackFrom 2 (init Example.r0 (world Example.run0.2))).2
     = [ RollbackCall 2 None;
         RollbackCall 1 (Some (errorString "cannot undo"));
         RollbackCall 0 None ]
  /\ Example.installed (world (RollbackFrom 2 (init Example.r0 (world Example.run0.2))).2)
     = ["B"].
Proof. repeat split. Qed.

(** A step that is already done and whose action would fail: the run
    succeeds without invoking the action. *)
Example satisfied_run :
  (RunAll (init (Example.quiet [Example.satisfied "S"]) Example.empty)).1 = None
  /\ calls (RunAll (init (Example.quiet [Example.satisfied "S"]) Example.empty)).2
     = [CheckCall 0 true None]
  /\ Results (self (RunAll (init (Example.quiet [Example.satisfied "S"]) Example.empty)).2)
     = [{| StepName := "S"; Skipped := true; Error := None |}].
Proof. repeat split. Qed.

(** Indices outside the slice. *)
Example rollback_outside :
  RollbackFrom (-1) (init Example.r0 Example.with_A)
  = (Returned [], init Example.r0 Example.with_A)
  /\ map call_index (calls (RollbackFrom 9 (init Example.r0 Example.with_A)).2)
     = [3; 2; 1; 0]
  /\ int_dec 0 = (-1)%Z
  /\ int_dec int_min = int_max.
Proof. repeat split. Qed.

Lemma installer_completes name : completes (Example.installer name).
Proof. split; [reflexivity | right; reflexivity]. Qed.

Lemma stubborn_completes name : completes (Example.stubborn name).
Proof. split; [reflexivity | right; reflexivity]. Qed.

Lemma C1_witness :
  Results Example.r0 = []
  /\ RunAll (init Example.r0 Example.with_A) = (Example.run0.1, Example.run0.2)
  /\ RunCall 2 (Some Example.disk_full) ∈ calls Example.run0.2
  /\ exists step,
       Steps Example.r0 !! 2 = Some step
       /\ length (Results (self Example.run0.2)) = 3
       /\ Results (self Example.run0.2) !! 2
          = Some {| StepName := Name step; Skipped := false; Error := Some Example.disk_full |}
       /\ (forall j res, j < 2 -> Results (self Example.run0.2) !! j = Some res ->
            Error res = None)
       /\ (forall c, c ∈ calls Example.run0.2 -> call_index c <= 2)
       /\ Example.run0.1 = Some (step_failed (Name step) Example.disk_full)
       /\ Unwrap (step_failed (Name step) Example.disk_full) = Some Example.disk_full
       /\ errmsg (step_failed (Name step) Example.disk_full)
          = "step " +:+ Name step +:+ " failed: " +:+ errmsg Example.disk_full.
Proof.
  destruct (C1_run_error_aborts Example.r0 Example.with_A 2 Example.disk_full
              Example.run0.1 Example.run0.2 eq_refl eq_refl) as [Hreach Hstop].
  assert (RunCall 2 (Some Example.disk_full) ∈ calls Example.run0.2) as Hin.
  { apply (Hreach (Example.failing "C" "disk full")); [reflexivity | | reflexivity | reflexivity].
    intros j stepj Hj Hst.
    destruct j as [| [| j]]; [| | lia]; inversion Hst; subst.
    - apply installer_completes.
    - apply stubborn_completes. }
  split; [reflexivity |]. split; [reflexivity |]. split; [exact Hin |].
  exact (Hstop Hin).
Defined.

Lemma C2_witness :
  RunAll (init Example.r0 Example.with_A) = (Example.run0.1, Example.run0.2)
  /\ CheckCall 0 true None ∈ calls Example.run0.2
  /\ (forall e, RunCall 0 e ∉ calls Example.run0.2)
  /\ Results (self Example.run0.2) !! 0
     = Some {| StepName := "A"; Skipped := true; Error := None |}
  /\ (exists done e, CheckCall 1 done e ∈ calls Example.run0.2)
  /\ (forall err2 s2,
       RunAll (init (self Example.run0.2) (world Example.run0.2)) = (err2, s2) ->
       CheckCall 1 true None ∈ calls s2 -> forall e, RunCall 1 e ∉ calls s2).
Proof.
  assert (CheckCall 0 true None ∈ calls Example.run0.2) as Hin
    by (vm_compute; repeat constructor).
  split; [reflexivity |]. split; [exact Hin |].
  destruct (C2_already_done_is_skipped Example.r0 Example.with_A
              Example.run0.1 Example.run0.2 eq_refl) as (Hskip & _ & Hagain).
  destruct (Hskip 0 Hin) as (Hnr & (step & Hst & Hres) & Hnext).
  split; [exact Hnr |]. split; [| split].
  - inversion Hst; subst step. exact Hres.
  - apply (Hnext (Example.stubborn "B")). reflexivity.
  - intros err2 s2 Hrun2. apply (Hagain err2 s2 Hrun2 1).
Defined.

Lemma C3_witness :
  Results Example.probing = []
  /\ RunAll (init Example.probing Example.empty)
     = (Example.run_probing.1, Example.run_probing.2)
  /\ CheckCall 1 false (Some Example.no_network) ∈ calls Example.run_probing.2
  /\ exists step,
       Steps Example.probing !! 1 = Some step
       /\ (forall e', RunCall 1 e' ∉ calls Example.run_probing.2)
       /\ (forall c, c ∈ calls Example.run_probing.2 -> call_index c <= 1)
       /\ length (Results (self Example.run_probing.2)) = 2
       /\ Results (self Example.run_probing.2) !! 1
          = Some {| StepName := Name step; Skipped := false;
                    Error := Some Example.no_network |}
       /\ Example.run_probing.1 = Some (check_failed (Name step) Example.no_network)
       /\ Unwrap (check_failed (Name step) Example.no_network) = Some Example.no_network
       /\ errmsg (check_failed (Name step) Example.no_network)
          = "check failed for " +:+ Name step +:+ ": " +:+ errmsg Example.no_network.
Proof.
  destruct (C3_check_error_aborts Example.probing Example.empty 1 false Example.no_network
              Example.run_probing.1 Example.run_probing.2 eq_refl eq_refl) as [Hreach Hstop].
  assert (CheckCall 1 false (Some Example.no_network) ∈ calls Example.run_probing.2) as Hin.
  { apply (Hreach (Example.unprobeable "P" "no network")); [reflexivity | | reflexivity].
    intros j stepj Hj Hst.
    destruct j as [| j]; [| lia]. inversion Hst; subst. apply installer_completes. }
  split; [reflexivity |]. split; [reflexivity |]. split; [exact Hin |].
  exact (Hstop Hin).
Defined.

Lemma C4_witness :
  (0 <= 2 < Z.of_nat (length (Steps Example.r0)))%Z
  /\ is_int 2
  /\ exists errs s',
       RollbackFrom 2 (init Example.r0 Example.with_A) = (Returned errs, s')
       /\ map call_index (calls s') = [2; 1; 0]
       /\ Forall (fun c => is_RollbackCall c = true) (calls s')
       /\ errs = omap (rollback_error (Steps Example.r0)) (calls s')
       /\ self s' = Example.r0
       /\ rolled_back (Steps Example.r0) Example.with_A (calls s') (world s')
       /\ errs = [wrapError "rollback B: cannot undo" (errorString "cannot undo")]
       /\ Example.installed (world s') = [].
Proof.
  assert (0 <= 2 < Z.of_nat (length (Steps Example.r0)))%Z as Hidx by (simpl; lia).
  assert (is_int 2) as Hint by (unfold is_int, int_min, int_max; lia).
  split; [exact Hidx |]. split; [exact Hint |].
  destruct (C4_rollback_descending Example.r0 Example.with_A 2 Hidx Hint)
    as (errs & s' & Heq & Hmap & Hall & Herrs & Hself & Hrolled).
  exists errs, s'.
  assert (errs = [wrapError "rollback B: cannot undo" (errorString "cannot undo")]
          /\ Example.installed (world s') = []) as [He Hw].
  { assert ((RollbackFrom 2 (init Example.r0 Example.with_A)).1
            = Returned [wrapError "rollback B: cannot undo" (errorString "cannot undo")]
            /\ Example.installed (world (RollbackFrom 2 (init Example.r0 Example.with_A)).2) = [])
      as [H1 H2] by (split; reflexivity).
    rewrite Heq in H1, H2. simpl in H1, H2. inversion H1. auto. }
  auto 10.
Defined.

Lemma C5_witness :
  Results Example.r0 = []
  /\ during (init Example.r0 Example.with_A) Example.run0.2
  /\ map StepName (Results (self Example.run0.2)) `prefix_of` map Name (Steps Example.r0)
  /\ length (Results (self Example.run0.2)) = 3.
Proof.
  destruct (C5_results_prefix_of_steps Example.r0 Example.with_A eq_refl)
    as (Hpoint & _ & _ & Hret).
  assert (during (init Example.r0 Example.with_A) Example.run0.2) as Hd.
  { right. exists Example.run0.1. apply Hret. reflexivity. }
  split; [reflexivity |]. split; [exact Hd |]. split; [| reflexivity].
  apply (Hpoint _ Hd).
Defined.




Lemma C8_witness :
  Steps Example.with_deps !! 1
  = Some (CloneDepsStep_as_Step Example.home Example.join Example.exec
            {| HiveMCPDir := "" |})
  /\ RunAll (init Example.with_deps Example.empty)
     = (Example.run_deps.1, Example.run_deps.2)
  /\ CheckCall 1 false None ∈ calls Example.run_deps.2
  /\ (exists before after wk,
        calls Example.run_deps.2
        = before ++ CheckCall 1 false None
            :: RunCall 1
                 (CloneDepsStep_Run Example.home Example.join Example.exec
                    {| HiveMCPDir := "" |}
                    (after_OnStart Example.with_deps Example.deps wk)).1
            :: after
        /\ performed Example.with_deps Example.empty before wk
        /\ performed Example.with_deps
             (after_OnDone Example.with_deps Example.deps false
                (CloneDepsStep_Run Example.home Example.join Example.exec
                   {| HiveMCPDir := "" |}
                   (after_OnStart Example.with_deps Example.deps wk)).1
                (CloneDepsStep_Run Example.home Example.join Example.exec
                   {| HiveMCPDir := "" |}
                   (after_OnStart Example.with_deps Example.deps wk)).2)
             after (world Example.run_deps.2)
        /\ Results (self Example.run_deps.2) !! (length (Results Example.with_deps) + 1)
           = Some {| StepName := "Download Clojure dependencies";
                     Skipped := false;
                     Error := (CloneDepsStep_Run Example.home Example.join Example.exec
                                 {| HiveMCPDir := "" |}
                                 (after_OnStart Example.with_deps Example.deps wk)).1 |})
  /\ calls Example.run_deps.2
     = [CheckCall 0 false None; RunCall 0 None; CheckCall 1 false None; RunCall 1 None]
  /\ Example.installed (world Example.run_deps.2)
     = ["A"; "clojure in /home/hive/hive-mcp"].
Proof.
  destruct (C8_deps_check_never_done Example.home Example.join Example.exec) as [_ Hrun].
  destruct (Hrun Example.with_deps Example.empty 1 {| HiveMCPDir := "" |}
              Example.run_deps.1 Example.run_deps.2 eq_refl eq_refl) as [Hrunning Hreach].
  assert (CheckCall 1 false None ∈ calls Example.run_deps.2) as Hin.
  { apply Hreach. intros j stepj Hj Hst.
    destruct j as [| j]; [| lia]. inversion Hst; subst. apply installer_completes. }
  split; [reflexivity |]. split; [reflexivity |]. split; [exact Hin |].
  destruct (Hrunning false None Hin) as (_ & _ & Hrest).
  split; [exact Hrest |]. split; reflexivity.
Defined.

Lemma C9_witness :
  Results Example.r0 = []
  /\ RunAll (init Example.r0 Example.with_A) = (Example.run0.1, Example.run0.2)
  /\ (forall j res, Results (self Example.run0.2) !! j = Some res -> Error res <> None ->
        S j = length (Results (self Example.run0.2)))
  /\ (Example.run0.1 <> None <->
      exists res, last (Results (self Example.run0.2)) = Some res /\ Error res <> None).
Proof.
  destruct (C9_error_only_in_last_result Example.r0 Example.with_A
              Example.run0.1 Example.run0.2 eq_refl eq_refl) as (Hlast & _ & Hiff).
  split; [reflexivity |]. split; [reflexivity |]. split; [exact Hlast | exact Hiff].
Defined.

Lemma C10_witness :
  is_int 7
  /\ (exists errs s',
        RollbackFrom 7 (init Example.r0 Example.with_A) = (Returned errs, s')
        /\ forall c, c ∈ calls s' -> call_index c < length (Steps Example.r0))
  /\ RollbackFrom 7 (init Example.r0 Example.with_A)
     = RollbackFrom (Z.of_nat (length (Steps Example.r0)) - 1)
         (init Example.r0 Example.with_A).
Proof.
  assert (is_int 7) as Hint by (unfold is_int, int_min, int_max; lia).
  destruct (C10_rollback_total_in_bounds Example.r0 Example.with_A 7 Hint)
    as (Hret & _ & Hbeyond).
  split; [exact Hint |]. split; [exact Hret |].
  apply Hbeyond. simpl. lia.
Defined.

(** * Further properties of the runner *)

Section Runner.

Context {W : Type}.
Implicit Types (r : Runner W) (s : state W) (step : Step W) (w : W).
Implicit Types (steps rest xs ys : list (Step W)) (rs : list Result) (cs : list call).

(** X1: whatever the state [RunAll] starts in, it leaves [Steps] and the
    observers as they are, keeps the results and the log it found and
    only appends to them, at most one result per step, and one per step
    when it returns nil. *)
Theorem RunAll_only_appends s :
  Steps (self (RunAll s).2) = Steps (self s)
  /\ OnStart (self (RunAll s).2) = OnStart (self s)
  /\ OnDone (self (RunAll s).2) = OnDone (self s)
  /\ exists rs cs,
       Results (self (RunAll s).2) = Results (self s) ++ rs
       /\ calls (RunAll s).2 = calls s ++ cs
       /\ length rs <= length (Steps (self s))
       /\ ((RunAll s).1 = None -> length rs = length (Steps (self s))).
Proof.
  destruct (RunAll s) as [err s'] eqn:Hrun. unfold RunAll in Hrun.
  apply range_loop_passes in Hrun as (rs & cs & Hps & HS & Hs & Hd & HR & HC).
  simpl. split; [assumption |]. split; [assumption |]. split; [assumption |].
  exists rs, cs. split; [assumption |]. split; [assumption |].
  split; [eapply passes_length; eauto |].
  intros ->. apply passes_ok in Hps as [? _]. assumption.
Qed.

(** The calls of a run are its passes in order: one [Check()] per
    result, on the positions from [i] on. *)
Lemma passes_checks i steps rs cs err :
  passes i steps rs cs err ->
  map call_index (filter (fun c => is_CheckCall c = true) cs) = seq i (length rs)
  /\ Forall (fun c => is_RollbackCall c = false) cs.
Proof.
  induction 1 as [| i step rest res0 cs err Hp | i step rest res0 cs rs cs' err Hp Hps [IH1 IH2]].
  - split; [reflexivity | constructor].
  - inversion Hp; subst; split; try reflexivity; repeat constructor.
  - rewrite filter_app, map_app, IH1. simpl.
    inversion Hp; subst; (split; [reflexivity |]); repeat constructor; assumption.
Qed.

(** Where an element of [l1 ++ l2] sits. *)
Lemma app_split {A : Type} (l1 : list A) : forall l2 pre post x,
  l1 ++ l2 = pre ++ x :: post ->
  (exists post1, l1 = pre ++ x :: post1 /\ post = post1 ++ l2)
  \/ (exists pre2, pre = l1 ++ pre2 /\ l2 = pre2 ++ x :: post).
Proof.
  induction l1 as [| a l1 IH]; intros l2 pre post x Heq; simpl in Heq.
  - right. exists pre. auto.
  - destruct pre as [| b pre]; simpl in Heq; inversion Heq; subst.
    + left. exists l1. auto.
    + destruct (IH _ _ _ _ H1) as [(post1 & -> & ->) | (pre2 & -> & ->)].
      * left. exists post1. auto.
      * right. exists pre2. auto.
Qed.

(** In the calls of one pass a [Run()] comes right after the [Check()]
    that answered [(false, nil)], and such a [Check()] is followed by the
    [Run()]. *)
Lemma pass_run_after_check j step res cs0 c pre post k e :
  pass j step res cs0 c -> cs0 = pre ++ RunCall k e :: post ->
  pre = [CheckCall k false None] /\ post = [].
Proof.
  intros Hp Heq.
  destruct Hp; destruct pre as [| a [| b pre]]; simpl in Heq;
    inversion Heq; subst; try (split; reflexivity);
    destruct pre; discriminate.
Qed.

Lemma pass_check_then_run j step res cs0 c pre post k :
  pass j step res cs0 c -> cs0 = pre ++ CheckCall k false None :: post ->
  pre = [] /\ exists e, post = [RunCall k e].
Proof.
  intros Hp Heq.
  destruct Hp; destruct pre as [| a [| b pre]]; simpl in Heq;
    inversion Heq; subst; try (split; [reflexivity | eauto]);
    destruct pre; discriminate.
Qed.

Lemma passes_run_after_check i steps rs cs err :
  passes i steps rs cs err ->
  forall pre post k e, cs = pre ++ RunCall k e :: post ->
  exists pre', pre = pre' ++ [CheckCall k false None].
Proof.
  induction 1 as [| i step rest res0 cs err Hp | i step rest res0 cs rs cs' err Hp Hps IH];
    intros pre post k e Heq.
  - destruct pre; discriminate.
  - exists []. eapply pass_run_after_check; eauto.
  - apply app_split in Heq as [(post1 & Hcs & _) | (pre2 & -> & Hcs')].
    + exists []. eapply pass_run_after_check; eauto.
    + destruct (IH _ _ _ _ Hcs') as (pre' & ->).
      exists (cs ++ pre'). rewrite app_assoc. reflexivity.
Qed.

Lemma passes_check_then_run i steps rs cs err :
  passes i steps rs cs err ->
  forall pre post k, cs = pre ++ CheckCall k false None :: post ->
  exists e post', post = RunCall k e :: post'.
Proof.
  induction 1 as [| i step rest res0 cs err Hp | i step rest res0 cs rs cs' err Hp Hps IH];
    intros pre post k Heq.
  - destruct pre; discriminate.
  - destruct (pass_check_then_run _ _ _ _ _ _ _ _ Hp Heq) as (_ & e & ->). eauto.
  - apply app_split in Heq as [(post1 & Hcs & ->) | (pre2 & -> & Hcs')].
    + destruct (pass_check_then_run _ _ _ _ _ _ _ _ Hp Hcs) as (_ & e & ->).
      exists e, cs'. reflexivity.
    + eapply IH; eauto.
Qed.

(** X2: the log of a run of [RunAll] is a true record of the calls the
    run made: each [Check()] in it was invoked in the world the run had
    reached (after [OnStart], when set), each [Run()] in the world the
    [Check()] before it left, each entry holds what the call returned,
    and the world the run leaves is the one its last call left (after
    [OnDone], when set).  In it the steps are probed once each, in the
    order of the slice and without gaps, up to the last result; no
    [Rollback()] is invoked; a [Run()] comes right after the [Check()] of
    the same step, which answered [(false, nil)]; and a [Check()] that
    answered [(false, nil)] is followed at once by the [Run()] of that
    step. *)
Theorem RunAll_log_discipline r w :
  performed r w (calls (RunAll (init r w)).2) (world (RunAll (init r w)).2)
  /\ map call_index (filter (fun c => is_CheckCall c = true) (calls (RunAll (init r w)).2))
     = seq 0 (length (Results (self (RunAll (init r w)).2)) - length (Results r))
  /\ Forall (fun c => is_RollbackCall c = false) (calls (RunAll (init r w)).2)
  /\ (forall pre post k e,
       calls (RunAll (init r w)).2 = pre ++ RunCall k e :: post ->
       exists pre', pre = pre' ++ [CheckCall k false None])
  /\ (forall pre post k,
       calls (RunAll (init r w)).2 = pre ++ CheckCall k false None :: post ->
       exists e post', post = RunCall k e :: post').
Proof.
  split; [apply RunAll_performed |].
  destruct (RunAll (init r w)) as [err s'] eqn:Hrun.
  apply RunAll_passes in Hrun as (rs & cs & Hps & _ & HR & HC).
  simpl in *. subst cs. rewrite HR, length_app.
  replace (length (Results r) + length rs - length (Results r)) with (length rs) by lia.
  destruct (passes_checks _ _ _ _ _ Hps) as [Hchecks Hnoroll].
  split; [exact Hchecks |]. split; [exact Hnoroll |]. split.
  - apply (passes_run_after_check _ _ _ _ _ Hps).
  - apply (passes_check_then_run _ _ _ _ _ Hps).
Qed.

(** ** Running a slice in two parts *)

Ltac run_M :=
  unfold iteration, callCheck, callRun, callRollback, onStart, onDone,
    appendResult, on_world, log, invoke, bind, mbind, mret, M_bind, M_ret in *.

(** A pass reads the results, the observers and the world, nothing else
    of the state; the position only goes to the log. *)
Lemma iteration_core i j step s t :
  Results (self s) = Results (self t) ->
  OnStart (self s) = OnStart (self t) ->
  OnDone (self s) = OnDone (self t) ->
  world s = world t ->
  (iteration i step s).1 = (iteration j step t).1
  /\ Results (self (iteration i step s).2) = Results (self (iteration j step t).2)
  /\ OnStart (self (iteration i step s).2) = OnStart (self (iteration j step t).2)
  /\ OnDone (self (iteration i step s).2) = OnDone (self (iteration j step t).2)
  /\ world (iteration i step s).2 = world (iteration j step t).2.
Proof.
  destruct s as [[S1 R1 A1 D1] w1 c1], t as [[S2 R2 A2 D2] w2 c2]. simpl.
  intros -> -> -> ->. run_M. simpl.
  destruct A2 as [f |]; simpl.
  all: match goal with |- context [Check ?st ?w0] =>
         destruct (Check st w0) as [[done [e |]] w1] end; simpl.
  all: try (destruct done; simpl).
  all: try (match goal with |- context [Run ?st ?w0] =>
         destruct (Run st w0) as [[e |] w3] end; simpl).
  all: destruct D2 as [g |]; simpl; auto.
Qed.

Lemma range_loop_core steps : forall i j s t,
  Results (self s) = Results (self t) ->
  OnStart (self s) = OnStart (self t) ->
  OnDone (self s) = OnDone (self t) ->
  world s = world t ->
  (range_loop i steps s).1 = (range_loop j steps t).1
  /\ Results (self (range_loop i steps s).2) = Results (self (range_loop j steps t).2)
  /\ world (range_loop i steps s).2 = world (range_loop j steps t).2.
Proof.
  induction steps as [| step rest IH]; intros i j s t HR HA HD HW; simpl.
  - auto.
  - unfold bind, mbind, M_bind.
    destruct (iteration_core i j step s t HR HA HD HW) as (Hc & HR' & HA' & HD' & HW').
    destruct (iteration i step s) as [c1 s1]. destruct (iteration j step t) as [c2 t1].
    simpl in *. subst c2. destruct c1 as [| e]; simpl; [| auto].
    apply IH; assumption.
Qed.

(** A pass that returns, returns an error. *)
Lemma iteration_return i step s err s' :
  iteration i step s = (Return err, s') -> err <> None.
Proof.
  intros Hit. apply iteration_pass in Hit as (res & cs & Hp & _).
  apply pass_return_error in Hp as (e & _ & [-> | ->]); discriminate.
Qed.

Lemma range_loop_app xs ys : forall i s,
  range_loop i (xs ++ ys) s
  = match range_loop i xs s with
    | (Some e, s1) => (Some e, s1)
    | (None, s1) => range_loop (i + length xs) ys s1
    end.
Proof.
  induction xs as [| step rest IH]; intros i s; simpl.
  - rewrite Nat.add_0_r. reflexivity.
  - unfold bind, mbind, M_bind.
    destruct (iteration i step s) as [c s1] eqn:Hit. destruct c as [| err].
    + rewrite IH. rewrite <- Nat.add_succ_comm. reflexivity.
    + apply iteration_return in Hit. destruct err; [reflexivity | contradiction].
Qed.

(** X3: running [RunAll] over the slice [xs ++ ys] is running it over
    [xs] and then, when that returns nil, over [ys] from the results and
    the world the first part left; when the first part fails, the second
    is not run at all: error, [Results] and world are those of the first
    part. *)
Theorem RunAll_in_two_parts r xs ys w :
  let whole := RunAll (init (with_Steps r (xs ++ ys)) w) in
  let first := RunAll (init (with_Steps r xs) w) in
  let second := RunAll (init (with_Steps (self first.2) ys) (world first.2)) in
  match first.1 with
  | Some e =>
      whole.1 = Some e
      /\ Results (self whole.2) = Results (self first.2)
      /\ world whole.2 = world first.2
  | None =>
      whole.1 = second.1
      /\ Results (self whole.2) = Results (self second.2)
      /\ world whole.2 = world second.2
  end.
Proof.
  unfold RunAll. simpl. rewrite range_loop_app.
  pose proof (range_loop_core xs 0 0 (init (with_Steps r (xs ++ ys)) w)
                (init (with_Steps r xs) w) eq_refl eq_refl eq_refl eq_refl)
    as (He & HR & HW).
  destruct (range_loop 0 xs (init (with_Steps r (xs ++ ys)) w)) as [e1 s1] eqn:H1.
  destruct (range_loop 0 xs (init (with_Steps r xs) w)) as [e2 s2] eqn:H2.
  simpl in *. subst e2. destruct e1 as [e |]; [auto |].
  apply range_loop_passes in H1 as (_ & _ & _ & _ & HA1 & HD1 & _).
  apply range_loop_passes in H2 as (_ & _ & _ & _ & HA2 & HD2 & _).
  simpl in *. apply range_loop_core; simpl; congruence.
Qed.

(** ** Rolling back *)

Lemma length_omap_le {A B : Type} (f : A -> option B) (l : list A) :
  length (omap f l) <= length l.
Proof.
  induction l as [| a l IH]; simpl; [lia |].
  change (list_omap A B f l) with (omap f l).
  destruct (f a); simpl; change (list_omap A B f l) with (omap f l); lia.
Qed.

(** [RollbackFrom] for any [int] index, as its log. *)
Lemma RollbackFrom_log r w (index : Z) :
  is_int index ->
  exists s',
    RollbackFrom index (init r w)
      = (Returned (omap (rollback_error (Steps r)) (calls s')), s')
    /\ self s' = r
    /\ Forall (fun c => is_RollbackCall c = true) (calls s')
    /\ map call_index (calls s')
       = rev (seq 0 (Z.to_nat (Z.min (index + 1) (Z.of_nat (length (Steps r)))))).
Proof.
  intros [Hmin Hmax]. unfold RollbackFrom.
  assert (forall n, n <= length (Steps r) -> (Z.of_nat n - 1 <= int_max)%Z ->
    exists s',
      rollback_loop (Z.of_nat n - 1) [] (init r w)
        = (Returned (omap (rollback_error (Steps r)) (calls s')), s')
      /\ self s' = r
      /\ Forall (fun c => is_RollbackCall c = true) (calls s')
      /\ map call_index (calls s') = rev (seq 0 n)) as Hin.
  { intros n Hn Hn'.
    destruct (rollback_loop_inside n [] (init r w))
      as (cs & s' & Heq & Hself & Hcalls & Hmap & Hall); [exact Hn | exact Hn' |].
    simpl in *. subst cs. exists s'. auto. }
  destruct (Z_lt_dec index (Z.of_nat (length (Steps r)))) as [Hlt | Hge].
  - destruct (Hin (Z.to_nat (index + 1))) as (s' & Heq & ?);
      [lia | unfold int_max in *; lia |].
    replace (Z.min (index + 1) (Z.of_nat (length (Steps r)))) with (index + 1)%Z by lia.
    destruct (Z_lt_dec index 0) as [Hneg | Hpos].
    + exists (init r w). replace (Z.to_nat (index + 1)) with 0 by lia.
      rewrite rollback_loop_once. destruct (decide (0 <= index)%Z); [lia |].
      simpl. auto.
    + replace (Z.of_nat (Z.to_nat (index + 1)) - 1)%Z with index in Heq by lia.
      exists s'. auto.
  - destruct (Hin (length (Steps r))) as (s' & Heq & ?); [lia | unfold int_max in *; lia |].
    replace (Z.min (index + 1) (Z.of_nat (length (Steps r))))
      with (Z.of_nat (length (Steps r))) by lia.
    rewrite Nat2Z.id. exists s'. split; [| assumption].
    rewrite <- Heq.
    pose proof (rollback_loop_outside
      (Z.to_nat (index - (Z.of_nat (length (Steps r)) - 1))) [] (init r w)) as H'.
    simpl in H'.
    replace (Z.of_nat (length (Steps r)) - 1
             + Z.of_nat (Z.to_nat (index - (Z.of_nat (length (Steps r)) - 1))))%Z
      with index in H' by lia.
    apply H'. unfold int_max in *. lia.
Qed.

(** X4: for every [int] index [RollbackFrom] leaves the runner as it is
    ([Steps], [Results], observers), invokes nothing but [Rollback()],
    once on each of the first [min(index + 1, len(Steps))] positions,
    counted down to 0, and returns one wrapped error per failed call: never
    more errors than calls, never more calls than steps.  The log is a
    true record: each of these [Rollback()]s was invoked, the first in
    the world [RollbackFrom] was called in, the next in the world the one
    before it left; each entry holds what the call returned, and the
    world left is the one the last call left. *)
Theorem RollbackFrom_only_rolls_back r w (index : Z) :
  is_int index ->
  exists errs s',
    RollbackFrom index (init r w) = (Returned errs, s')
    /\ self s' = r
    /\ Forall (fun c => is_RollbackCall c = true) (calls s')
    /\ map call_index (calls s')
       = rev (seq 0 (Z.to_nat (Z.min (index + 1) (Z.of_nat (length (Steps r))))))
    /\ rolled_back (Steps r) w (calls s') (world s')
    /\ errs = omap (rollback_error (Steps r)) (calls s')
    /\ length errs <= length (calls s') <= length (Steps r).
Proof.
  intros Hint.
  destruct (RollbackFrom_log r w index Hint) as (s' & Heq & Hself & Hall & Hmap).
  destruct (rollback_loop_rolled (Z.to_nat (index + 1)) index [] (init r w) (le_n _))
    as (cs & Hcs & _ & Hrolled).
  unfold RollbackFrom in Heq. rewrite Heq in Hcs, Hrolled. simpl in Hcs, Hrolled. subst cs.
  exists (omap (rollback_error (Steps r)) (calls s')), s'.
  split; [assumption |]. split; [assumption |]. split; [assumption |].
  split; [assumption |]. split; [assumption |]. split; [reflexivity |].
  split; [apply length_omap_le |].
  rewrite <- (length_map call_index), Hmap, length_rev, length_seq. lia.
Qed.

(** X5: after a run of [RunAll] on a fresh runner, rolling back from the
    position of the last result invokes [Rollback()] on exactly the steps
    the run probed (the skipped ones and the failed one included), in the
    reverse order: the log of the rollback holds nothing but
    [Rollback()]s, on the positions the run probed, reversed, and it is a
    true record, each call invoked on the step of [Steps] at that
    position, the first in the world the run left, the next in the world
    the one before it left. *)
Theorem rollback_visits_what_ran r w :
  Results r = [] ->
  is_int (Z.of_nat (length (Steps r))) ->
  exists errs s',
    RollbackFrom (Z.of_nat (length (Results (self (RunAll (init r w)).2))) - 1)
      (init (self (RunAll (init r w)).2) (world (RunAll (init r w)).2))
    = (Returned errs, s')
    /\ map call_index (calls s')
       = rev (map call_index
                (filter (fun c => is_CheckCall c = true) (calls (RunAll (init r w)).2)))
    /\ Forall (fun c => is_RollbackCall c = true) (calls s')
    /\ rolled_back (Steps r) (world (RunAll (init r w)).2) (calls s') (world s')
    /\ errs = omap (rollback_error (Steps r)) (calls s').
Proof.
  intros Hfresh [_ Hmax].
  destruct (RunAll (init r w)) as [err s1] eqn:Hrun.
  apply RunAll_passes in Hrun as (rs & cs & Hps & HS & HR & HC).
  simpl in *. rewrite Hfresh in HR. simpl in HR. subst cs.
  destruct (passes_checks _ _ _ _ _ Hps) as [Hchecks _].
  pose proof (passes_length _ _ _ _ _ Hps) as Hlen.
  assert (is_int (Z.of_nat (length (Results (self s1))) - 1)) as Hint.
  { rewrite HR. unfold is_int, int_min, int_max in *. lia. }
  destruct (RollbackFrom_log (self s1) (world s1) _ Hint) as (s' & Heq & _ & Hall & Hmap).
  destruct (rollback_loop_rolled
              (Z.to_nat (Z.of_nat (length (Results (self s1))) - 1 + 1))
              (Z.of_nat (length (Results (self s1))) - 1) [] (init (self s1) (world s1))
              (le_n _)) as (cs & Hcs & _ & Hrolled).
  unfold RollbackFrom in Heq. rewrite Heq in Hcs, Hrolled. simpl in Hcs, Hrolled. subst cs.
  rewrite HS in Hrolled, Heq.
  eexists _, s'. split; [exact Heq |].
  split; [rewrite Hmap, Hchecks, HS, HR; f_equal; f_equal; lia |].
  split; [exact Hall |]. split; [exact Hrolled | reflexivity].
Qed.

(** ** [NewRunner] and the convenience [RunAll] *)

(** X6: the observers [NewRunner] installs do nothing but print.  When
    printing is invisible to the steps (they respect a relation [R] on
    worlds that [Printf] preserves), [RunAll(steps)] returns the error
    that a runner without observers returns, records the same results,
    and leaves a world the steps cannot tell apart. *)
Theorem RunAll_steps_only_prints
    (Printf : string -> W -> W) (R : W -> W -> Prop) steps w :
  Equivalence R ->
  (forall line w0, R w0 (Printf line w0)) ->
  (forall step, step ∈ steps -> step_respects R step) ->
  (RunAll_steps Printf steps w).1 = (RunAll (init (bare steps) w)).1
  /\ R (RunAll_steps Printf steps w).2 (world (RunAll (init (bare steps) w)).2)
  /\ Results (self (RunAll (init (NewRunner Printf steps) w)).2)
     = Results (self (RunAll (init (bare steps) w)).2).
Proof.
  intros HE Hprint Hsteps.
  destruct (RunAll_alike R (NewRunner Printf steps) (bare steps) w HE eq_refl eq_refl Hsteps)
    as (He & HR & _ & HW).
  - split.
    + intros f step w0 Hf. inversion Hf; subst. apply Hprint.
    + intros g step skipped err w0 Hg. inversion Hg; subst. unfold defaultOnDone.
      destruct err; [| destruct skipped]; apply Hprint.
  - split; intros; discriminate.
  - unfold RunAll_steps.
    destruct (RunAll (init (NewRunner Printf steps) w)) as [e s1]. simpl in *. auto.
Qed.

(** ** Where the results of [RollbackFrom] come from *)

(** Every call the loop logs is a [Rollback()] of a step of the slice,
    with what that call returned. *)
Lemma rollback_loop_outcomes (n : nat) : forall (i : Z) (errors : list error) s,
  Z.to_nat (i + 1) <= n ->
  exists cs,
    calls (rollback_loop i errors s).2 = calls s ++ cs
    /\ Steps (self (rollback_loop i errors s).2) = Steps (self s)
    /\ Forall (fun c => exists step w0,
                 Steps (self s) !! call_index c = Some step
                 /\ c = RollbackCall (call_index c) (Rollback step w0).1) cs.
Proof.
  induction n as [| n IH]; intros i errors s Hn; rewrite rollback_loop_once.
  - destruct (decide (0 <= i)%Z); [lia |]. exists []. simpl. rewrite app_nil_r. auto.
  - destruct (decide (0 <= i)%Z) as [Hge |]; [| exists []; simpl; rewrite app_nil_r; auto].
    pose proof (int_dec_lt i Hge) as Hdec.
    unfold rollback_body, at_index.
    destruct (Z.ltb_spec i (Z.of_nat (length (Steps (self s))))) as [Hlt | Hout].
    + destruct (Z.ltb_spec i 0); [lia |].
      destruct (lookup_lt_is_Some_2 (Steps (self s)) (Z.to_nat i)) as [step Hst]; [lia |].
      rewrite Hst.
      unfold callRollback, invoke, log, bind, mbind, mret, M_bind, M_ret.
      destruct (Rollback step (world s)) as [err w'] eqn:Hrb.
      assert (err = (Rollback step (world s)).1) as Herr by (rewrite Hrb; reflexivity).
      destruct err as [e |]; simpl.
      all: match goal with |- context [rollback_loop _ ?errs ?st] =>
             destruct (IH (int_dec i) errs st) as (cs & Hcs & HS & Hall); [lia |] end.
      all: simpl in Hcs, HS, Hall.
      all: exists (RollbackCall (Z.to_nat i) (Rollback step (world s)).1 :: cs).
      all: rewrite <- Herr; split; [rewrite Hcs, <- app_assoc; reflexivity |].
      all: split; [assumption |]; constructor; [| assumption].
      all: exists step, (world s); simpl; rewrite <- Herr; auto.
    + destruct (IH (int_dec i) errors s) as (cs & Hcs & HS & Hall); [lia |].
      exists cs. auto.
Qed.

(** ** What the error of a run is *)


(** A step whose probe always answers "not done" is run whenever it is
    probed, and is never recorded as skipped. *)
Lemma passes_never_done i steps rs cs err k step x :
  passes i steps rs cs err ->
  steps !! k = Some step ->
  (forall w0, (Check step w0).1 = (false, None)) ->
  x ∈ cs -> call_index x = i + k ->
  (exists e', RunCall (i + k) e' ∈ cs
     /\ rs !! k = Some {| StepName := Name step; Skipped := false; Error := e' |})
  /\ (x = CheckCall (i + k) false None \/ exists e', x = RunCall (i + k) e').
Proof.
  intros Hps Hst Hnever Hx Hi.
  destruct (passes_call_result _ _ _ _ _ _ Hps Hx) as (j & res & Hi' & Hj).
  assert (j = k) as -> by lia.
  destruct (passes_at _ _ _ _ _ Hps _ _ Hj) as (st & cs0 & c & Hst' & Hp & Hall & Hsub & _).
  rewrite Hst in Hst'. inversion Hst'; subst st.
  pose proof (Hall _ Hx Hi) as Hx0.
  inversion Hp as [w0 d e0 Hck | w0 Hck | w0 w1 Hck Hr | w0 w1 e0 Hck Hr]; subst;
    rewrite Hnever in Hck; try discriminate Hck.
  - split.
    + exists None. split; [apply Hsub, list_elem_of_further, list_elem_of_here | assumption].
    + apply elem_of_cons in Hx0 as [-> | Hx0]; [auto |].
      apply elem_of_cons in Hx0 as [-> | Hx0]; [eauto | inversion Hx0].
  - split.
    + exists (Some e0).
      split; [apply Hsub, list_elem_of_further, list_elem_of_here | assumption].
    + apply elem_of_cons in Hx0 as [-> | Hx0]; [auto |].
      apply elem_of_cons in Hx0 as [-> | Hx0]; [eauto | inversion Hx0].
Qed.

End Runner.

(** * Properties of the steps *)

Section StepsProperties.

Context {W : Type} {os : OS W}.
Implicit Types (r : Runner W) (s : state W) (step : Step W) (w : W).

(** ** The installation directory *)

(** X7: [ExpandPath] applied twice is [ExpandPath] applied once, and when
    the home directory is known its result does not begin with [~],
    provided a known home directory is not empty and does not itself begin
    with [~]; a path that does not begin with [~] is returned as it
    is. *)
Theorem ExpandPath_idempotent (home : W -> string * option error) (path : string) w :
  (forall h, home w = (h, None) -> exists c rest, h = String c rest /\ c <> "~"%char) ->
  ExpandPath home (ExpandPath home path w) w = ExpandPath home path w
  /\ ((home w).2 = None -> forall rest, ExpandPath home path w <> String "~" rest)
  /\ (forall c rest, path = String c rest -> c <> "~"%char ->
      ExpandPath home path w = path).
Proof.
  intros Hhome. unfold ExpandPath.
  destruct path as [| c rest].
  - split; [reflexivity |]. split; [discriminate |]. intros; discriminate.
  - destruct (Ascii.eqb_spec c "~"%char) as [-> | Hne].
    + destruct (home w) as [h [e |]] eqn:Hh; simpl.
      * rewrite ?Ascii.eqb_refl, ?Hh. split; [reflexivity |]. split; [discriminate |].
        intros c rest' Heq Hc. inversion Heq; subst. contradiction.
      * destruct (Hhome h eq_refl) as (c & hrest & -> & Hc). simpl.
        destruct (Ascii.eqb_spec c "~"%char) as [-> | _]; [contradiction |].
        split; [reflexivity |]. split.
        -- intros _ rest' Heq. inversion Heq; subst. contradiction.
        -- intros c' rest' Heq Hc'. inversion Heq; subst. contradiction.
    + destruct (Ascii.eqb_spec c "~"%char) as [-> | _]; [contradiction |].
      split; [reflexivity |]. split.
      * intros _ rest' Heq. inversion Heq; subst. contradiction.
      * reflexivity.
Qed.

(** X8: the five steps that take a [HiveMCPDir] resolve it by five
    methods of their own ([targetDir], [hiveMCPDir]) to one and the same
    directory, and that directory depends on the world through the home
    directory only: the dependencies are downloaded, the services started
    and the server registered in the directory that was cloned into, as
    long as the home directory stays what it was. *)
Theorem steps_share_the_directory (dir : string) w1 w2 :
  os_UserHomeDir w1 = os_UserHomeDir w2 ->
  CloneStep_targetDir {| CloneStep_HiveMCPDir := dir |} w1
  = CloneDepsStep_targetDir os_UserHomeDir filepath_Join {| HiveMCPDir := dir |} w2
  /\ CloneStep_targetDir {| CloneStep_HiveMCPDir := dir |} w1
     = ShellStep_hiveMCPDir {| ShellStep_HiveMCPDir := dir |} w2
  /\ CloneStep_targetDir {| CloneStep_HiveMCPDir := dir |} w1
     = ChromaStep_hiveMCPDir {| ChromaStep_HiveMCPDir := dir |} w2
  /\ CloneStep_targetDir {| CloneStep_HiveMCPDir := dir |} w1
     = MCPStep_hiveMCPDir {| MCPStep_HiveMCPDir := dir |} w2.
Proof.
  intros Hhome.
  unfold CloneStep_targetDir, CloneDepsStep_targetDir, ShellStep_hiveMCPDir,
    ChromaStep_hiveMCPDir, MCPStep_hiveMCPDir, setup_expandPath, setup_DefaultHiveMCPDir,
    expandPath, ExpandPath, DefaultHiveMCPDir. simpl.
  rewrite Hhome. auto.
Qed.

(** ** The probes of the steps *)





Lemma EmacsDaemonStep_Check_no_error w : (EmacsDaemonStep_Check w).1.2 = None.
Proof. unfold EmacsDaemonStep_Check. destruct (Cmd_Run _ w) as [[e |] w1]; reflexivity. Qed.


(** Case analysis on the nine steps of the command. *)
Ltac each_setup_step H :=
  unfold setupSteps in H;
  repeat (apply elem_of_cons in H as [-> | H]); [.. | inversion H].



(** ** Rolling back the steps of the command *)

(** X10: rolled back over the nine steps of the command, from any [int]
    index, only the clone, shell, Chroma and MCP steps can contribute an
    error: the rollbacks of the prerequisites, dependencies, Doom, Ollama
    and Emacs daemon steps return nil whatever happens.  Every error
    [RollbackFrom] returns is "rollback NAME: ..." with one of those four
    names. *)
Theorem setup_rollback_errors (platform : string) r w (index : Z) :
  is_int index ->
  Steps r = setupSteps platform ->
  exists errs s',
    RollbackFrom index (init r w) = (Returned errs, s')
    /\ forall e, e ∈ errs ->
         exists name e0,
           e = rollback_failed name e0
           /\ name ∈ ["Clone hive-mcp repository"; "Configure shell environment";
                      "Start Docker services (Chroma)";
                      "Register MCP server with Claude CLI"].
Proof.
  intros Hint HS.
  destruct (RollbackFrom_log r w index Hint) as (s' & Heq & _ & _ & _).
  exists (omap (rollback_error (Steps r)) (calls s')), s'. split; [exact Heq |].
  intros e He. apply list_elem_of_omap in He as (c & Hc & Hre).
  unfold RollbackFrom in Heq.
  destruct (rollback_loop_outcomes (Z.to_nat (index + 1)) index [] (init r w) ltac:(lia))
    as (cs & Hcs & _ & Hall).
  rewrite Heq in Hcs. simpl in Hcs, Hall. subst cs.
  rewrite Forall_forall in Hall. destruct (Hall c Hc) as (step & w0 & Hst & Hceq).
  rewrite Hceq in Hre. simpl in Hre. rewrite Hst in Hre.
  destruct (Rollback step w0) as [[e0 |] w1] eqn:Hrb; simpl in Hre; [| discriminate].
  inversion Hre; subst e. exists (Name step), e0. split; [reflexivity |].
  apply list_elem_of_lookup_2 in Hst. rewrite HS in Hst.
  each_setup_step Hst; simpl in *; try discriminate Hrb;
    rewrite !elem_of_cons; auto 10.
Qed.

(** ** The prerequisites *)

(** X11: on a platform other than darwin and linux the command cannot
    install anything: when the run finds one of the six binaries missing
    (the probe of the prerequisites step answers "not done"), it stops
    there with "unsupported platform: PLATFORM" after three results, and
    no later step is probed or run. *)
Theorem unsupported_platform_stops_setup (platform : string) r w :
  platform <> "darwin" ->
  platform <> "linux" ->
  Steps r = setupSteps platform ->
  Results r = [] ->
  CheckCall 2 false None ∈ calls (RunAll (init r w)).2 ->
  (RunAll (init r w)).1
  = Some (step_failed "Install system prerequisites"
            (errorString ("unsupported platform: " +:+ platform)))
  /\ length (Results (self (RunAll (init r w)).2)) = 3
  /\ forall c, c ∈ calls (RunAll (init r w)).2 -> call_index c <= 2.
Proof.
  intros Hd Hl HS Hfresh Hin.
  destruct (RunAll (init r w)) as [err s'] eqn:Hrun.
  apply RunAll_passes in Hrun as (rs & cs & Hps & _ & HR & HC).
  simpl in *. rewrite Hfresh in HR. simpl in HR. subst cs. rewrite HR, HS in *. clear HR.
  destruct (passes_call_pass _ _ _ _ _ _ Hps Hin)
    as (j & step & res & cs0 & c & Hi & Hst & Hj & Hp & Hin0 & _ & Hc).
  simpl in Hi. subst j. simpl in Hst. inversion Hst; subst step; clear Hst.
  assert (forall w0, PrerequisitesStep_Run {| Platform := platform |} w0
                     = (Some (errorString ("unsupported platform: " +:+ platform)), w0)) as Hrun.
  { intros w0. unfold PrerequisitesStep_Run. simpl.
    apply String.eqb_neq in Hd, Hl. rewrite Hd, Hl. reflexivity. }
  inversion Hp as [w0 d e0 Hck | w0 Hck | w0 w1 Hck Hr | w0 w1 e0 Hck Hr]; subst;
    simpl in Hin0.
  - apply elem_of_cons in Hin0 as [Hx | Hx]; [discriminate Hx | inversion Hx].
  - apply elem_of_cons in Hin0 as [Hx | Hx]; [discriminate Hx | inversion Hx].
  - simpl in Hr. rewrite Hrun in Hr. discriminate.
  - simpl in Hr. rewrite Hrun in Hr. inversion Hr; subst e0.
    destruct Hc as [<- Hlen]. split; [reflexivity |]. split; [lia |].
    intros x Hx. apply (passes_calls_index _ _ _ _ _ _ Hps) in Hx. lia.
Qed.

(** X12: on darwin, with Homebrew on the path, the prerequisites step
    never stops the run, whatever [brew install] does: when the run
    reaches it, it goes on to probe the dependency download. *)
Theorem darwin_prerequisites_never_stop r w :
  (forall w0, exec_LookPath "brew" w0 = None) ->
  Steps r = setupSteps "darwin" ->
  (exists done e, CheckCall 2 done e ∈ calls (RunAll (init r w)).2) ->
  CheckCall 3 false None ∈ calls (RunAll (init r w)).2
  /\ exists res, Results (self (RunAll (init r w)).2) !! (length (Results r) + 2) = Some res
       /\ Error res = None.
Proof.
  intros Hbrew HS (done & e & Hin).
  destruct (RunAll (init r w)) as [err s'] eqn:Hrun.
  apply RunAll_passes in Hrun as (rs & cs & Hps & _ & HR & HC).
  simpl in *. subst cs. rewrite HS in *.
  destruct (passes_call_pass _ _ _ _ _ _ Hps Hin)
    as (j & step & res & cs0 & c & Hi & Hst & Hj & Hp & Hin0 & _ & Hc).
  simpl in Hi. subst j. simpl in Hst. inversion Hst; subst step; clear Hst.
  assert (c = Continue) as ->.
  { inversion Hp as [w0 d e0 Hck | w0 Hck | w0 w1 Hck Hr | w0 w1 e0 Hck Hr]; subst;
      try reflexivity; exfalso.
    - simpl in Hck. discriminate.
    - simpl in Hr. unfold PrerequisitesStep_Run, PrerequisitesStep_installDarwin in Hr.
      simpl in Hr. rewrite Hbrew in Hr. discriminate. }
  destruct Hc as [Hlt | (Hthree & _ & Hlen)]; [| simpl in Hlen; lia].
  split.
  - destruct (lookup_lt_is_Some_2 rs 3 Hlt) as [res3 H3].
    destruct (passes_at _ _ _ _ _ Hps _ _ H3) as (st & cs1 & c1 & Hst & Hp1 & _ & Hsub & _).
    simpl in Hst. inversion Hst; subst st. apply Hsub.
    inversion Hp1 as [w0 d e0 Hck | w0 Hck | w0 w1 Hck Hr | w0 w1 e0 Hck Hr]; subst;
      simpl in Hck; try discriminate Hck; apply list_elem_of_here.
  - exists res. split.
    + rewrite HR, lookup_app_r by lia.
      replace (length (Results r) + 2 - length (Results r)) with 2 by lia. assumption.
    + apply pass_continue_no_error in Hp as [? _]. assumption.
Qed.

(** ** Steps that are always run *)

(** X13: [DoomSyncStep.Check] answers "not done" in every world;
    whenever a run of [RunAll] probes the step, at whatever position of
    whatever list, its [Run()] is invoked: right after the probe in the
    log comes the [Run()] of that step, invoked in the world the run had
    reached (after [OnStart], when set), with the error that call
    returned, which is also the error of the step's result, never a
    skip; the calls before were made as the log says, and the run goes
    on from the world [Run()] left. *)
Theorem DoomSyncStep_always_runs r w k :
  Steps r !! k = Some DoomSyncStep_as_Step ->
  forall done e, CheckCall k done e ∈ calls (RunAll (init r w)).2 ->
    done = false /\ e = None
    /\ exists before after wk,
         calls (RunAll (init r w)).2
         = before ++ CheckCall k false None
             :: RunCall k (DoomSyncStep_Run (after_OnStart r DoomSyncStep_as_Step wk)).1
             :: after
         /\ performed r w before wk
         /\ performed r
              (after_OnDone r DoomSyncStep_as_Step false
                 (DoomSyncStep_Run (after_OnStart r DoomSyncStep_as_Step wk)).1
                 (DoomSyncStep_Run (after_OnStart r DoomSyncStep_as_Step wk)).2)
              after (world (RunAll (init r w)).2)
         /\ Results (self (RunAll (init r w)).2) !! (length (Results r) + k)
            = Some {| StepName := "Sync Doom Emacs packages";
                      Skipped := false;
                      Error := (DoomSyncStep_Run
                                  (after_OnStart r DoomSyncStep_as_Step wk)).1 |}.
Proof.
  intros Hk done e Hin.
  destruct (RunAll (init r w)) as [err s'] eqn:Hrun.
  apply (never_done_is_run r w k DoomSyncStep_as_Step err s' Hk (fun _ => eq_refl) Hrun
           done e Hin).
Qed.

(** ** Steps that verify their work *)




(** [EmacsDaemonStep.Run] returns nil only when, after starting the
    daemon and waiting, its own [Check()] answered "done": the world it
    leaves is the one that probe left.  Otherwise its error is "failed to
    start Emacs daemon: ..." or "Emacs daemon started but not
    responding". *)
Lemma EmacsDaemonStep_Run_verifies w :
  match EmacsDaemonStep_Run w with
  | (None, w') => exists w0, EmacsDaemonStep_Check w0 = ((true, None), w')
  | (Some e, _) =>
      (exists e0, e = Errorf_w "failed to start Emacs daemon: " e0)
      \/ e = errorString "Emacs daemon started but not responding"
  end.
Proof.
  unfold EmacsDaemonStep_Run.
  destruct (Cmd_Run (with_Stdio (exec_Command "emacs" ["--daemon"])) w) as [[e |] w1]; [eauto |].
  pose proof (EmacsDaemonStep_Check_no_error (time_Sleep (2 * time_Second) w1)) as Hno.
  destruct (EmacsDaemonStep_Check (time_Sleep (2 * time_Second) w1)) as [[done err] w3] eqn:Hck.
  simpl in Hno. subst err. destruct done; simpl; eauto.
Qed.

(** ** Cloning and rolling back *)

(** X15: [RollbackFrom] also rolls back steps that were skipped, and the
    rollback of [CloneStep] removes the target directory whenever it
    exists.  So when [RunAll] finds the repository already cloned it
    skips the step and touches nothing, and a rollback after that run
    removes that repository: it invokes [os.RemoveAll] on the target
    directory and returns its error, if any, as "rollback Clone hive-mcp
    repository: ...". *)
Theorem rollback_removes_existing_repository (c : CloneStep) w :
  os_Stat (filepath_Join (CloneStep_targetDir c w) ".git") w = None ->
  os_Stat (CloneStep_targetDir c w) w = None ->
  RunAll (init (bare [CloneStep_as_Step c]) w)
  = (None,
     {| self := {| Steps := [CloneStep_as_Step c];
                   Results := [ {| StepName := "Clone hive-mcp repository";
                                   Skipped := true; Error := None |} ];
                   OnStart := None; OnDone := None |};
        world := w;
        calls := [CheckCall 0 true None] |})
  /\ (RollbackFrom 0
        (init (self (RunAll (init (bare [CloneStep_as_Step c]) w)).2)
              (world (RunAll (init (bare [CloneStep_as_Step c]) w)).2))).1
     = Returned match (os_RemoveAll (CloneStep_targetDir c w) w).1 with
                | Some e => [rollback_failed "Clone hive-mcp repository" e]
                | None => []
                end
  /\ world (RollbackFrom 0
        (init (self (RunAll (init (bare [CloneStep_as_Step c]) w)).2)
              (world (RunAll (init (bare [CloneStep_as_Step c]) w)).2))).2
     = (os_RemoveAll (CloneStep_targetDir c w) w).2.
Proof.
  intros Hgit Hdir.
  assert (RunAll (init (bare [CloneStep_as_Step c]) w)
    = (None,
       {| self := {| Steps := [CloneStep_as_Step c];
                     Results := [ {| StepName := "Clone hive-mcp repository";
                                     Skipped := true; Error := None |} ];
                     OnStart := None; OnDone := None |};
          world := w;
          calls := [CheckCall 0 true None] |})) as Hrun.
  { unfold RunAll, bare, init. simpl.
    unfold bind, mbind, M_bind, iteration, bind, mbind, M_bind, onStart, callCheck,
      bind, mbind, M_bind, invoke. simpl.
    unfold CloneStep_Check. rewrite Hgit. reflexivity. }
  split; [exact Hrun |]. rewrite Hrun. simpl.
  unfold RollbackFrom. rewrite rollback_loop_once.
  destruct (decide (0 <= 0)%Z); [| lia].
  unfold rollback_body, at_index. simpl.
  unfold callRollback, invoke, log, bind, mbind, mret, M_bind, M_ret. simpl.
  unfold CloneStep_Rollback. rewrite Hdir.
  destruct (os_RemoveAll (CloneStep_targetDir c w) w) as [[e |] w1]; simpl;
    rewrite rollback_loop_once;
    (destruct (decide (0 <= int_dec 0)%Z) as [Hge |]; [vm_compute in Hge; contradiction |]);
    split; reflexivity.
Qed.

End StepsProperties.

(** * The managed section of the shell files *)

Section Shell.

Implicit Types (line l : string) (lines scanned before inner after : list string).

(** ** The scanning loop *)

Lemma keepOutside_acc scanned : forall inSection lines,
  keepOutside inSection lines scanned = lines ++ keepOutside inSection [] scanned.
Proof.
  induction scanned as [| line rest IH]; intros inSection lines; simpl.
  - rewrite app_nil_r. reflexivity.
  - fold startMarker endMarker.
    destruct (strings_Contains line startMarker); [apply IH |].
    destruct (strings_Contains line endMarker); [apply IH |].
    destruct inSection; simpl; [apply IH |].
    rewrite IH, (IH false [line]), <- app_assoc. reflexivity.
Qed.

Lemma keepOutside_step inSection line rest :
  keepOutside inSection [] (line :: rest)
  = if strings_Contains line startMarker then keepOutside true [] rest
    else if strings_Contains line endMarker then keepOutside false [] rest
    else if inSection then keepOutside true [] rest
    else line :: keepOutside false [] rest.
Proof.
  simpl. fold startMarker endMarker.
  destruct (strings_Contains line startMarker); [reflexivity |].
  destruct (strings_Contains line endMarker); [reflexivity |].
  destruct inSection; simpl; [reflexivity |].
  rewrite keepOutside_acc. reflexivity.
Qed.

Lemma keepOutside_plain scanned : forall inSection,
  Forall plain (keepOutside inSection [] scanned)
  /\ keepOutside inSection [] scanned `sublist_of` scanned.
Proof.
  induction scanned as [| line rest IH]; intros inSection.
  - split; [constructor | reflexivity].
  - rewrite keepOutside_step.
    destruct (strings_Contains line startMarker) eqn:Hs;
      [destruct (IH true); split; [| apply sublist_cons]; assumption |].
    destruct (strings_Contains line endMarker) eqn:He;
      [destruct (IH false); split; [| apply sublist_cons]; assumption |].
    destruct inSection.
    + destruct (IH true); split; [| apply sublist_cons]; assumption.
    + destruct (IH false). split; [| apply sublist_skip; assumption].
      constructor; [split |]; assumption.
Qed.

(** Outside a section, plain lines are kept as they are. *)
Lemma keepOutside_all_plain before : forall rest,
  Forall plain before ->
  keepOutside false [] (before ++ rest) = before ++ keepOutside false [] rest.
Proof.
  induction before as [| line before IH]; intros rest Hplain; [reflexivity |].
  inversion Hplain as [| ? ? [Hs He] Hrest]; subst.
  simpl app. rewrite keepOutside_step, Hs, He, IH by assumption. reflexivity.
Qed.

(** Inside a section, everything up to the next END line is dropped. *)
Lemma keepOutside_inside inner : forall rest,
  Forall (fun line => strings_Contains line endMarker = false) inner ->
  keepOutside true [] (inner ++ rest) = keepOutside true [] rest.
Proof.
  induction inner as [| line inner IH]; intros rest Hinner; [reflexivity |].
  inversion Hinner as [| ? ? He Hrest]; subst.
  simpl app. rewrite keepOutside_step, He.
  destruct (strings_Contains line startMarker); apply IH; assumption.
Qed.

(** ** The trailing empty lines *)

Lemma last_snoc_string lines l : last (lines ++ [l]) = Some l.
Proof. apply last_snoc. Qed.

Lemma dropTrailingEmpty_spec (fuel : nat) : forall lines,
  length lines <= fuel ->
  (exists k, lines = dropTrailingEmpty fuel lines ++ replicate k "")
  /\ last (dropTrailingEmpty fuel lines) <> Some "".
Proof.
  induction fuel as [| fuel IH]; intros lines Hlen.
  - destruct lines; [| simpl in Hlen; lia]. simpl. split; [exists 0; reflexivity | discriminate].
  - simpl. destruct (last lines) as [l |] eqn:Hlast.
    + destruct (String.eqb_spec l "") as [-> | Hne].
      * destruct lines as [| x lines'] using rev_ind; [discriminate |].
        rewrite last_snoc in Hlast. inversion Hlast; subst x.
        rewrite removelast_last.
        destruct (IH lines') as [(k & Hk) Hl]; [rewrite length_app in Hlen; simpl in Hlen; lia |].
        split; [| assumption].
        exists (S k). rewrite replicate_S_end, app_assoc, <- Hk. reflexivity.
      * split; [exists 0; rewrite app_nil_r; reflexivity |].
        rewrite Hlast. intros Heq. inversion Heq. contradiction.
    + split; [exists 0; rewrite app_nil_r; reflexivity |]. rewrite Hlast. discriminate.
Qed.

(** Lines that do not end in an empty line are left alone. *)
Lemma dropTrailingEmpty_id (fuel : nat) lines :
  last lines <> Some "" -> dropTrailingEmpty fuel lines = lines.
Proof.
  intros Hlast. destruct fuel as [| fuel]; [reflexivity |]. simpl.
  destruct (last lines) as [l |]; [| reflexivity].
  destruct (String.eqb_spec l "") as [-> | _]; [contradiction | reflexivity].
Qed.

(** Empty lines at the end are dropped, however many. *)
Lemma dropTrailingEmpty_replicate (k : nat) : forall lines fuel,
  length lines + k <= fuel ->
  last lines <> Some "" ->
  dropTrailingEmpty fuel (lines ++ replicate k "") = lines.
Proof.
  induction k as [| k IH]; intros lines fuel Hlen Hlast.
  - simpl. rewrite app_nil_r. apply dropTrailingEmpty_id. assumption.
  - destruct fuel as [| fuel]; [lia |].
    rewrite replicate_S_end, app_assoc. simpl.
    rewrite last_snoc, removelast_last. simpl. apply IH; [lia | assumption].
Qed.

(** ** Substrings *)

Lemma Contains_unfold (s m : string) :
  strings_Contains s m
  = String.prefix m s
    || match s with
       | EmptyString => false
       | String _ s' => strings_Contains s' m
       end.
Proof. destruct s; reflexivity. Qed.

Lemma prefix_app (m x : string) : String.prefix m (m +:+ x) = true.
Proof.
  induction m as [| a m IH]; [destruct x; reflexivity |].
  change (String a m +:+ x) with (String a (m +:+ x)). simpl.
  destruct (ascii_dec a a); [exact IH | contradiction].
Qed.

Lemma prefix_weaken (m x : string) : forall s,
  String.prefix (m +:+ x) s = true -> String.prefix m s = true.
Proof.
  induction m as [| a m IH]; intros s H; [destruct s; reflexivity |].
  change (String a m +:+ x) with (String a (m +:+ x)) in H.
  destruct s as [| b s]; simpl in *; [discriminate |].
  destruct (ascii_dec a b); [apply IH; assumption | discriminate].
Qed.

Lemma Contains_weaken (m x : string) : forall s,
  strings_Contains s (m +:+ x) = true -> strings_Contains s m = true.
Proof.
  induction s as [| b s IH]; intros H; rewrite Contains_unfold in H;
    rewrite Contains_unfold;
    apply orb_true_iff in H as [H | H]; apply orb_true_iff.
  - left. eapply prefix_weaken; eauto.
  - discriminate.
  - left. eapply prefix_weaken; eauto.
  - right. apply IH. assumption.
Qed.

Lemma Contains_app_r (a b m : string) :
  strings_Contains b m = true -> strings_Contains (a +:+ b) m = true.
Proof.
  intros H. induction a as [| c a IH]; [exact H |].
  change (String c a +:+ b) with (String c (a +:+ b)).
  rewrite Contains_unfold, IH. apply orb_true_r.
Qed.

(** A pattern without the character [c] that begins a string made of [x],
    [c] and more, begins [x]. *)
Lemma prefix_before_char (c : ascii) (y : string) : forall m x,
  (forall m1 m2, m <> m1 +:+ String c m2) ->
  String.prefix m (x +:+ String c y) = true -> String.prefix m x = true.
Proof.
  induction m as [| a m IH]; intros x Hno H; [destruct x; reflexivity |].
  destruct x as [| b x].
  - change (EmptyString +:+ String c y) with (String c y) in H. simpl in H.
    destruct (ascii_dec a c) as [-> | ]; [| discriminate].
    exfalso. apply (Hno EmptyString m). reflexivity.
  - change (String b x +:+ String c y) with (String b (x +:+ String c y)) in H.
    simpl in *. destruct (ascii_dec a b) as [-> | ]; [| discriminate].
    apply IH; [| assumption].
    intros m1 m2 ->. apply (Hno (String b m1) m2). reflexivity.
Qed.

(** Such a pattern, when it occurs in [x], [c], [y], occurs in [x] or in
    [y]. *)
Lemma Contains_across_char (c : ascii) (m y : string) : forall x,
  m <> EmptyString ->
  (forall m1 m2, m <> m1 +:+ String c m2) ->
  strings_Contains (x +:+ String c y) m = true ->
  strings_Contains x m = true \/ strings_Contains y m = true.
Proof.
  intros x Hne Hno. induction x as [| b x IH]; intros H.
  - change (EmptyString +:+ String c y) with (String c y) in H.
    rewrite Contains_unfold in H. apply orb_true_iff in H as [H | H]; [| auto].
    apply (prefix_before_char c y m EmptyString Hno) in H.
    destruct m; [contradiction | discriminate].
  - change (String b x +:+ String c y) with (String b (x +:+ String c y)) in H.
    rewrite Contains_unfold in H. apply orb_true_iff in H as [H | H].
    + left. rewrite Contains_unfold.
      apply (prefix_before_char c y m (String b x) Hno) in H. rewrite H. reflexivity.
    + destruct (IH H) as [Hx | Hy]; [left | auto].
      rewrite Contains_unfold, Hx. apply orb_true_r.
Qed.

(** A pattern without a line feed that occurs in lines joined by line
    feeds occurs in one of the lines. *)
Lemma Contains_Join (m : string) lines :
  m <> EmptyString ->
  (forall m1 m2, m <> m1 +:+ LF +:+ m2) ->
  strings_Contains (strings_Join lines LF +:+ LF) m = true ->
  exists line, line ∈ lines /\ strings_Contains line m = true.
Proof.
  intros Hne Hno.
  assert (strings_Contains LF m = false) as HLF.
  { destruct (strings_Contains LF m) eqn:H; [| reflexivity]. exfalso.
    change LF with (EmptyString +:+ String (Ascii.ascii_of_nat 10) EmptyString) in H.
    apply (Contains_across_char _ m EmptyString EmptyString Hne Hno) in H.
    destruct m; [contradiction |]. destruct H; discriminate. }
  induction lines as [| x lines IH]; intros H.
  - change (strings_Join [] LF +:+ LF) with LF in H. congruence.
  - destruct lines as [| x' lines].
    + change (strings_Join [x] LF +:+ LF) with (x +:+ String (Ascii.ascii_of_nat 10) EmptyString) in H.
      apply (Contains_across_char _ m EmptyString x Hne Hno) in H as [H | H].
      * exists x. split; [apply list_elem_of_here | assumption].
      * destruct m; [contradiction | discriminate].
    + change (strings_Join (x :: x' :: lines) LF)
        with (x +:+ LF +:+ strings_Join (x' :: lines) LF) in H.
      rewrite !append_assoc in H.
      change (x +:+ LF +:+ strings_Join (x' :: lines) LF +:+ LF)
        with (x +:+ String (Ascii.ascii_of_nat 10) (strings_Join (x' :: lines) LF +:+ LF)) in H.
      apply (Contains_across_char _ m _ x Hne Hno) in H as [H | H].
      * exists x. split; [apply list_elem_of_here | assumption].
      * destruct (IH H) as (line & Hin & Hline).
        exists line. split; [apply list_elem_of_further |]; assumption.
Qed.

Lemma no_LF (m : string) :
  strings_Contains m LF = false -> forall m1 m2, m <> m1 +:+ LF +:+ m2.
Proof.
  intros H m1 m2 ->. rewrite Contains_app_r in H; [discriminate |].
  rewrite Contains_unfold, prefix_app. reflexivity.
Qed.

Lemma keepOutside_id before :
  Forall plain before -> keepOutside false [] before = before.
Proof.
  intros H. rewrite <- (app_nil_r before) at 1.
  rewrite keepOutside_all_plain by assumption. apply app_nil_r.
Qed.

(** ** What [removeMarkedSection] writes back *)

(** The lines written back are the kept lines without the empty lines at
    their end. *)
Lemma cleanedLines_spec scanned :
  (exists k, keepOutside false [] scanned = cleanedLines scanned ++ replicate k "")
  /\ last (cleanedLines scanned) <> Some "".
Proof. unfold cleanedLines. apply dropTrailingEmpty_spec. lia. Qed.

Lemma cleanedLines_kept scanned :
  cleanedLines scanned `sublist_of` scanned /\ Forall plain (cleanedLines scanned).
Proof.
  destruct (cleanedLines_spec scanned) as [(k & Hk) _].
  destruct (keepOutside_plain scanned false) as [Hplain Hsub].
  rewrite Hk in Hplain, Hsub. apply Forall_app in Hplain as [Hplain _].
  split; [| assumption].
  etransitivity; [| exact Hsub]. apply sublist_inserts_r. reflexivity.
Qed.

(** X16: the lines [removeMarkedSection] writes back are lines of the
    file, in their order (it neither invents nor reorders lines); none of
    them contains the START or the END marker; and the last of them is
    not empty. *)
Theorem cleanedLines_clean scanned :
  cleanedLines scanned `sublist_of` scanned
  /\ Forall plain (cleanedLines scanned)
  /\ last (cleanedLines scanned) <> Some "".
Proof.
  destruct (cleanedLines_kept scanned) as [Hsub Hplain].
  destruct (cleanedLines_spec scanned) as [_ Hlast]. auto.
Qed.

Lemma cleanedLines_plain lines :
  Forall plain lines -> last lines <> Some "" -> cleanedLines lines = lines.
Proof.
  intros Hplain Hlast. unfold cleanedLines.
  rewrite keepOutside_id by assumption. apply dropTrailingEmpty_id. assumption.
Qed.

(** X17: cleaning is idempotent: applied to the lines it wrote back,
    [removeMarkedSection] writes back the same lines. *)
Theorem cleanedLines_idempotent scanned :
  cleanedLines (cleanedLines scanned) = cleanedLines scanned.
Proof.
  destruct (cleanedLines_kept scanned) as [_ Hplain].
  destruct (cleanedLines_spec scanned) as [_ Hlast].
  apply cleanedLines_plain; assumption.
Qed.

(** Kept lines that differ in empty lines at their end are cleaned to
    the same lines. *)
Lemma dropTrailingEmpty_more lines (k : nat) :
  dropTrailingEmpty (length (lines ++ replicate k "")) (lines ++ replicate k "")
  = dropTrailingEmpty (length lines) lines.
Proof.
  destruct (dropTrailingEmpty_spec (length lines) lines (le_n _)) as [(j & Hj) Hlast].
  rewrite Hj at 1 2. rewrite <- app_assoc, <- replicate_add.
  rewrite dropTrailingEmpty_replicate; [reflexivity | | assumption].
  rewrite !length_app, !length_replicate. lia.
Qed.

(** X18: a section that is opened by a START line and closed by an END
    line is removed, whatever stands between them (short of another END
    line), and the lines before and after it are kept.  In particular,
    for a file of plain lines to which the block of [ShellStep.Run] was
    appended (an empty line, the START line, the export lines, the END
    line), what is written back is the file without the empty lines at
    its end. *)
Theorem cleanedLines_removes_section before inner after (s e : string) :
  Forall plain before ->
  strings_Contains s startMarker = true ->
  Forall (fun line => strings_Contains line endMarker = false) inner ->
  strings_Contains e startMarker = false ->
  strings_Contains e endMarker = true ->
  cleanedLines (before ++ [s] ++ inner ++ [e] ++ after) = cleanedLines (before ++ after)
  /\ cleanedLines (before ++ ["" ; startMarker] ++ inner ++ [endMarker])
     = cleanedLines before
  /\ exists k, before = cleanedLines before ++ replicate k "".
Proof.
  intros Hbefore Hs Hinner He1 He2.
  assert (forall s0 e0 rest,
    strings_Contains s0 startMarker = true ->
    strings_Contains e0 startMarker = false ->
    strings_Contains e0 endMarker = true ->
    keepOutside false [] ([s0] ++ inner ++ [e0] ++ rest) = keepOutside false [] rest) as Hcut.
  { intros s0 e0 rest H1 H2 H3. simpl app at 1. rewrite keepOutside_step, H1.
    rewrite keepOutside_inside by assumption.
    simpl app. rewrite keepOutside_step, H2, H3. reflexivity. }
  split; [| split].
  - unfold cleanedLines.
    rewrite (keepOutside_all_plain before ([s] ++ inner ++ [e] ++ after)) by assumption.
    rewrite Hcut by assumption.
    rewrite <- (keepOutside_all_plain before after) by assumption. reflexivity.
  - unfold cleanedLines.
    change (before ++ ["" ; startMarker] ++ inner ++ [endMarker])
      with (before ++ [""] ++ [startMarker] ++ inner ++ [endMarker] ++ []).
    rewrite app_assoc.
    rewrite (keepOutside_all_plain (before ++ [""])).
    + rewrite Hcut by reflexivity. simpl (keepOutside false [] []). rewrite app_nil_r.
      rewrite (keepOutside_id before) by assumption.
      apply (dropTrailingEmpty_more before 1).
    + apply Forall_app. split; [assumption |]. constructor; [| constructor].
      split; reflexivity.
  - destruct (cleanedLines_spec before) as [(k & Hk) _].
    exists k. rewrite <- Hk. symmetry. apply keepOutside_id. assumption.
Qed.

(** X19: a START line that no END line follows takes the rest of the
    file with it: every line after it is dropped, plain or not. *)
Theorem cleanedLines_unterminated before rest (s : string) :
  Forall plain before ->
  strings_Contains s startMarker = true ->
  Forall (fun line => strings_Contains line endMarker = false) rest ->
  cleanedLines (before ++ s :: rest) = cleanedLines before.
Proof.
  intros Hbefore Hs Hrest. unfold cleanedLines.
  rewrite keepOutside_all_plain by assumption.
  rewrite keepOutside_step, Hs.
  rewrite <- (app_nil_r rest), keepOutside_inside by assumption.
  simpl (keepOutside true [] []). rewrite app_nil_r.
  rewrite (keepOutside_id before) by assumption. reflexivity.
Qed.

(** ** The block and the probe *)

(** X20: whatever a shell file holds and whatever order the runtime
    ranges over the variables in, once the block of [ShellStep.Run] is
    appended to it, its content contains the marker [ShellStep.Check]
    looks for. *)
Theorem shellBlock_is_marked (content : string) (ranged : list (string * string)) :
  strings_Contains (content +:+ shellBlock ranged) shellMarker = true.
Proof.
  apply Contains_app_r. unfold shellBlock.
  change (strings_Join (["" ; shellMarker +:+ " - START"] ++ map exportLine ranged
                          ++ [shellMarker +:+ " - END"; ""]) LF)
    with ("" +:+ LF +:+ strings_Join ((shellMarker +:+ " - START") :: map exportLine ranged
                          ++ [shellMarker +:+ " - END"; ""]) LF).
  apply (Contains_app_r ("" +:+ LF)).
  destruct (map exportLine ranged ++ [shellMarker +:+ " - END"; ""]) as [| x rest] eqn:Hrest.
  - destruct (map exportLine ranged); discriminate.
  - change (strings_Join ((shellMarker +:+ " - START") :: x :: rest) LF)
      with ((shellMarker +:+ " - START") +:+ LF +:+ strings_Join (x :: rest) LF).
    rewrite append_assoc, Contains_unfold, prefix_app. reflexivity.
Qed.

(** X21: when no line that is written back contains the marker, the
    content [removeMarkedSection] writes does not contain it either:
    joining the lines with line feeds cannot produce the marker, and
    [ShellStep.Check] will not find it in that file. *)
Theorem cleaned_content_unmarked scanned :
  Forall (fun line => strings_Contains line shellMarker = false) (cleanedLines scanned) ->
  strings_Contains (strings_Join (cleanedLines scanned) LF +:+ LF) shellMarker = false.
Proof.
  intros Hall.
  destruct (strings_Contains (strings_Join (cleanedLines scanned) LF +:+ LF) shellMarker)
    eqn:H; [| reflexivity].
  apply Contains_Join in H as (line & Hin & Hline).
  - rewrite Forall_forall in Hall. rewrite (Hall line Hin) in Hline. discriminate.
  - discriminate.
  - apply no_LF. reflexivity.
Qed.

End Shell.

(** * The further properties at work

    The steps of the command on the example machine, and the
    properties above at concrete inputs. *)

(** The command on a workstation with Homebrew: the repository is
    cloned, the shell file extended, the prerequisites installed, the
    dependencies downloaded; Doom Emacs is missing. *)
Example darwin_setup_run :
  (RunAll (init Machine.darwin_setup Machine.fresh)).1
  = Some (step_failed "Sync Doom Emacs packages"
            (errorString "doom command not found - is Doom Emacs installed?"))
  /\ calls (RunAll (init Machine.darwin_setup Machine.fresh)).2
     = [ CheckCall 0 false None; RunCall 0 None;
         CheckCall 1 false None; RunCall 1 None;
         CheckCall 2 false None; RunCall 2 None;
         CheckCall 3 false None; RunCall 3 None;
         CheckCall 4 false None;
         RunCall 4 (Some (errorString "doom command not found - is Doom Emacs installed?")) ]
  /\ Machine.lookup_file "/home/hive/.bashrc"
       (Machine.files (world (RunAll (init Machine.darwin_setup Machine.fresh)).2))
     = Some ("export EDITOR=vi" +:+ LF
             +:+ LF +:+ "# hive-mcp-cli managed - START"
             +:+ LF +:+ "export HIVE_MCP_DIR=" +:+ QUOTE +:+ "/home/hive/hive-mcp" +:+ QUOTE
             +:+ LF +:+ "export BB_MCP_DIR=" +:+ QUOTE +:+ "/home/hive/hive-mcp" +:+ QUOTE
             +:+ LF +:+ "# hive-mcp-cli managed - END" +:+ LF).
Proof. repeat split. Qed.

(** After that run the shell step is done, and its rollback gives the
    shell file back as it was. *)
Example shell_round_trip :
  (Check Machine.shell (world (RunAll (init Machine.darwin_setup Machine.fresh)).2)).1
  = (true, None)
  /\ Machine.files
       (Rollback Machine.shell (world (RunAll (init Machine.darwin_setup Machine.fresh)).2)).2
     = Machine.files Machine.fresh.
Proof. repeat split. Qed.

Lemma RollbackFrom_only_rolls_back_witness :
  is_int 1
  /\ exists errs s',
       RollbackFrom 1 (init Example.r0 Example.with_A) = (Returned errs, s')
       /\ self s' = Example.r0
       /\ Forall (fun c => is_RollbackCall c = true) (calls s')
       /\ map call_index (calls s') = [1; 0]
       /\ rolled_back (Steps Example.r0) Example.with_A (calls s') (world s')
       /\ errs = omap (rollback_error (Steps Example.r0)) (calls s')
       /\ length errs <= length (calls s') <= length (Steps Example.r0).
Proof.
  assert (is_int 1) as Hint by (unfold is_int, int_min, int_max; lia).
  split; [exact Hint |].
  exact (RollbackFrom_only_rolls_back Example.r0 Example.with_A 1 Hint).
Defined.

Lemma rollback_visits_what_ran_witness :
  Results Example.r0 = []
  /\ is_int (Z.of_nat (length (Steps Example.r0)))
  /\ exists errs s',
       RollbackFrom (Z.of_nat (length (Results (self Example.run0.2))) - 1)
         (init (self Example.run0.2) (world Example.run0.2))
       = (Returned errs, s')
       /\ map call_index (calls s') = [2; 1; 0]
       /\ Forall (fun c => is_RollbackCall c = true) (calls s')
       /\ rolled_back (Steps Example.r0) (world Example.run0.2) (calls s') (world s')
       /\ errs = omap (rollback_error (Steps Example.r0)) (calls s').
Proof.
  assert (is_int (Z.of_nat (length (Steps Example.r0)))) as Hint
    by (unfold is_int, int_min, int_max; simpl; lia).
  split; [reflexivity |]. split; [exact Hint |].
  exact (rollback_visits_what_ran Example.r0 Example.with_A eq_refl Hint).
Defined.

Lemma RunAll_steps_only_prints_witness :
  Equivalence Example.same_journal
  /\ (forall line w0, Example.same_journal w0 (Example.print line w0))
  /\ (forall step, step ∈ Example.scenario -> step_respects Example.same_journal step)
  /\ (RunAll_steps Example.print Example.scenario Example.with_A).1
     = (RunAll (init (bare Example.scenario) Example.with_A)).1
  /\ Example.same_journal
       (RunAll_steps Example.print Example.scenario Example.with_A).2
       (world (RunAll (init (bare Example.scenario) Example.with_A)).2)
  /\ Results (self (RunAll (init (NewRunner Example.print Example.scenario) Example.with_A)).2)
     = Results (self (RunAll (init (bare Example.scenario) Example.with_A)).2).
Proof.
  assert (forall line w0, Example.same_journal w0 (Example.print line w0)) as Hprint
    by (intros line w0; reflexivity).
  split; [exact same_journal_equivalence |]. split; [exact Hprint |].
  split; [exact scenario_respects_journal |].
  exact (RunAll_steps_only_prints Example.print Example.same_journal Example.scenario
           Example.with_A same_journal_equivalence Hprint scenario_respects_journal).
Defined.

Lemma ExpandPath_idempotent_witness :
  (forall h, Example.home Example.empty = (h, None) ->
     exists c rest, h = String c rest /\ c <> "~"%char)
  /\ ExpandPath Example.home "~/src/hive-mcp" Example.empty = "/home/hive/src/hive-mcp"
  /\ ExpandPath Example.home (ExpandPath Example.home "~/src/hive-mcp" Example.empty)
       Example.empty
     = ExpandPath Example.home "~/src/hive-mcp" Example.empty
  /\ ((Example.home Example.empty).2 = None ->
      forall rest, ExpandPath Example.home "~/src/hive-mcp" Example.empty <> String "~" rest)
  /\ (forall c rest, "~/src/hive-mcp" = String c rest -> c <> "~"%char ->
      ExpandPath Example.home "~/src/hive-mcp" Example.empty = "~/src/hive-mcp").
Proof.
  assert (forall h, Example.home Example.empty = (h, None) ->
     exists c rest, h = String c rest /\ c <> "~"%char) as Hhome.
  { intros h Hh. inversion Hh. exists "/"%char, "home/hive". split; [reflexivity | discriminate]. }
  split; [exact Hhome |]. split; [reflexivity |].
  exact (ExpandPath_idempotent Example.home "~/src/hive-mcp" Example.empty Hhome).
Defined.

Lemma steps_share_the_directory_witness :
  @os_UserHomeDir _ Machine.mac_os Machine.fresh = @os_UserHomeDir _ Machine.mac_os Machine.cloned
  /\ @CloneStep_targetDir _ Machine.mac_os {| CloneStep_HiveMCPDir := "~/src/hive" |} Machine.fresh
     = "/home/hive/src/hive"
  /\ @CloneStep_targetDir _ Machine.mac_os {| CloneStep_HiveMCPDir := "~/src/hive" |} Machine.fresh
     = CloneDepsStep_targetDir (@os_UserHomeDir _ Machine.mac_os) (@filepath_Join _ Machine.mac_os)
         {| HiveMCPDir := "~/src/hive" |} Machine.cloned
  /\ @CloneStep_targetDir _ Machine.mac_os {| CloneStep_HiveMCPDir := "~/src/hive" |} Machine.fresh
     = @ShellStep_hiveMCPDir _ Machine.mac_os {| ShellStep_HiveMCPDir := "~/src/hive" |} Machine.cloned
  /\ @CloneStep_targetDir _ Machine.mac_os {| CloneStep_HiveMCPDir := "~/src/hive" |} Machine.fresh
     = @ChromaStep_hiveMCPDir _ Machine.mac_os {| ChromaStep_HiveMCPDir := "~/src/hive" |} Machine.cloned
  /\ @CloneStep_targetDir _ Machine.mac_os {| CloneStep_HiveMCPDir := "~/src/hive" |} Machine.fresh
     = @MCPStep_hiveMCPDir _ Machine.mac_os {| MCPStep_HiveMCPDir := "~/src/hive" |} Machine.cloned.
Proof.
  split; [reflexivity |]. split; [reflexivity |].
  exact (@steps_share_the_directory _ Machine.mac_os "~/src/hive" Machine.fresh Machine.cloned
           eq_refl).
Defined.

Lemma setup_rollback_errors_witness :
  is_int 8
  /\ Steps Machine.darwin_setup = @setupSteps _ Machine.mac_os "darwin"
  /\ exists errs s',
       RollbackFrom 8 (init Machine.darwin_setup Machine.cloned) = (Returned errs, s')
       /\ forall e, e ∈ errs ->
            exists name e0,
              e = rollback_failed name e0
              /\ name ∈ ["Clone hive-mcp repository"; "Configure shell environment";
                         "Start Docker services (Chroma)";
                         "Register MCP server with Claude CLI"].
Proof.
  assert (is_int 8) as Hint by (unfold is_int, int_min, int_max; lia).
  split; [exact Hint |]. split; [reflexivity |].
  exact (@setup_rollback_errors _ Machine.mac_os "darwin" Machine.darwin_setup Machine.cloned 8
           Hint eq_refl).
Defined.

Lemma unsupported_platform_stops_setup_witness :
  "freebsd" <> "darwin"
  /\ "freebsd" <> "linux"
  /\ Steps Machine.freebsd_setup = @setupSteps _ Machine.bsd_os "freebsd"
  /\ Results Machine.freebsd_setup = []
  /\ CheckCall 2 false None ∈ calls (RunAll (init Machine.freebsd_setup Machine.fresh)).2
  /\ (RunAll (init Machine.freebsd_setup Machine.fresh)).1
     = Some (step_failed "Install system prerequisites"
               (errorString "unsupported platform: freebsd"))
  /\ length (Results (self (RunAll (init Machine.freebsd_setup Machine.fresh)).2)) = 3
  /\ forall c, c ∈ calls (RunAll (init Machine.freebsd_setup Machine.fresh)).2 ->
       call_index c <= 2.
Proof.
  assert ("freebsd" <> "darwin") as Hd by discriminate.
  assert ("freebsd" <> "linux") as Hl by discriminate.
  assert (CheckCall 2 false None ∈ calls (RunAll (init Machine.freebsd_setup Machine.fresh)).2)
    as Hin by (vm_compute; repeat constructor).
  split; [exact Hd |]. split; [exact Hl |]. split; [reflexivity |]. split; [reflexivity |].
  split; [exact Hin |].
  exact (@unsupported_platform_stops_setup _ Machine.bsd_os "freebsd" Machine.freebsd_setup
           Machine.fresh Hd Hl eq_refl eq_refl Hin).
Defined.

Lemma darwin_prerequisites_never_stop_witness :
  (forall w0, @exec_LookPath _ Machine.mac_os "brew" w0 = None)
  /\ Steps Machine.darwin_setup = @setupSteps _ Machine.mac_os "darwin"
  /\ (exists done e,
        CheckCall 2 done e ∈ calls (RunAll (init Machine.darwin_setup Machine.fresh)).2)
  /\ CheckCall 3 false None ∈ calls (RunAll (init Machine.darwin_setup Machine.fresh)).2
  /\ exists res,
       Results (self (RunAll (init Machine.darwin_setup Machine.fresh)).2)
         !! (length (Results Machine.darwin_setup) + 2) = Some res
       /\ Error res = None.
Proof.
  assert (forall w0, @exec_LookPath _ Machine.mac_os "brew" w0 = None) as Hbrew
    by (intros w0; reflexivity).
  assert (exists done e,
            CheckCall 2 done e ∈ calls (RunAll (init Machine.darwin_setup Machine.fresh)).2)
    as Hin by (exists false, None; vm_compute; repeat constructor).
  split; [exact Hbrew |]. split; [reflexivity |]. split; [exact Hin |].
  exact (@darwin_prerequisites_never_stop _ Machine.mac_os Machine.darwin_setup Machine.fresh
           Hbrew eq_refl Hin).
Defined.

Lemma DoomSyncStep_always_runs_witness :
  Steps (bare [Machine.doom]) !! 0 = Some (@DoomSyncStep_as_Step _ Machine.mac_os)
  /\ CheckCall 0 false None ∈ calls (RunAll (init (bare [Machine.doom]) Machine.fresh)).2
  /\ (exists before after wk,
        calls (RunAll (init (bare [Machine.doom]) Machine.fresh)).2
        = before ++ CheckCall 0 false None
            :: RunCall 0 (@DoomSyncStep_Run _ Machine.mac_os
                            (after_OnStart (bare [Machine.doom]) Machine.doom wk)).1
            :: after
        /\ performed (bare [Machine.doom]) Machine.fresh before wk
        /\ performed (bare [Machine.doom])
             (after_OnDone (bare [Machine.doom]) Machine.doom false
                (@DoomSyncStep_Run _ Machine.mac_os
                   (after_OnStart (bare [Machine.doom]) Machine.doom wk)).1
                (@DoomSyncStep_Run _ Machine.mac_os
                   (after_OnStart (bare [Machine.doom]) Machine.doom wk)).2)
             after (world (RunAll (init (bare [Machine.doom]) Machine.fresh)).2)
        /\ Results (self (RunAll (init (bare [Machine.doom]) Machine.fresh)).2) !! 0
           = Some {| StepName := "Sync Doom Emacs packages";
                     Skipped := false;
                     Error := (@DoomSyncStep_Run _ Machine.mac_os
                                 (after_OnStart (bare [Machine.doom]) Machine.doom wk)).1 |})
  /\ calls (RunAll (init (bare [Machine.doom]) Machine.fresh)).2
     = [CheckCall 0 false None;
        RunCall 0 (Some (errorString "doom command not found - is Doom Emacs installed?"))].
Proof.
  assert (CheckCall 0 false None ∈ calls (RunAll (init (bare [Machine.doom]) Machine.fresh)).2)
    as Hin by (vm_compute; repeat constructor).
  split; [reflexivity |]. split; [exact Hin |].
  destruct (@DoomSyncStep_always_runs _ Machine.mac_os (bare [Machine.doom]) Machine.fresh 0
              eq_refl false None Hin) as (_ & _ & Hrun).
  split; [exact Hrun | reflexivity].
Defined.


Lemma rollback_removes_existing_repository_witness :
  @os_Stat _ Machine.mac_os
    (@filepath_Join _ Machine.mac_os
       (@CloneStep_targetDir _ Machine.mac_os Machine.clone Machine.cloned) ".git")
    Machine.cloned = None
  /\ @os_Stat _ Machine.mac_os
       (@CloneStep_targetDir _ Machine.mac_os Machine.clone Machine.cloned) Machine.cloned = None
  /\ calls (RunAll (init (bare [@CloneStep_as_Step _ Machine.mac_os Machine.clone])
                      Machine.cloned)).2
     = [CheckCall 0 true None]
  /\ Machine.files
       (world (RollbackFrom 0
          (init (self (RunAll (init (bare [@CloneStep_as_Step _ Machine.mac_os Machine.clone])
                                 Machine.cloned)).2)
                (world (RunAll (init (bare [@CloneStep_as_Step _ Machine.mac_os Machine.clone])
                                  Machine.cloned)).2))).2)
     = Machine.files Machine.fresh.
Proof.
  split; [reflexivity |]. split; [reflexivity |].
  destruct (@rollback_removes_existing_repository _ Machine.mac_os Machine.clone Machine.cloned
              eq_refl eq_refl) as (Hrun & _ & Hworld).
  split; [rewrite Hrun; reflexivity |].
  rewrite Hworld. reflexivity.
Defined.

Lemma cleanedLines_removes_section_witness :
  Forall plain ["export EDITOR=vi"; ""]
  /\ strings_Contains startMarker startMarker = true
  /\ Forall (fun line => strings_Contains line endMarker = false)
       [exportLine ("HIVE_MCP_DIR", "/home/hive/hive-mcp")]
  /\ strings_Contains endMarker startMarker = false
  /\ strings_Contains endMarker endMarker = true
  /\ cleanedLines Machine.bashrc = ["export EDITOR=vi"; ""; "alias l=ls"].
Proof.
  assert (Forall plain ["export EDITOR=vi"; ""]) as Hbefore
    by (repeat constructor).
  assert (Forall (fun line => strings_Contains line endMarker = false)
            [exportLine ("HIVE_MCP_DIR", "/home/hive/hive-mcp");
             exportLine ("BB_MCP_DIR", "/home/hive/hive-mcp")]) as Hinner
    by (repeat constructor).
  split; [exact Hbefore |]. split; [reflexivity |].
  split; [repeat constructor |]. split; [reflexivity |]. split; [reflexivity |].
  destruct (cleanedLines_removes_section ["export EDITOR=vi"; ""]
              [exportLine ("HIVE_MCP_DIR", "/home/hive/hive-mcp");
               exportLine ("BB_MCP_DIR", "/home/hive/hive-mcp")]
              ["alias l=ls"; ""] startMarker endMarker
              Hbefore eq_refl Hinner eq_refl eq_refl) as (Hcut & _ & _).
  etransitivity; [exact Hcut | reflexivity].
Defined.

Lemma cleanedLines_unterminated_witness :
  Forall plain ["export EDITOR=vi"]
  /\ strings_Contains startMarker startMarker = true
  /\ Forall (fun line => strings_Contains line endMarker = false) ["export A=1"; "alias l=ls"]
  /\ cleanedLines (["export EDITOR=vi"] ++ startMarker :: ["export A=1"; "alias l=ls"])
     = cleanedLines ["export EDITOR=vi"].
Proof.
  assert (Forall plain ["export EDITOR=vi"]) as Hbefore by (repeat constructor).
  assert (Forall (fun line => strings_Contains line endMarker = false)
            ["export A=1"; "alias l=ls"]) as Hrest by (repeat constructor).
  split; [exact Hbefore |]. split; [reflexivity |]. split; [exact Hrest |].
  exact (cleanedLines_unterminated ["export EDITOR=vi"] ["export A=1"; "alias l=ls"]
           startMarker Hbefore eq_refl Hrest).
Defined.

Lemma cleaned_content_unmarked_witness :
  Forall (fun line => strings_Contains line shellMarker = false) (cleanedLines Machine.bashrc)
  /\ strings_Contains (strings_Join (cleanedLines Machine.bashrc) LF +:+ LF) shellMarker = false.
Proof.
  assert (Forall (fun line => strings_Contains line shellMarker = false)
            (cleanedLines Machine.bashrc)) as Hall by (vm_compute; repeat constructor).
  split; [exact Hall |].
  exact (cleaned_content_unmarked Machine.bashrc Hall).
Defined.
